(** * Fleece: the mutable hash tree (MHashTree.cc) and smallVector (SmallVector.hh)

    A shallow embedding of the two C++ components and the proofs of their
    specified properties.

    Conventions of the embedding.
    - Machine integers are [Z]; every narrowing the C++ performs
      ([uint8_t], [uint32_t], [unsigned], [size_t]) is written out.
    - [assert], null dereferences and out-of-bounds accesses are results of
      type [failure]; the embedding is of a build with assertions enabled.
    - [new] and [delete] act on a [Heap] that hands out fresh addresses and
      records the freed ones, so that pointer identity ([node != childRef],
      a returned pointer that the caller drops) can be expressed.
    - A node's [_children] array is the list of its [_capacity] slots, a null
      pointer being [None].  A node owns exactly the children in its first
      [childCount()] slots; the code never reads a slot past them, and such a
      slot keeps whatever pointer [memmove] left in it. *)

From stdpp Require Import base numbers list gmap sets.
From Stdlib Require Import ZArith Lia.

Local Open Scope Z_scope.
#[local] Set Warnings "-register-all".

(** ** Failures and the two monads *)

Inductive failure : Type :=
| HashDepthExhausted   (* assert(shift + kBitShift < 8*sizeof(hash_t)) *)
| AssertionFailed      (* any other assert() *)
| UndefinedBehavior    (* null or dangling pointer, bad cast, access out of bounds *)
| OutOfFuel            (* the recursion bound of the embedding, never reached *)
| LogicError           (* throw std::logic_error *)
| DomainError          (* throw std::domain_error *)
| BadAlloc.            (* throw std::bad_alloc *)

Inductive result (A : Type) : Type :=
| Ok (a : A)
| Fail (f : failure).
Arguments Ok {A} a.
Arguments Fail {A} f.

Definition rbind {A B} (r : result A) (k : A → result B) : result B :=
  match r with
  | Ok a => k a
  | Fail f => Fail f
  end.

(** The heap as far as the trie is concerned: how many objects were created
    by [new] (the next fresh address) and which addresses were [delete]d. *)
Record Heap : Type := mkHeap { allocated : nat; freed : list nat }.

Definition emptyHeap : Heap := mkHeap 0 [].

Definition M (A : Type) : Type := Heap → result (A * Heap).

Definition ret {A} (a : A) : M A := λ h, Ok (a, h).
Definition failM {A} (f : failure) : M A := λ _, Fail f.
Definition bind {A B} (m : M A) (k : A → M B) : M B :=
  λ h, match m h with
       | Ok (a, h') => k a h'
       | Fail f => Fail f
       end.

Declare Scope heap_scope.
Delimit Scope heap_scope with heap.
Notation "'let*' x ':=' m 'in' k" := (bind m (λ x, k))
  (at level 10, x pattern, m at level 100, k at level 200,
   format "'[v' 'let*'  x  ':='  m  'in' '/' k ']'") : heap_scope.
Notation "'let+' x ':=' m 'in' k" := (rbind m (λ x, k))
  (at level 10, x pattern, m at level 100, k at level 200,
   format "'[v' 'let+'  x  ':='  m  'in' '/' k ']'") : heap_scope.
Local Open Scope heap_scope.

(** [new]: a fresh address. *)
Definition new_ : M nat :=
  λ h, Ok (allocated h, mkHeap (S (allocated h)) (freed h)).

(** [delete p]. *)
Definition delete_ (p : nat) : M unit :=
  λ h, Ok (tt, mkHeap (allocated h) (p :: freed h)).

Definition assertM (b : bool) (f : failure) : M unit :=
  if b then ret tt else failM f.

(** ** Fixed-width integers *)

Definition to_uint8 (z : Z) : Z := z mod 2 ^ 8.
Definition to_uint32 (z : Z) : Z := z mod 2 ^ 32.
Definition to_size_t (z : Z) : Z := z mod 2 ^ 64.
Definition UINT32_MAX : Z := 2 ^ 32 - 1.

(** ** Array primitives *)

(** [memmove(&a[dst], &a[src], n * sizeof(a[0]))] inside one array. *)
Definition memmove {A} (a : list A) (dst src n : nat) : list A :=
  take dst a ++ take n (drop src a) ++ drop (dst + n) a.

(** Run [k] on slot [i] of an array, [oob] when there is no such slot. *)
Definition slotAt {A B} (k : A → B) (oob : B) : list A → nat → B :=
  fix go (a : list A) (i : nat) {struct a} : B :=
    match a with
    | [] => oob
    | c :: a' =>
        match i with
        | O => k c
        | S i' => go a' i'
        end
    end.

(** [for (i = 0; i < n; ++i) acc = f(acc, a[i])], failing past the array. *)
Definition forFirst {A B} (f : B → A → result B) : list A → nat → B → result B :=
  fix go (a : list A) (n : nat) (acc : B) {struct a} : result B :=
    match n with
    | O => Ok acc
    | S n' =>
        match a with
        | [] => Fail UndefinedBehavior
        | c :: a' => rbind (f acc c) (go a' n')
        end
    end.

(** [memcpy(dst, src, n * sizeof(T))] between two arrays; copying more than
    either holds is undefined. *)
Definition memcpy {A} (dst src : list A) (n : nat) : result (list A) :=
  if decide (n ≤ length src ∧ n ≤ length dst)%nat
  then Ok (take n src ++ drop n dst)
  else Fail UndefinedBehavior.

(** [a[i] = x], undefined outside the array. *)
Definition store {A} (a : list A) (i : Z) (x : A) : result (list A) :=
  if decide (0 ≤ i < Z.of_nat (length a))
  then Ok (<[Z.to_nat i := x]> a)
  else Fail UndefinedBehavior.

(** ** smallVector<T, N> (SmallVector.hh) *)

Section SmallVector.

Context {T : Type}.

(** The template parameter [N]. *)
Variable N : Z.

(** [T()], and the content of storage that was not written yet. *)
Variable defaultT : T.
Variable unwritten : T.

(** [_small] is the inline buffer of [N] slots and [_big] the heap block
    ([None] for [nullptr]) with its slots.  [setCapacityCalls] is a ghost
    field that counts the calls of [setCapacity] on the object. *)
Record smallVector : Type := mkVector {
  _size : Z;
  _capacity : Z;
  _small : list T;
  _big : option (list T);
  setCapacityCalls : nat
}.

(** [smallVector()] *)
Definition newVector : smallVector :=
  mkVector 0 (to_uint32 N) (replicate (Z.to_nat N) unwritten) None 0.

Definition sv_size (sv : smallVector) : Z := _size sv.
Definition sv_capacity (sv : smallVector) : Z := _capacity sv.
Definition sv_empty (sv : smallVector) : bool := _size sv =? 0.

(** Whether the elements are in the heap block ([_big != nullptr]). *)
Definition onHeap (sv : smallVector) : bool :=
  match _big sv with
  | Some _ => true
  | None => false
  end.

(** The array [_get] indexes: [_big] when there is one, [_small] otherwise. *)
Definition baseOf (sv : smallVector) : list T :=
  match _big sv with
  | Some big => big
  | None => _small sv
  end.

Definition withBase (sv : smallVector) (base : list T) : smallVector :=
  match _big sv with
  | Some _ => mkVector (_size sv) (_capacity sv) (_small sv) (Some base)
                (setCapacityCalls sv)
  | None => mkVector (_size sv) (_capacity sv) base None (setCapacityCalls sv)
  end.

Definition withSize (sv : smallVector) (size : Z) : smallVector :=
  mkVector size (_capacity sv) (_small sv) (_big sv) (setCapacityCalls sv).

(** [get(i)] *)
Definition sv_get (sv : smallVector) (i : Z) : result T :=
  if negb (i <? _size sv) then Fail AssertionFailed else
  match baseOf sv !! Z.to_nat i with
  | Some x => Ok x
  | None => Fail UndefinedBehavior
  end.

(** [realloc(big, cap * sizeof(T))] when it succeeds. *)
Definition reallocated (big : list T) (cap : Z) : list T :=
  take (Z.to_nat cap) big
    ++ replicate (Z.to_nat cap - length big) unwritten.

(** [setCapacity(cap)]; [heapOk] tells whether [realloc], if it is called,
    returns a block. *)
Definition setCapacity (heapOk : bool) (cap : Z) (sv0 : smallVector)
    : result smallVector :=
  let sv := mkVector (_size sv0) (_capacity sv0) (_small sv0) (_big sv0)
              (S (setCapacityCalls sv0)) in
  if cap =? _capacity sv then Ok sv else
  if cap <? _size sv then Fail LogicError else
  if UINT32_MAX <? cap then Fail DomainError else
  if cap <=? N then
    match _big sv with
    | Some big =>
        (* Switch to _small: *)
        let+ small := memcpy (_small sv) big (Z.to_nat (_size sv)) in
        Ok (mkVector (_size sv) (to_uint32 cap) small None (setCapacityCalls sv))
    | None =>
        Ok (mkVector (_size sv) (to_uint32 cap) (_small sv) None
              (setCapacityCalls sv))
    end
  else
    if negb heapOk then Fail BadAlloc else
    match _big sv with
    | Some big =>
        Ok (mkVector (_size sv) (to_uint32 cap) (_small sv)
              (Some (reallocated big cap)) (setCapacityCalls sv))
    | None =>
        (* Switch to _big: *)
        let+ newBig := memcpy (replicate (Z.to_nat cap) unwritten) (_small sv)
                         (Z.to_nat (_size sv)) in
        Ok (mkVector (_size sv) (to_uint32 cap) (_small sv) (Some newBig)
              (setCapacityCalls sv))
    end.

(** [reserve(cap)] *)
Definition reserve (heapOk : bool) (cap : Z) (sv : smallVector)
    : result smallVector :=
  if _capacity sv <? cap then setCapacity heapOk cap sv else Ok sv.

(** [shrinkTo(sz)] *)
Definition shrinkTo (sz : Z) (sv : smallVector) : result smallVector :=
  if sz <? _size sv then Ok (withSize sv (to_uint32 sz)) else Ok sv.

(** [clear()] *)
Definition clear (sv : smallVector) : result smallVector := shrinkTo 0 sv.

(** The capacity [_grow] asks for:
    [max((size_t)_capacity + _capacity/2, (size_t)_size + 1)]. *)
Definition grownCapacity (sv : smallVector) : Z :=
  Z.max (_capacity sv + _capacity sv / 2) (_size sv + 1).

(** [_grow()]: the grown vector and the index of the new, unconstructed
    item. *)
Definition _grow (heapOk : bool) (sv : smallVector) : result (smallVector * Z) :=
  let+ sv1 := (if _capacity sv <=? _size sv
               then setCapacity heapOk (grownCapacity sv) sv
               else Ok sv) in
  Ok (withSize sv1 (to_uint32 (_size sv1 + 1)), _size sv1).

(** [push_back(t)] *)
Definition push_back (heapOk : bool) (t : T) (sv : smallVector)
    : result smallVector :=
  let+ r := _grow heapOk sv in
  let+ base := store (baseOf r.1) r.2 t in
  Ok (withBase r.1 base).

(** [emplace_back(args...)], [t] being [T(args...)]. *)
Definition emplace_back (heapOk : bool) (t : T) (sv : smallVector)
    : result smallVector :=
  push_back heapOk t sv.

(** [pop_back()] *)
Definition pop_back (sv : smallVector) : result smallVector :=
  let+ _ := sv_get sv (to_uint32 (_size sv - 1)) in
  Ok (withSize sv (to_uint32 (_size sv - 1))).

(** [erase(first, last)], the iterators being offsets from [begin()]. *)
Definition erase (first last : Z) (sv : smallVector) : result smallVector :=
  if negb ((0 <=? first) && (first <=? last) && (last <=? _size sv))
  then Fail AssertionFailed else
  let base := baseOf sv in
  let moved := memmove base (Z.to_nat first) (Z.to_nat last)
                 (Z.to_nat (_size sv - last)) in
  Ok (withSize (withBase sv moved) (to_uint32 (_size sv - (last - first)))).

(** [resize(sz)] *)
Definition resize (heapOk : bool) (sz : Z) (sv : smallVector)
    : result smallVector :=
  if _size sv <? sz then
    let+ sv1 := (if _capacity sv <? sz then
                   let cap := if N <? sz
                              then Z.max (_capacity sv + _capacity sv / 2) sz
                              else sz in
                   setCapacity heapOk cap sv
                 else Ok sv) in
    let i := _size sv1 in
    let sv2 := withSize sv1 (to_uint32 sz) in
    let base := baseOf sv2 in
    (* [get(i)] asserts [i < _size] for each new item *)
    if negb (sz <=? _size sv2) then Fail AssertionFailed else
    if decide (sz ≤ Z.of_nat (length base)) then
      (* construct the new items *)
      Ok (withBase sv2
            (take (Z.to_nat i) base
               ++ replicate (Z.to_nat (sz - i)) defaultT
               ++ drop (Z.to_nat sz) base))
    else Fail UndefinedBehavior
  else shrinkTo sz sv.

(** [smallVector(smallVector &&sv)]: the new vector and what is left of
    [sv]. *)
Definition moveConstruct (sv : smallVector) : result (smallVector * smallVector) :=
  let fresh := mkVector (_size sv) (_capacity sv)
                 (replicate (Z.to_nat N) unwritten) (_big sv) 0 in
  let+ r := (match _big sv with
             | Some _ =>
                 Ok (fresh, mkVector 0 (_capacity sv) (_small sv) None
                              (setCapacityCalls sv))
             | None =>
                 let+ small := memcpy (_small fresh) (_small sv)
                                 (Z.to_nat (_size sv)) in
                 Ok (mkVector (_size sv) (_capacity sv) small None 0,
                     withSize sv 0)
             end) in
  if negb (_size r.1 <=? _capacity r.1) then Fail AssertionFailed else Ok r.

(** [operator=(smallVector &&sv)]: [this] afterwards and what is left of
    [sv]. *)
Definition moveAssign (this sv : smallVector) : result (smallVector * smallVector) :=
  let this1 := mkVector (_size sv) (_capacity sv) (_small this) (_big sv)
                 (setCapacityCalls this) in
  match _big sv with
  | Some _ =>
      Ok (this1, mkVector 0 (_capacity sv) (_small sv) None (setCapacityCalls sv))
  | None =>
      let+ small := memcpy (_small this) (_small sv) (Z.to_nat (_size sv)) in
      Ok (mkVector (_size sv) (_capacity sv) small None (setCapacityCalls this),
          withSize sv 0)
  end.

(** The invariant of a vector that was not moved from: the size is at most
    the capacity, which fits [uint32_t]; the inline buffer has [N] slots; the
    elements are inline when the capacity is at most [N] and in a heap block
    of [_capacity] slots otherwise. *)
Definition sv_inv (sv : smallVector) : Prop :=
  0 ≤ _size sv ≤ _capacity sv ∧ _capacity sv ≤ UINT32_MAX ∧
  length (_small sv) = Z.to_nat N ∧
  match _big sv with
  | Some big => N < _capacity sv ∧ length big = Z.to_nat (_capacity sv)
  | None => _capacity sv ≤ N
  end.

(** The operations on one vector. *)
Inductive svOp : Type :=
| OpPushBack (t : T)
| OpEmplaceBack (t : T)
| OpPopBack
| OpErase (first last : Z)
| OpClear
| OpResize (sz : Z)
| OpReserve (cap : Z)
| OpSetCapacity (cap : Z)
| OpMoveAssign (from : smallVector).

Definition isMove (o : svOp) : bool :=
  match o with
  | OpMoveAssign _ => true
  | _ => false
  end.

Definition exec (heapOk : bool) (o : svOp) (sv : smallVector)
    : result smallVector :=
  match o with
  | OpPushBack t => push_back heapOk t sv
  | OpEmplaceBack t => emplace_back heapOk t sv
  | OpPopBack => pop_back sv
  | OpErase first last => erase first last sv
  | OpClear => clear sv
  | OpResize sz => resize heapOk sz sv
  | OpReserve cap => reserve heapOk cap sv
  | OpSetCapacity cap => setCapacity heapOk cap sv
  | OpMoveAssign from => let+ r := moveAssign sv from in Ok r.1
  end.

End SmallVector.

(** ** Bitmap<uint32_t> *)

Module Bitmap.

(** Modelled from the spec: Bitmap.hh is not among the sources.  The spec
    gives [bit(slice) = 1 << slice],
    [physIndex(slice) = popcount(bitmap & (bit(slice) - 1))] and
    [hasChild(slice) = (bitmap & bit(slice)) != 0]; adding a child sets the
    bit and removing one clears it. *)

Definition bit (bitNo : Z) : Z := Z.shiftl 1 bitNo.

(** Number of set bits among the [n] lowest. *)
Fixpoint popcountBelow (n : nat) (bits : Z) : Z :=
  match n with
  | O => 0
  | S n' => popcountBelow n' bits + Z.b2z (Z.testbit bits (Z.of_nat n'))
  end.

Definition bitCount (bits : Z) : Z := popcountBelow 32 bits.

Definition empty (bits : Z) : bool := bits =? 0.

Definition containsBit (bits bitNo : Z) : bool :=
  negb (Z.land bits (bit bitNo) =? 0).

Definition indexOfBit (bits bitNo : Z) : Z :=
  bitCount (Z.land bits (bit bitNo - 1)).

Definition addBit (bits bitNo : Z) : Z := to_uint32 (Z.lor bits (bit bitNo)).

Definition removeBit (bits bitNo : Z) : Z :=
  to_uint32 (Z.land bits (Z.lnot (bit bitNo))).

End Bitmap.

(** ** The nodes of MHashTree.cc *)

Definition kBitShift : Z := 5.
Definition kMaxChildren : Z := Z.shiftl 1 kBitShift.

(** [8*sizeof(hash_t)], with [hash_t = size_t] on an LP64 target. *)
Definition hashBits : Z := 64.

Section MHashTree.

Context {Key Val : Type} `{Countable Key}.

(** [std::hash<Key>], the result being a [size_t]. *)
Variable std_hash : Key → Z.

(** [Val{}], what [get] returns for an absent key. *)
Variable defaultVal : Val.

(** A leaf has [_capacity == 0] (that is what [isLeaf] tests); an interior
    node carries its capacity, bitmap and the [_capacity] slots of the
    trailing array. *)
Inductive Node : Type :=
| LeafNode (addr : nat) (_hash : Z) (_key : Key) (_val : Val)
| InteriorNode (addr : nat) (_capacity : Z) (_bitmap : Z)
               (_children : list (option Node)).

(** The content of storage that was allocated and not yet written. *)
Variable indeterminate : option Node.

Definition addrOf (n : Node) : nat :=
  match n with
  | LeafNode a _ _ _ => a
  | InteriorNode a _ _ _ => a
  end.

Definition capacityOf (n : Node) : Z :=
  match n with
  | LeafNode _ _ _ _ => 0
  | InteriorNode _ cap _ _ => cap
  end.

Definition isLeaf (n : Node) : bool := capacityOf n =? 0.

Record Target : Type := mkTarget { t_hash : Z; t_key : Key }.

(** [Target(Key k) : Target(std::hash<Key>()(k), k)] *)
Definition targetOf (k : Key) : Target :=
  mkTarget (to_size_t (std_hash k)) k.

(** [Target::matches(hash_t h, Key k)] on a node with hash [h0], key [k0]. *)
Definition matches (h0 : Z) (k0 : Key) (h : Z) (k : Key) : bool :=
  (h0 =? h) && bool_decide (k0 = k).

Definition childBitNumber (hash shift : Z) : Z :=
  Z.land (Z.shiftr hash shift) (kMaxChildren - 1).

Definition childCount (bitmap : Z) : Z := Bitmap.bitCount bitmap.
Definition childIndexForBitNumber (bitmap bitNo : Z) : Z :=
  Bitmap.indexOfBit bitmap bitNo.
Definition hasChild (bitmap bitNo : Z) : bool := Bitmap.containsBit bitmap bitNo.

(** [newNode(capacity)]: the constructor without [orig] clears the slots. *)
Definition newNode (capacity : Z) : M Node :=
  let cap := to_uint8 capacity in
  let* a := new_ in
  ret (InteriorNode a cap 0 (replicate (Z.to_nat cap) None)).

(** [newNode(capacity, orig)]: copies [orig->_capacity] slots and leaves the
    others unwritten. *)
Definition newNodeFrom (capacity : Z) (ocap obitmap : Z)
    (ochildren : list (option Node)) : M Node :=
  let cap := to_uint8 capacity in
  if cap <? ocap then failM UndefinedBehavior else
  let* a := new_ in
  ret (InteriorNode a cap obitmap
         (take (Z.to_nat ocap) ochildren
            ++ replicate (Z.to_nat (cap - ocap)) indeterminate)).

Definition newRoot : M Node := newNode kMaxChildren.

(** [grow()], on the node with the given fields. *)
Definition grow (a : nat) (cap bitmap : Z) (children : list (option Node))
    : M Node :=
  let* _ := assertM (cap <? kMaxChildren) AssertionFailed in
  let* replacement := newNodeFrom (cap + 1) cap bitmap children in
  let* _ := delete_ a in
  ret replacement.

(** [_addChild(bitNo, childIndex, child)] *)
Definition _addChild (this : Node) (bitNo childIndex : Z) (child : Node)
    : M Node :=
  match this with
  | LeafNode _ _ _ _ => failM UndefinedBehavior
  | InteriorNode a cap bitmap children =>
      if cap <? childIndex + 1 then failM UndefinedBehavior else
      let i := Z.to_nat childIndex in
      let moved := memmove children (S i) i (Z.to_nat (cap - childIndex - 1)) in
      ret (InteriorNode a cap (Bitmap.addBit bitmap bitNo)
             (<[i := Some child]> moved))
  end.

(** [addChild(bitNo, childIndex, child)] *)
Definition addChildAt (this : Node) (bitNo childIndex : Z) (child : Node)
    : M Node :=
  match this with
  | LeafNode _ _ _ _ => failM UndefinedBehavior
  | InteriorNode a cap bitmap children =>
      let* node := (if childCount bitmap <? cap then ret this
                    else grow a cap bitmap children) in
      _addChild node bitNo childIndex child
  end.

(** [addChild(bitNo, child)] *)
Definition addChild (this : Node) (bitNo : Z) (child : Node) : M Node :=
  match this with
  | LeafNode _ _ _ _ => failM UndefinedBehavior
  | InteriorNode _ _ bitmap _ =>
      addChildAt this bitNo (childIndexForBitNumber bitmap bitNo) child
  end.

(** [removeChild(bitNo, childIndex)] *)
Definition removeChild (this : Node) (bitNo childIndex : Z) : M Node :=
  match this with
  | LeafNode _ _ _ _ => failM UndefinedBehavior
  | InteriorNode a cap bitmap children =>
      let* _ := assertM (childIndex <? cap) AssertionFailed in
      let i := Z.to_nat childIndex in
      ret (InteriorNode a cap (Bitmap.removeBit bitmap bitNo)
             (memmove children i (S i) (Z.to_nat (cap - childIndex - 1))))
  end.

(** [itemCount()]; the counter is an [unsigned]. *)
Fixpoint itemCount (this : Node) {struct this} : result Z :=
  match this with
  | LeafNode _ _ _ _ => Fail UndefinedBehavior
  | InteriorNode _ _ bitmap children =>
      let n := childCount bitmap in
      forFirst
        (λ count slot,
           match slot with
           | None => Fail UndefinedBehavior
           | Some (LeafNode _ _ _ _) => Ok (to_uint32 (count + 1))
           | Some (InteriorNode _ ccap _ _ as child) =>
               if ccap =? 0 then Fail UndefinedBehavior else
               let+ sub := itemCount child in
               Ok (to_uint32 (count + sub))
           end)
        children (Z.to_nat n) 0
  end.

(** [childForBitNumber(bitNo)] as a read, with its assertion. *)
Definition childForBitNumber {B} (cap bitmap : Z) (children : list (option Node))
    (bitNo : Z) (k : option Node → result B) : result B :=
  let i := childIndexForBitNumber bitmap bitNo in
  if negb (i <? cap) then Fail AssertionFailed else
  slotAt k (Fail UndefinedBehavior) children (Z.to_nat i).

(** [findNearest(hash)]: the leaf as (hash, key, value), or [None] for
    [nullptr]. *)
Fixpoint findNearest (this : Node) (hash : Z) {struct this}
    : result (option (Z * Key * Val)) :=
  match this with
  | LeafNode _ _ _ _ => Fail UndefinedBehavior
  | InteriorNode _ cap bitmap children =>
      let bitNo := childBitNumber hash 0 in
      if negb (hasChild bitmap bitNo) then Ok None else
      childForBitNumber cap bitmap children bitNo
        (λ slot,
           match slot with
           | None => Fail UndefinedBehavior
           | Some (LeafNode _ h k v) => Ok (Some (h, k, v))
           | Some (InteriorNode _ ccap _ _ as child) =>
               if ccap =? 0 then Fail UndefinedBehavior else
               findNearest child (Z.shiftr hash kBitShift)
           end)
  end.

(** The capacity [2 + (level<1) + (level<3)] of the node that replaces a
    leaf found at [shift]. *)
Definition initialCapacity (shift : Z) : Z :=
  let level := shift / kBitShift in
  2 + Z.b2z (level <? 1) + Z.b2z (level <? 3).

(** [InteriorNode::insert(target, val, shift)].  The result is the returned
    pointer together with the state of the object it points to.  The
    recursion is not structural (it enters the node it has just created);
    it is bounded by the assertion on [shift], and [fuel] counts the levels
    that are left. *)
Fixpoint node_insert (fuel : nat) (this : Node) (target : Target) (val : Val)
    (shift : Z) {struct fuel} : M Node :=
  match fuel with
  | O => failM OutOfFuel
  | S fuel' =>
    match this with
    | LeafNode _ _ _ _ => failM UndefinedBehavior
    | InteriorNode a cap bitmap children =>
      let* _ := assertM (shift + kBitShift <? hashBits) HashDepthExhausted in
      let bitNo := childBitNumber (t_hash target) shift in
      if negb (hasChild bitmap bitNo) then
        (* No child -- add a leaf: *)
        let* la := new_ in
        addChild this bitNo (LeafNode la (t_hash target) (t_key target) val)
      else
        let i := childIndexForBitNumber bitmap bitNo in
        let* _ := assertM (i <? cap) AssertionFailed in
        match children !! Z.to_nat i with
        | None | Some None => failM UndefinedBehavior
        | Some (Some (LeafNode la h k v as leaf)) =>
            if matches h k (t_hash target) (t_key target) then
              ret (InteriorNode a cap bitmap
                     (<[Z.to_nat i := Some (LeafNode la h k val)]> children))
            else
              (* Nope, need to create a new interior node: *)
              let* node := newNode (initialCapacity shift) in
              let childBitNo := childBitNumber h (shift + kBitShift) in
              let* node1 := addChild node childBitNo leaf in
              (* the pointer addChild returns is dropped: [node] must still
                 be the object *)
              let* _ := assertM (bool_decide (addrOf node1 = addrOf node))
                          UndefinedBehavior in
              let* node2 := node_insert fuel' node1 target val (shift + kBitShift) in
              (* so is the one insert returns: [childRef] stays [node] *)
              let* _ := assertM (bool_decide (addrOf node2 = addrOf node))
                          UndefinedBehavior in
              ret (InteriorNode a cap bitmap
                     (<[Z.to_nat i := Some node2]> children))
        | Some (Some (InteriorNode _ ccap _ _ as child)) =>
            if ccap =? 0 then failM UndefinedBehavior else
            (* Progress down to interior node... *)
            let* node := node_insert fuel' child target val (shift + kBitShift) in
            ret (InteriorNode a cap bitmap
                   (<[Z.to_nat i := Some node]> children))
        end
    end
  end.

(** Enough fuel for every level the assertion lets through. *)
Definition insertFuel (shift : Z) : nat := S (Z.to_nat (hashBits - shift)).

(** [InteriorNode::remove(target, shift)]: the returned flag and the state
    of [this] afterwards. *)
Fixpoint node_remove (this : Node) (target : Target) (shift : Z) {struct this}
    : M (bool * Node) :=
  match this with
  | LeafNode _ _ _ _ => failM UndefinedBehavior
  | InteriorNode a cap bitmap children =>
    let* _ := assertM (shift + kBitShift <? hashBits) HashDepthExhausted in
    let bitNo := childBitNumber (t_hash target) shift in
    if negb (hasChild bitmap bitNo) then ret (false, this) else
    let childIndex := childIndexForBitNumber bitmap bitNo in
    slotAt
      (λ slot,
         match slot with
         | None => failM UndefinedBehavior
         | Some (LeafNode la h k v) =>
             (* Child is a leaf -- is it the right key? *)
             if matches h k (t_hash target) (t_key target) then
               let* this' := removeChild this bitNo childIndex in
               let* _ := delete_ la in
               ret (true, this')
             else ret (false, this)
         | Some (InteriorNode _ ccap _ _ as child) =>
             if ccap =? 0 then failM UndefinedBehavior else
             (* Recurse into child node... *)
             let* r := node_remove child target (shift + kBitShift) in
             let this1 := InteriorNode a cap bitmap
                            (<[Z.to_nat childIndex := Some r.2]> children) in
             if negb r.1 then ret (false, this1) else
             match r.2 with
             | LeafNode _ _ _ _ => failM UndefinedBehavior
             | InteriorNode na _ nbitmap _ =>
                 if Bitmap.empty nbitmap then
                   (* child node is now empty, so remove it *)
                   let* this' := removeChild this1 bitNo childIndex in
                   let* _ := delete_ na in
                   ret (true, this')
                 else ret (true, this1)
             end
         end)
      (failM UndefinedBehavior) children (Z.to_nat childIndex)
  end.

(** ** MHashTree itself *)

Record MHashTree : Type := mkTree { _root : option Node }.

Definition emptyTree : MHashTree := mkTree None.

Definition MHashTree_count (t : MHashTree) : result Z :=
  match _root t with
  | Some root => itemCount root
  | None => Ok 0
  end.

Definition MHashTree_get (t : MHashTree) (key : Key) : result Val :=
  match _root t with
  | Some root =>
      let hash := to_size_t (std_hash key) in
      let+ leaf := findNearest root hash in
      match leaf with
      | Some (h, k, v) => if matches h k hash key then Ok v else Ok defaultVal
      | None => Ok defaultVal
      end
  | None => Ok defaultVal
  end.

Definition MHashTree_insert (t : MHashTree) (key : Key) (val : Val)
    : M MHashTree :=
  let* root := (match _root t with
                | Some root => ret root
                | None => newRoot
                end) in
  let* root' := node_insert (insertFuel 0) root (targetOf key) val 0 in
  (* the returned pointer is dropped: [_root] must still be the object *)
  let* _ := assertM (bool_decide (addrOf root' = addrOf root)) UndefinedBehavior in
  ret (mkTree (Some root')).

Definition MHashTree_remove (t : MHashTree) (key : Key) : M (bool * MHashTree) :=
  match _root t with
  | None => ret (false, t)
  | Some root =>
      let* r := node_remove root (targetOf key) 0 in
      ret (r.1, mkTree (Some r.2))
  end.

(** ** What a trie holds, and the invariant of reachable tries *)

(** Concatenate [f] over the first [n] slots. *)
Definition flatFirst {A B} (f : A → list B) : list A → nat → list B :=
  fix go (a : list A) (n : nat) {struct a} : list B :=
    match a with
    | [] => []
    | c :: a' =>
        match n with
        | O => []
        | S n' => f c ++ go a' n'
        end
    end.

(** [p] on each of the first [n] slots. *)
Definition allFirst {A} (p : A → bool) : list A → nat → bool :=
  fix go (a : list A) (n : nat) {struct a} : bool :=
    match a with
    | [] => true
    | c :: a' =>
        match n with
        | O => true
        | S n' => p c && go a' n'
        end
    end.

(** The slots a node owns go with the set bits of its bitmap, in order. *)
Definition slotsOk {A} (P : Z → A → Prop) : list A → list Z → Prop :=
  fix go (a : list A) (bs : list Z) {struct a} : Prop :=
    match a with
    | [] => bs = []
    | c :: a' =>
        match bs with
        | [] => True
        | b :: bs' => P b c ∧ go a' bs'
        end
    end.

(** The numbers of the set bits, ascending. *)
Definition bitsOf (bitmap : Z) : list Z :=
  filter (λ i, Z.testbit bitmap i = true) (seqZ 0 32).

(** The (key, value) pairs of the leaves below a node, through the slots
    each node owns. *)
Fixpoint leaves (n : Node) {struct n} : list (Key * Val) :=
  match n with
  | LeafNode _ _ k v => [(k, v)]
  | InteriorNode _ _ bitmap children =>
      flatFirst (λ slot, match slot with
                         | Some c => leaves c
                         | None => []
                         end)
        children (Z.to_nat (childCount bitmap))
  end.

Definition isInterior (n : Node) : Prop :=
  match n with
  | LeafNode _ _ _ _ => False
  | InteriorNode _ _ _ _ => True
  end.

(** The invariant of a node whose slice of the hash starts at bit [shift]:
    a leaf stores the hash of its key; an interior node is above the depth
    limit, its bitmap is a 32-bit word with at most [_capacity] bits set, the
    array has [_capacity] slots, and the slot of the i-th set bit [b] holds a
    node that satisfies the invariant one level down and whose keys all have
    slice [b] at [shift]. *)
Fixpoint node_wf (shift : Z) (n : Node) {struct n} : Prop :=
  match n with
  | LeafNode _ h k _ => h = to_size_t (std_hash k)
  | InteriorNode _ cap bitmap children =>
      0 ≤ shift ∧ shift + kBitShift < hashBits ∧
      0 ≤ bitmap < 2 ^ 32 ∧ 0 < cap ≤ kMaxChildren ∧
      childCount bitmap ≤ cap ∧ length children = Z.to_nat cap ∧
      slotsOk (λ b slot,
                 match slot with
                 | None => False
                 | Some c =>
                     node_wf (shift + kBitShift) c ∧
                     ∀ k v, (k, v) ∈ leaves c →
                       childBitNumber (to_size_t (std_hash k)) shift = b
                 end)
        children (bitsOf bitmap)
  end.

(** The same, one level at a time. *)
Definition owned (bitmap : Z) (children : list (option Node))
    : list (option Node) :=
  take (Z.to_nat (childCount bitmap)) children.

Definition slotLeaves (slot : option Node) : list (Key * Val) :=
  match slot with
  | Some c => leaves c
  | None => []
  end.

Definition slotOk (shift b : Z) (slot : option Node) : Prop :=
  match slot with
  | None => False
  | Some c =>
      node_wf (shift + kBitShift) c ∧
      ∀ k v, (k, v) ∈ leaves c →
        childBitNumber (to_size_t (std_hash k)) shift = b
  end.

Definition interior_wf (shift cap bitmap : Z) (children : list (option Node))
    : Prop :=
  0 ≤ shift ∧ shift + kBitShift < hashBits ∧
  0 ≤ bitmap < 2 ^ 32 ∧ 0 < cap ≤ kMaxChildren ∧
  childCount bitmap ≤ cap ∧ length children = Z.to_nat cap ∧
  Forall2 (slotOk shift) (bitsOf bitmap) (owned bitmap children).

(** Two keys whose hashes have the same 5-bit slices at every level above
    the depth limit. *)
Definition sameSlices (k1 k2 : Key) : Prop :=
  ∀ j : nat, 5 * Z.of_nat j + kBitShift < hashBits →
    childBitNumber (to_size_t (std_hash k1)) (5 * Z.of_nat j)
    = childBitNumber (to_size_t (std_hash k2)) (5 * Z.of_nat j).

Definition tree_wf (t : MHashTree) : Prop :=
  match _root t with
  | None => True
  | Some root => node_wf 0 root ∧ isInterior root ∧ capacityOf root = kMaxChildren
  end.

(** The mapping a trie represents. *)
Definition contents (t : MHashTree) : gmap Key Val :=
  match _root t with
  | None => ∅
  | Some root => list_to_map (leaves root)
  end.

(** The operations that change a trie, and runs of them. *)
Inductive op : Type :=
| Insert (k : Key) (v : Val)
| Remove (k : Key).

Definition step (s : MHashTree * Heap) (o : op) : result (MHashTree * Heap) :=
  match o with
  | Insert k v => MHashTree_insert s.1 k v s.2
  | Remove k =>
      let+ r := MHashTree_remove s.1 k s.2 in
      Ok (r.1.2, r.2)
  end.

Fixpoint run (ops : list op) (s : MHashTree * Heap) : result (MHashTree * Heap) :=
  match ops with
  | [] => Ok s
  | o :: ops' => let+ s' := step s o in run ops' s'
  end.

(** A trie is reachable when a run of inserts and removes from the empty
    trie produces it ([get] and [count] are [const]). *)
Definition reachable (s : MHashTree * Heap) : Prop :=
  ∃ ops, run ops (emptyTree, emptyHeap) = Ok s.

(** The keys inserted and not removed since. *)
Fixpoint surviving (ops : list op) (acc : gset Key) : gset Key :=
  match ops with
  | [] => acc
  | Insert k _ :: ops' => surviving ops' (acc ∪ {[k]})
  | Remove k :: ops' => surviving ops' (acc ∖ {[k]})
  end.

(** [p capacity bitmap children] on every interior node of a trie. *)
Fixpoint everyInterior (p : Z → Z → list (option Node) → bool) (n : Node)
    {struct n} : bool :=
  match n with
  | LeafNode _ _ _ _ => true
  | InteriorNode _ cap bitmap children =>
      p cap bitmap children &&
      allFirst (λ slot, match slot with
                        | Some c => everyInterior p c
                        | None => true
                        end)
        children (Z.to_nat (childCount bitmap))
  end.

Definition everyNode (p : Z → Z → list (option Node) → bool) (t : MHashTree)
    : bool :=
  match _root t with
  | None => true
  | Some root => everyInterior p root
  end.

Definition nonNullCount (children : list (option Node)) : Z :=
  Z.of_nat (length (filter (λ slot, is_Some slot) children)).

(** The bitmap counts the non-null slots of the whole array. *)
Definition bitmapCountsNonNull (cap bitmap : Z) (children : list (option Node))
    : bool :=
  (childCount bitmap =? nonNullCount children) &&
  (childCount bitmap <=? cap) && (cap <=? 32).

(** The bitmap counts the slots the node owns, which are its first ones and
    are not null. *)
Definition bitmapCountsOwned (cap bitmap : Z) (children : list (option Node))
    : bool :=
  (childCount bitmap =?
     nonNullCount (take (Z.to_nat (childCount bitmap)) children)) &&
  (childCount bitmap <=? cap) && (cap <=? 32).

(** A node with every value replaced by [Val{}]: what is left is the
    addresses, capacities, bitmaps, slots, hashes and keys. *)
Fixpoint eraseVals (n : Node) {struct n} : Node :=
  match n with
  | LeafNode a h k _ => LeafNode a h k defaultVal
  | InteriorNode a cap bitmap children =>
      InteriorNode a cap bitmap
        ((λ slot, match slot with
                  | Some c => Some (eraseVals c)
                  | None => None
                  end) <$> children)
  end.

Definition shapeOf (t : MHashTree) : option Node :=
  match _root t with
  | None => None
  | Some root => Some (eraseVals root)
  end.

End MHashTree.

(** ** Concrete instances *)

(** Integer keys and values, each key being its own hash. *)
Definition exHash (k : Z) : Z := k.

Definition exRun (ops : list (op (Key:=Z) (Val:=Z)))
    : result (MHashTree (Key:=Z) (Val:=Z) * Heap) :=
  run exHash None ops (emptyTree, emptyHeap).

(** The state after a run, the empty one when the run aborts. *)
Definition exAfter (ops : list (op (Key:=Z) (Val:=Z)))
    : MHashTree (Key:=Z) (Val:=Z) * Heap :=
  match exRun ops with
  | Ok s => s
  | Fail _ => (emptyTree, emptyHeap)
  end.

(** Two keys with the same first slice. *)
Definition exCollidingOps : list (op (Key:=Z) (Val:=Z)) :=
  [Insert 1 10; Insert 33 11].

(** The slots of the root that holds the leaf of key [1] only. *)
Definition exRootChildren : list (option (Node (Key:=Z) (Val:=Z))) :=
  Some (LeafNode 1 1 1 10) :: replicate 31 None.

(** The trie and the heap after [exCollidingOps], and after one more insert
    of the key [33]. *)
Definition exTrie : MHashTree (Key:=Z) (Val:=Z) := (exAfter exCollidingOps).1.
Definition exHeap : Heap := (exAfter exCollidingOps).2.
Definition exTrie2 : MHashTree (Key:=Z) (Val:=Z) :=
  (exAfter (exCollidingOps ++ [Insert 33 12])).1.
Definition exHeap2 : Heap := (exAfter (exCollidingOps ++ [Insert 33 12])).2.

(** The root of [exRootChildren] after the insert of the key [33], whose
    first slice is that of the key [1]. *)
Definition exSplitRoot : Node (Key:=Z) (Val:=Z) :=
  InteriorNode 0 32 2
    (<[0%nat := Some (InteriorNode 2 4 3
                        [Some (LeafNode 1 1 1 10); Some (LeafNode 3 33 33 11);
                         None; None])]> exRootChildren).

(** Two keys that share the slices of the first four levels, and the removal
    of the first. *)
Definition exStaleOps : list (op (Key:=Z) (Val:=Z)) :=
  [Insert 0 10; Insert (2 ^ 20) 11; Remove 0].

(** The keys [0 .. n-1], inserted in order. *)
Definition manyInserts (n : nat) : list (op (Key:=Z) (Val:=Z)) :=
  (λ i, Insert (Z.of_nat i) 0) <$> seq 0 n.

(** [smallVector<int, 4>]: empty; full in the inline buffer, and after a
    [pop_back]; with a heap block of ten slots, as [setCapacity(10)] leaves
    the empty one; and full at the largest capacity, as [resize(UINT32_MAX)]
    leaves the empty one. *)
Definition exVector : smallVector (T:=Z) := newVector 4 0.

Definition exFourVector : smallVector (T:=Z) :=
  mkVector 4 4 [1; 2; 3; 4] None 0.

Definition exThreeVector : smallVector (T:=Z) :=
  mkVector 3 4 [1; 2; 3; 4] None 0.

Definition exHeapVector : smallVector (T:=Z) :=
  mkVector 0 10 (replicate 4 0) (Some (replicate 10 0)) 1.

Definition exFullVector : smallVector (T:=Z) :=
  mkVector UINT32_MAX UINT32_MAX (replicate 4 0)
    (Some (replicate (Z.to_nat UINT32_MAX) 0)) 1.

(** ** The rest of SmallVector.hh *)

Section SmallVectorRest.

Context {T : Type}.
Variable N : Z.
Variable defaultT : T.
Variable unwritten : T.

(** The elements of a vector: the first [_size] items of the array [_get]
    indexes. *)
Definition elems (sv : smallVector (T:=T)) : list T :=
  take (Z.to_nat (_size sv)) (baseOf sv).

(** [operator[](i)] *)
Definition sv_index (sv : smallVector (T:=T)) (i : Z) : result T := sv_get sv i.

(** [back()]: [get(_size - 1)], the subtraction being in [uint32_t]. *)
Definition sv_back (sv : smallVector (T:=T)) : result T :=
  sv_get sv (to_uint32 (_size sv - 1)).

(** [smallVector(size_t size)] *)
Definition newVectorSized (heapOk : bool) (size : Z) : result (smallVector (T:=T)) :=
  resize N defaultT unwritten heapOk size (newVector N unwritten).

(** [void* push_back()]: the grown vector, its new last item unconstructed. *)
Definition push_back_raw (heapOk : bool) (sv : smallVector (T:=T))
    : result (smallVector (T:=T)) :=
  let+ r := _grow N unwritten heapOk sv in
  Ok r.1.

(** [push_back] of each item of a list in turn. *)
Fixpoint push_all (heapOk : bool) (ts : list T) (sv : smallVector (T:=T))
    : result (smallVector (T:=T)) :=
  match ts with
  | [] => Ok sv
  | t :: ts' =>
      let+ sv' := push_back N unwritten heapOk t sv in
      push_all heapOk ts' sv'
  end.

End SmallVectorRest.

(** ** The rest of MHashTree.cc *)

Section MHashTreeRest.

Context {Key Val : Type} `{Countable Key}.

(** [freeChildren()]: deletes what is below a node, through the slots it
    owns, skipping null pointers. *)
Fixpoint freeChildren (this : Node (Key:=Key) (Val:=Val)) {struct this} : M unit :=
  match this with
  | LeafNode _ _ _ _ => failM UndefinedBehavior
  | InteriorNode _ _ bitmap children =>
      λ h,
        let+ h' := forFirst
                     (λ h0 slot,
                        match slot with
                        | None => Ok h0
                        | Some (LeafNode la _ _ _) =>
                            let+ r := delete_ la h0 in Ok r.2
                        | Some (InteriorNode ca ccap _ _ as child) =>
                            if ccap =? 0 then Fail UndefinedBehavior else
                            let+ r := freeChildren child h0 in
                            let+ r' := delete_ ca r.2 in
                            Ok r'.2
                        end)
                     children (Z.to_nat (childCount bitmap)) h in
        Ok (tt, h')
  end.

(** The body of [~MHashTree()].  The root itself is released by the
    destructor of the member [_root], which MHashTree.hh declares. *)
Definition MHashTree_destroy (t : MHashTree (Key:=Key) (Val:=Val)) : M unit :=
  match _root t with
  | Some root => freeChildren root
  | None => ret tt
  end.

(** The addresses of a node and of the nodes below it, through the slots
    each node owns. *)
Fixpoint addrs (n : Node (Key:=Key) (Val:=Val)) {struct n} : list nat :=
  match n with
  | LeafNode a _ _ _ => [a]
  | InteriorNode a _ bitmap children =>
      a :: flatFirst (λ slot, match slot with
                              | Some c => addrs c
                              | None => []
                              end)
             children (Z.to_nat (childCount bitmap))
  end.

Definition slotAddrs (slot : option (Node (Key:=Key) (Val:=Val))) : list nat :=
  match slot with
  | Some c => addrs c
  | None => []
  end.

Definition liveAddrs (t : MHashTree (Key:=Key) (Val:=Val)) : list nat :=
  match _root t with
  | Some root => addrs root
  | None => []
  end.

(** The largest [f] over the first [n] slots. *)
Definition maxFirst {A} (f : A → nat) : list A → nat → nat :=
  fix go (a : list A) (n : nat) {struct a} : nat :=
    match a with
    | [] => 0%nat
    | c :: a' =>
        match n with
        | O => 0%nat
        | S n' => max (f c) (go a' n')
        end
    end.

(** The number of interior nodes on the longest path from a node down to a
    leaf. *)
Fixpoint height (n : Node (Key:=Key) (Val:=Val)) {struct n} : nat :=
  match n with
  | LeafNode _ _ _ _ => 0
  | InteriorNode _ _ bitmap children =>
      S (maxFirst (λ slot, match slot with
                           | Some c => height c
                           | None => 0%nat
                           end)
           children (Z.to_nat (childCount bitmap)))
  end.

(** No interior node below the given one is empty: [remove] takes an
    interior node out of its parent as soon as its last child has gone. *)
Fixpoint pruned (n : Node (Key:=Key) (Val:=Val)) {struct n} : bool :=
  match n with
  | LeafNode _ _ _ _ => true
  | InteriorNode _ _ bitmap children =>
      allFirst (λ slot, match slot with
                        | Some (LeafNode _ _ _ _) => true
                        | Some (InteriorNode _ _ cbitmap _ as c) =>
                            negb (Bitmap.empty cbitmap) && pruned c
                        | None => true
                        end)
        children (Z.to_nat (childCount bitmap))
  end.

Definition prunedTree (t : MHashTree (Key:=Key) (Val:=Val)) : bool :=
  match _root t with
  | Some root => pruned root
  | None => true
  end.

Definition treeHeight (t : MHashTree (Key:=Key) (Val:=Val)) : nat :=
  match _root t with
  | Some root => height root
  | None => 0
  end.

(** The mapping that a run of operations leaves, as a finite map. *)
Fixpoint mapAfter (ops : list (op (Key:=Key) (Val:=Val))) (m : gmap Key Val)
    : gmap Key Val :=
  match ops with
  | [] => m
  | Insert k v :: ops' => mapAfter ops' (<[k := v]> m)
  | Remove k :: ops' => mapAfter ops' (delete k m)
  end.

End MHashTreeRest.

(** ** Runs of vector operations *)

Section SmallVectorRuns.

Context {T : Type}.
Variable N : Z.
Variable defaultT : T.
Variable unwritten : T.



End SmallVectorRuns.

(** ** Further concrete instances *)


(** The slots of a node of the second level, with capacity 4 and full: the
    keys [1], [33], [65] and [97] have the first slice 1 and the second
    slices 0 to 3. *)
Definition exFullChildren : list (option (Node (Key:=Z) (Val:=Z))) :=
  [Some (LeafNode 1 1 1 10); Some (LeafNode 3 33 33 11);
   Some (LeafNode 4 65 65 12); Some (LeafNode 5 97 97 13)].

(** Two inserts, and the removal of both keys. *)
Definition exEmptiedOps : list (op (Key:=Z) (Val:=Z)) :=
  [Insert 1 10; Insert 33 11; Remove 1; Remove 33].


(** [exFourVector] with its items in a heap block of six slots. *)
Definition exSixVector : smallVector (T:=Z) :=
  mkVector 4 6 [1; 2; 3; 4] (Some [1; 2; 3; 4; 0; 0]) 1.

(** ** Tactics of the proofs *)

(** Run the monadic plumbing of a goal. *)
Ltac run_monad :=
  cbv beta iota delta [bind rbind ret failM assertM new_ delete_].

(** Linear arithmetic that knows the constants of the trie. *)
Ltac trie_lia :=
  pose proof (eq_refl : kMaxChildren = 32);
  pose proof (eq_refl : kBitShift = 5);
  pose proof (eq_refl : hashBits = 64);
  lia.

(** * Proofs *)

(** ** The array primitives *)

Lemma slotAt_lookup {A B} (k : A → B) (oob : B) (a : list A) (i : nat) :
  slotAt k oob a i = match a !! i with Some c => k c | None => oob end.
Proof.
  revert i. induction a as [|c a IH]; intros [|i]; simpl; auto.
Qed.

Lemma flatFirst_bind {A B} (f : A → list B) (a : list A) (n : nat) :
  flatFirst f a n = take n a ≫= f.
Proof.
  revert n. induction a as [|c a IH]; intros [|n]; simpl; auto.
  by rewrite IH.
Qed.

Lemma allFirst_Forall {A} (p : A → bool) (a : list A) (n : nat) :
  allFirst p a n = true ↔ Forall (λ c, p c = true) (take n a).
Proof.
  revert n. induction a as [|c a IH]; intros [|n]; simpl.
  1-3: split; [constructor|done].
  rewrite andb_true_iff, IH, Forall_cons. done.
Qed.

Lemma slotsOk_Forall2 {A} (P : Z → A → Prop) (a : list A) (bs : list Z) :
  slotsOk P a bs ↔ Forall2 P bs (take (length bs) a).
Proof.
  revert bs. induction a as [|c a IH]; intros [|b bs]; simpl.
  - split; [constructor|done].
  - split; [done|]. inversion 1.
  - split; [constructor|done].
  - rewrite IH. split.
    + intros [??]. by constructor.
    + inversion 1; subst. done.
Qed.

Lemma forFirst_sum {A} (f : Z → A → result Z) (g : A → Z) (a : list A) :
  ∀ (n : nat) (acc : Z),
    (n ≤ length a)%nat →
    0 ≤ acc < 2 ^ 32 →
    Forall (λ c, ∀ acc', f acc' c = Ok (to_uint32 (acc' + g c))) (take n a) →
    forFirst f a n acc = Ok (to_uint32 (acc + foldr (λ c s, g c + s) 0 (take n a))).
Proof.
  induction a as [|c a IH]; intros [|n] acc Hn Hacc Hf; simpl in Hn, Hf; simpl.
  - unfold to_uint32. rewrite Z.add_0_r, Z.mod_small; [done|done].
  - lia.
  - unfold to_uint32. rewrite Z.add_0_r, Z.mod_small; [done|done].
  - apply Forall_cons in Hf as [Hc Hf]. rewrite Hc. simpl.
    clear Hc. rewrite IH; [|lia| |done].
    + f_equal. unfold to_uint32. clear.
      rewrite Z.add_mod_idemp_l by lia. f_equal. lia.
    + unfold to_uint32. apply Z.mod_pos_bound. clear. lia.
Qed.

Lemma memmove_insert_slot {A} (a : list A) (i pc cap : nat) (x : A) :
  length a = cap → (i ≤ pc)%nat → (pc < cap)%nat →
  take (S pc) (<[i := x]> (memmove a (S i) i (cap - i - 1)))
  = take i (take pc a) ++ x :: drop i (take pc a).
Proof.
  intros Hlen Hi Hpc. unfold memmove.
  assert (a = take i a ++ drop i a) as Ha by (by rewrite take_drop).
  destruct (drop i a) as [|y rest] eqn:Hd.
  { apply (f_equal length) in Hd. rewrite length_drop in Hd. simpl in Hd. lia. }
  assert (length (take i a) = i) as Hti by (rewrite length_take; lia).
  assert (length rest = (cap - i - 1)%nat) as Hrest.
  { apply (f_equal length) in Hd. rewrite length_drop in Hd. simpl in Hd. lia. }
  assert (take (S i) a = take i a ++ [y]) as ->.
  { rewrite Ha at 1. rewrite take_app_ge by lia. rewrite Hti.
    replace (S i - i)%nat with 1%nat by lia. done. }
  rewrite drop_ge by lia. rewrite app_nil_r.
  rewrite <- app_assoc. simpl.
  rewrite insert_app_r_alt by lia. rewrite Hti, Nat.sub_diag. simpl.
  rewrite take_app_ge by lia. rewrite Hti.
  replace (S pc - i)%nat with (S (pc - i)) by lia. simpl.
  assert (take pc a = take i a ++ take (pc - i) (y :: rest)) as Htp.
  { rewrite Ha at 1. rewrite take_app_ge by lia. by rewrite Hti. }
  rewrite Htp. rewrite take_app_ge by lia. rewrite Hti, Nat.sub_diag. simpl.
  rewrite take_take. rewrite (proj2 (Nat.min_l_iff _ _)) by lia.
  rewrite app_nil_r. rewrite drop_app_ge by lia. rewrite Hti, Nat.sub_diag. simpl.
  done.
Qed.

Lemma memmove_insert_length {A} (a : list A) (i cap : nat) (x : A) :
  length a = cap → (i < cap)%nat →
  length (<[i := x]> (memmove a (S i) i (cap - i - 1))) = cap.
Proof.
  intros Hlen Hi. rewrite length_insert. unfold memmove.
  rewrite !length_app, !length_take, !length_drop. lia.
Qed.

Lemma memmove_remove_slot {A} (a : list A) (i pc cap : nat) :
  length a = cap → (i < pc)%nat → (pc ≤ cap)%nat →
  take (pc - 1) (memmove a i (S i) (cap - i - 1))
  = take i (take pc a) ++ drop (S i) (take pc a).
Proof.
  intros Hlen Hi Hpc. unfold memmove.
  assert (length (take i a) = i) as Hti by (rewrite length_take; lia).
  rewrite (take_ge (drop (S i) a)) by (rewrite length_drop; lia).
  rewrite take_app_ge by lia. rewrite Hti.
  rewrite take_take. rewrite (proj2 (Nat.min_l_iff _ _)) by lia.
  f_equal.
  rewrite take_app_le by (rewrite length_drop; lia).
  rewrite take_drop_commute. f_equal. f_equal. lia.
Qed.

Lemma memmove_remove_length {A} (a : list A) (i cap : nat) :
  length a = cap → (i < cap)%nat →
  length (memmove a i (S i) (cap - i - 1)) = cap.
Proof.
  intros Hlen Hi. unfold memmove.
  rewrite !length_app, !length_take, !length_drop. lia.
Qed.

(** ** The bitmap *)

Lemma filter_ext_elem {A} (P Q : A → Prop) `{∀ x, Decision (P x)}
    `{∀ x, Decision (Q x)} (l : list A) :
  (∀ x, x ∈ l → P x ↔ Q x) → filter P l = filter Q l.
Proof.
  induction l as [|x l IH]; intros HPQ; [done|].
  rewrite !filter_cons.
  assert (P x ↔ Q x) as Hx by (apply HPQ; left).
  rewrite IH by (intros; apply HPQ; by right).
  destruct (decide (P x)), (decide (Q x)); tauto.
Qed.

Lemma filter_none {A} (P : A → Prop) `{∀ x, Decision (P x)} (l : list A) :
  (∀ x, x ∈ l → ¬ P x) → filter P l = [].
Proof.
  induction l as [|x l IH]; intros HP; [done|].
  rewrite filter_cons_False by (apply HP; left).
  apply IH. intros; apply HP; by right.
Qed.

Local Abbreviation isSet bits := (λ i : Z, Z.testbit bits i = true).

Lemma drop_S_app_length {A} (l r : list A) (x : A) :
  drop (S (length l)) (l ++ x :: r) = r.
Proof. induction l as [|y l IH]; simpl; [by rewrite drop_0|done]. Qed.

Lemma bitsOf_isSet bits : bitsOf bits = filter (isSet bits) (seqZ 0 32).
Proof. done. Qed.

Lemma popcountBelow_filter bits (n : nat) :
  Bitmap.popcountBelow n bits
  = Z.of_nat (length (filter (isSet bits) (seqZ 0 (Z.of_nat n)))).
Proof.
  induction n as [|n IH]; [done|].
  rewrite seqZ_S, filter_app, length_app. cbn [Bitmap.popcountBelow].
  rewrite IH, Z.add_0_l, filter_cons, filter_nil.
  destruct (decide (Z.testbit bits (Z.of_nat n) = true)) as [->|Hn]; simpl.
  - lia.
  - apply not_true_is_false in Hn. rewrite Hn. simpl. lia.
Qed.

Lemma bitCount_bitsOf bits :
  Bitmap.bitCount bits = Z.of_nat (length (bitsOf bits)).
Proof. unfold Bitmap.bitCount. by rewrite popcountBelow_filter. Qed.

Lemma childCount_bitsOf bits :
  Z.to_nat (Bitmap.bitCount bits) = length (bitsOf bits).
Proof. rewrite bitCount_bitsOf. lia. Qed.

Lemma elem_of_bitsOf bits b :
  b ∈ bitsOf bits ↔ 0 ≤ b < 32 ∧ Z.testbit bits b = true.
Proof.
  unfold bitsOf. rewrite list_elem_of_filter, elem_of_seqZ. intuition lia.
Qed.

Lemma NoDup_bitsOf bits : NoDup (bitsOf bits).
Proof. apply NoDup_filter, NoDup_seqZ. Qed.

Lemma bitCount_bound bits : 0 ≤ Bitmap.bitCount bits ≤ 32.
Proof.
  rewrite bitCount_bitsOf. unfold bitsOf.
  pose proof (length_filter (λ i, Z.testbit bits i = true) (seqZ 0 32)) as Hl.
  rewrite length_seqZ in Hl. lia.
Qed.

Lemma testbit_bit b i : 0 ≤ b → Z.testbit (Bitmap.bit b) i = bool_decide (i = b).
Proof.
  intros Hb. unfold Bitmap.bit. rewrite Z.shiftl_1_l, Z.pow2_bits_eqb by done.
  case_bool_decide; [apply Z.eqb_eq|apply Z.eqb_neq]; congruence.
Qed.

Lemma containsBit_testbit bits b :
  0 ≤ b → Bitmap.containsBit bits b = Z.testbit bits b.
Proof.
  intros Hb. unfold Bitmap.containsBit.
  destruct (Z.testbit bits b) eqn:Hbit.
  - apply negb_true_iff, Z.eqb_neq. intros Hz.
    apply (f_equal (λ z, Z.testbit z b)) in Hz.
    rewrite Z.land_spec, Hbit, testbit_bit, Z.bits_0 in Hz by done.
    by rewrite bool_decide_eq_true_2 in Hz.
  - apply negb_false_iff, Z.eqb_eq, Z.bits_inj'. intros i Hi.
    rewrite Z.land_spec, testbit_bit, Z.bits_0 by done.
    case_bool_decide; subst; [by rewrite Hbit|by rewrite andb_false_r].
Qed.

Lemma bit_mask_ones b : 0 ≤ b → Bitmap.bit b - 1 = Z.ones b.
Proof.
  intros Hb. unfold Bitmap.bit. rewrite Z.ones_equiv, Z.shiftl_1_l. lia.
Qed.

Lemma indexOfBit_below bits b :
  0 ≤ b ≤ 32 →
  Bitmap.indexOfBit bits b
  = Z.of_nat (length (filter (isSet bits) (seqZ 0 b))).
Proof.
  intros Hb. unfold Bitmap.indexOfBit. rewrite bitCount_bitsOf, bitsOf_isSet.
  f_equal. f_equal.
  replace 32 with (b + (32 - b)) at 1 by lia.
  rewrite seqZ_app, filter_app by lia.
  rewrite (filter_none _ (seqZ (0 + b) _)), app_nil_r.
  - apply filter_ext_elem. intros i [Hi1 Hi2]%elem_of_seqZ.
    rewrite bit_mask_ones, Z.land_spec, Z.testbit_ones_nonneg by lia.
    destruct (Z.testbit bits i); simpl; [|done].
    split; [done|]. intros _. apply Z.ltb_lt. lia.
  - intros i [Hi1 Hi2]%elem_of_seqZ.
    rewrite bit_mask_ones, Z.land_spec by lia.
    rewrite Z.ones_spec_high by lia. by rewrite andb_false_r.
Qed.

(** The set bits as those below [b], [b] itself, and those above. *)
Lemma bitsOf_split bits b :
  0 ≤ b < 32 →
  bitsOf bits
  = filter (isSet bits) (seqZ 0 b)
      ++ (if Z.testbit bits b then [b] else [])
      ++ filter (isSet bits) (seqZ (b + 1) (31 - b)).
Proof.
  intros Hb. rewrite bitsOf_isSet.
  replace 32 with (b + (1 + (31 - b))) at 1 by lia.
  rewrite seqZ_app, filter_app by lia. f_equal.
  rewrite seqZ_app, filter_app by lia. f_equal.
  rewrite Z.add_0_l. change (seqZ b 1) with [b].
  rewrite filter_cons, filter_nil.
  destruct (decide (Z.testbit bits b = true)) as [->|Hn]; [done|].
  apply not_true_is_false in Hn. by rewrite Hn.
Qed.

Lemma testbit_to_uint32 x i : 0 ≤ i < 32 → Z.testbit (to_uint32 x) i = Z.testbit x i.
Proof. intros Hi. unfold to_uint32. apply Z.mod_pow2_bits_low. lia. Qed.

Lemma to_uint32_range x : 0 ≤ to_uint32 x < 2 ^ 32.
Proof. unfold to_uint32. apply Z.mod_pos_bound. lia. Qed.

Lemma testbit_addBit bits b i :
  0 ≤ b < 32 → 0 ≤ i < 32 →
  Z.testbit (Bitmap.addBit bits b) i = Z.testbit bits i || bool_decide (i = b).
Proof.
  intros Hb Hi. unfold Bitmap.addBit.
  rewrite testbit_to_uint32, Z.lor_spec, testbit_bit by lia. done.
Qed.

Lemma testbit_removeBit bits b i :
  0 ≤ b < 32 → 0 ≤ i < 32 →
  Z.testbit (Bitmap.removeBit bits b) i
  = Z.testbit bits i && negb (bool_decide (i = b)).
Proof.
  intros Hb Hi. unfold Bitmap.removeBit.
  rewrite testbit_to_uint32, Z.land_spec, Z.lnot_spec, testbit_bit by lia. done.
Qed.

Lemma bitsOf_index bits b :
  0 ≤ b < 32 →
  Z.to_nat (Bitmap.indexOfBit bits b)
  = length (filter (isSet bits) (seqZ 0 b)).
Proof. intros Hb. rewrite indexOfBit_below by lia. lia. Qed.

Lemma bitsOf_lookup bits b :
  0 ≤ b < 32 → Z.testbit bits b = true →
  bitsOf bits !! Z.to_nat (Bitmap.indexOfBit bits b) = Some b.
Proof.
  intros Hb Hbit. rewrite (bitsOf_split bits b), Hbit, bitsOf_index by done.
  rewrite lookup_app_r by lia. by rewrite Nat.sub_diag.
Qed.

Lemma bitsOf_addBit bits b :
  0 ≤ b < 32 → Z.testbit bits b = false →
  let i := Z.to_nat (Bitmap.indexOfBit bits b) in
  bitsOf (Bitmap.addBit bits b)
  = take i (bitsOf bits) ++ b :: drop i (bitsOf bits).
Proof.
  intros Hb Hbit i. subst i.
  rewrite (bitsOf_split (Bitmap.addBit bits b) b), (bitsOf_split bits b) by done.
  rewrite Hbit, testbit_addBit, bool_decide_eq_true_2, orb_true_r by done.
  rewrite bitsOf_index by done. simpl.
  rewrite take_app_length, drop_app_length.
  f_equal; [|f_equal]; apply filter_ext_elem; intros i [??]%elem_of_seqZ;
    rewrite testbit_addBit by lia;
    rewrite bool_decide_eq_false_2 by lia; by rewrite orb_false_r.
Qed.

Lemma bitsOf_removeBit bits b :
  0 ≤ b < 32 → Z.testbit bits b = true →
  let i := Z.to_nat (Bitmap.indexOfBit bits b) in
  bitsOf (Bitmap.removeBit bits b)
  = take i (bitsOf bits) ++ drop (S i) (bitsOf bits).
Proof.
  intros Hb Hbit i. subst i.
  rewrite (bitsOf_split (Bitmap.removeBit bits b) b), (bitsOf_split bits b) by done.
  rewrite Hbit, testbit_removeBit, Hbit, bool_decide_eq_true_2 by done.
  rewrite bitsOf_index by done. simpl.
  rewrite take_app_length, drop_S_app_length.
  f_equal; apply filter_ext_elem; intros i [??]%elem_of_seqZ;
    rewrite testbit_removeBit by lia;
    rewrite bool_decide_eq_false_2 by lia; by rewrite andb_true_r.
Qed.

Lemma bitsOf_empty bits : Bitmap.empty bits = true → bitsOf bits = [].
Proof.
  intros ->%Z.eqb_eq. apply filter_none. intros i _.
  by rewrite Z.bits_0.
Qed.

Lemma bitsOf_zero : bitsOf 0 = [].
Proof. by apply bitsOf_empty. Qed.

Lemma addBit_range bits b : 0 ≤ Bitmap.addBit bits b < 2 ^ 32.
Proof. apply to_uint32_range. Qed.

Lemma removeBit_range bits b : 0 ≤ Bitmap.removeBit bits b < 2 ^ 32.
Proof. apply to_uint32_range. Qed.

(** ** The monads *)

Lemma bind_Ok {A B} (m : M A) (k : A → M B) h a h' :
  m h = Ok (a, h') → bind m k h = k a h'.
Proof. unfold bind. by intros ->. Qed.

Lemma bind_Fail {A B} (m : M A) (k : A → M B) h f :
  m h = Fail f → bind m k h = Fail f.
Proof. unfold bind. by intros ->. Qed.

Lemma bind_ret {A B} (a : A) (k : A → M B) h : bind (ret a) k h = k a h.
Proof. done. Qed.

Lemma bind_new {B} (k : nat → M B) h :
  bind new_ k h = k (allocated h) (mkHeap (S (allocated h)) (freed h)).
Proof. done. Qed.

Lemma bind_delete {B} (k : unit → M B) p h :
  bind (delete_ p) k h = k tt (mkHeap (allocated h) (p :: freed h)).
Proof. done. Qed.

Lemma bind_assert_true {B} (k : unit → M B) f h :
  bind (assertM true f) k h = k tt h.
Proof. done. Qed.

Lemma bind_assert_false {B} (k : unit → M B) f h :
  bind (assertM false f) k h = Fail f.
Proof. done. Qed.

#[local] Opaque Bitmap.bitCount Bitmap.indexOfBit Bitmap.containsBit.

(** ** Nodes *)

Section MHashTreeProofs.

Context {Key Val : Type} `{Countable Key}.
Variable std_hash : Key → Z.
Variable defaultVal : Val.
Variable indeterminate : option (Node (Key:=Key) (Val:=Val)).

Local Abbreviation NodeT := (Node (Key:=Key) (Val:=Val)).
Local Abbreviation hashOf k := (to_size_t (std_hash k)).

(** Induction on a node with the hypothesis on every slot. *)
Lemma Node_slots_ind (P : NodeT → Prop) :
  (∀ a h k v, P (LeafNode a h k v)) →
  (∀ a cap bitmap children,
     Forall (λ slot, match slot with Some c => P c | None => True end) children →
     P (InteriorNode a cap bitmap children)) →
  ∀ n, P n.
Proof.
  intros Hleaf Hint.
  exact (fix IH (n : NodeT) : P n :=
    match n with
    | LeafNode a h k v => Hleaf a h k v
    | InteriorNode a cap bitmap children =>
        Hint a cap bitmap children
          ((fix go (cs : list (option NodeT))
              : Forall (λ slot, match slot with Some c => P c | None => True end) cs :=
              match cs with
              | [] => List.Forall_nil _
              | slot :: cs' =>
                  @List.Forall_cons _ (λ slot, match slot with Some c => P c | None => True end) slot cs'
                    (match slot
                           return match slot with Some c => P c | None => True end
                     with
                     | Some c => IH c
                     | None => I
                     end)
                    (go cs')
              end) children)
    end).
Qed.

Lemma leaves_leaf a h (k : Key) (v : Val) : leaves (LeafNode a h k v) = [(k, v)].
Proof. done. Qed.

Lemma leaves_interior a cap bitmap (children : list (option NodeT)) :
  leaves (InteriorNode a cap bitmap children)
  = owned bitmap children ≫= slotLeaves.
Proof. cbn [leaves]. rewrite flatFirst_bind. unfold owned, slotLeaves. reflexivity. Qed.

Lemma owned_length_bits bitmap (children : list (option NodeT)) :
  owned bitmap children = take (length (bitsOf bitmap)) children.
Proof. unfold owned, childCount. by rewrite childCount_bitsOf. Qed.

Lemma node_wf_interior shift a cap bitmap (children : list (option NodeT)) :
  node_wf std_hash shift (InteriorNode a cap bitmap children)
  ↔ interior_wf std_hash shift cap bitmap children.
Proof.
  cbn [node_wf]. unfold interior_wf.
  rewrite slotsOk_Forall2, <- owned_length_bits. unfold slotOk. reflexivity.
Qed.

Lemma interior_wf_of_node shift a cap bitmap (children : list (option NodeT)) :
  node_wf std_hash shift (InteriorNode a cap bitmap children) →
  interior_wf std_hash shift cap bitmap children.
Proof. apply node_wf_interior. Qed.

Lemma node_wf_of_interior shift a cap bitmap (children : list (option NodeT)) :
  interior_wf std_hash shift cap bitmap children →
  node_wf std_hash shift (InteriorNode a cap bitmap children).
Proof. apply node_wf_interior. Qed.

End MHashTreeProofs.

#[local] Arguments leaves : simpl never.

Section MHashTreeStructure.

Context {Key Val : Type} `{Countable Key}.
Variable std_hash : Key → Z.

Local Abbreviation NodeT := (Node (Key:=Key) (Val:=Val)).
Local Abbreviation hashOf k := (to_size_t (std_hash k)).

Lemma childBitNumber_range h s : 0 ≤ childBitNumber h s < 32.
Proof.
  unfold childBitNumber. change (kMaxChildren - 1) with (Z.ones 5).
  rewrite Z.land_ones by lia. apply Z.mod_pos_bound. lia.
Qed.

Lemma childBitNumber_shiftr h s :
  0 ≤ s → childBitNumber (Z.shiftr h s) 0 = childBitNumber h s.
Proof. intros Hs. unfold childBitNumber. by rewrite Z.shiftr_0_r. Qed.

Lemma hasChild_testbit bitmap b : 0 ≤ b → hasChild bitmap b = Z.testbit bitmap b.
Proof. apply containsBit_testbit. Qed.

Lemma owned_length bitmap (children : list (option NodeT)) :
  childCount bitmap ≤ Z.of_nat (length children) →
  length (owned bitmap children) = length (bitsOf bitmap).
Proof.
  intros Hle. rewrite owned_length_bits, length_take.
  unfold childCount in Hle. rewrite bitCount_bitsOf in Hle. lia.
Qed.

Lemma owned_lookup bitmap (children : list (option NodeT)) j slot :
  owned bitmap children !! j = Some slot → children !! j = Some slot.
Proof. unfold owned. by intros [? _]%lookup_take_Some. Qed.

(** What the invariant says of the slot of a set bit. *)
Lemma interior_wf_slot shift cap bitmap (children : list (option NodeT)) j b :
  interior_wf std_hash shift cap bitmap children →
  bitsOf bitmap !! j = Some b →
  ∃ c, owned bitmap children !! j = Some (Some c) ∧
       children !! j = Some (Some c) ∧
       node_wf std_hash (shift + kBitShift) c ∧
       ∀ k v, (k, v) ∈ leaves c → childBitNumber (hashOf k) shift = b.
Proof.
  intros (_ & _ & _ & _ & _ & _ & Hslots) Hb.
  destruct (Forall2_lookup_l _ _ _ _ _ Hslots Hb) as (slot & Hslot & Hok).
  destruct slot as [c|]; [|done]. destruct Hok as [Hwf Hsl].
  exists c. split_and!; [done|by eapply owned_lookup|done|done].
Qed.

Lemma interior_wf_child shift cap bitmap (children : list (option NodeT)) b :
  interior_wf std_hash shift cap bitmap children →
  0 ≤ b < 32 → Z.testbit bitmap b = true →
  let i := Z.to_nat (childIndexForBitNumber bitmap b) in
  bitsOf bitmap !! i = Some b ∧
  childIndexForBitNumber bitmap b < cap ∧
  ∃ c, owned bitmap children !! i = Some (Some c) ∧
       children !! i = Some (Some c) ∧
       node_wf std_hash (shift + kBitShift) c ∧
       ∀ k v, (k, v) ∈ leaves c → childBitNumber (hashOf k) shift = b.
Proof.
  intros Hwf Hb Hbit i.
  assert (bitsOf bitmap !! i = Some b) as Hi by by apply bitsOf_lookup.
  split; [done|]. split.
  - destruct Hwf as (_ & _ & _ & _ & Hcnt & _ & _).
    apply lookup_lt_Some in Hi. unfold childCount in Hcnt.
    rewrite bitCount_bitsOf in Hcnt.
    unfold childIndexForBitNumber.
    rewrite indexOfBit_below by lia.
    subst i. rewrite bitsOf_index in Hi by done. lia.
  - by eapply interior_wf_slot.
Qed.

Lemma leaves_split a cap bitmap (children : list (option NodeT)) i slot :
  owned bitmap children !! i = Some slot →
  leaves (InteriorNode a cap bitmap children)
  = (take i (owned bitmap children) ≫= slotLeaves)
      ++ slotLeaves slot
      ++ (drop (S i) (owned bitmap children) ≫= slotLeaves).
Proof.
  intros Hi. rewrite leaves_interior.
  rewrite <- (take_drop_middle _ _ _ Hi) at 1.
  by rewrite bind_app, bind_cons.
Qed.

Lemma leaves_split_at a cap bitmap (children : list (option NodeT)) i :
  leaves (InteriorNode a cap bitmap children)
  = (take i (owned bitmap children) ≫= slotLeaves)
      ++ (drop i (owned bitmap children) ≫= slotLeaves).
Proof.
  rewrite leaves_interior.
  rewrite <- (take_drop i (owned bitmap children)) at 1.
  by rewrite bind_app.
Qed.

(** A key of the trie is below the slot its slice selects. *)
Lemma leaves_locate shift a cap bitmap (children : list (option NodeT)) k v :
  interior_wf std_hash shift cap bitmap children →
  (k, v) ∈ leaves (InteriorNode a cap bitmap children) →
  let b := childBitNumber (hashOf k) shift in
  Z.testbit bitmap b = true ∧
  ∃ c, owned bitmap children !! Z.to_nat (childIndexForBitNumber bitmap b)
         = Some (Some c) ∧
       (k, v) ∈ leaves c.
Proof.
  intros Hwf Hin b. rewrite leaves_interior in Hin.
  apply list_elem_of_bind in Hin as (slot & Hkv & Hslot).
  apply list_elem_of_lookup in Hslot as [j Hj].
  assert (is_Some (bitsOf bitmap !! j)) as [b' Hb'].
  { apply lookup_lt_is_Some. apply lookup_lt_Some in Hj.
    destruct Hwf as (_ & _ & _ & _ & _ & _ & Hslots).
    by rewrite (Forall2_length _ _ _ Hslots). }
  destruct (interior_wf_slot _ _ _ _ _ _ Hwf Hb') as (c & Hc & _ & _ & Hsl).
  rewrite Hj in Hc. injection Hc as ->. simpl in Hkv.
  assert (b' = b) as -> by (symmetry; by eapply Hsl).
  assert (b ∈ bitsOf bitmap) as [Hb Hbit]%elem_of_bitsOf
    by (apply list_elem_of_lookup; eauto).
  split; [done|]. exists c. split; [|done].
  pose proof (bitsOf_lookup bitmap b Hb Hbit) as Hidx.
  unfold childIndexForBitNumber.
  rewrite (NoDup_lookup _ _ _ _ (NoDup_bitsOf bitmap) Hidx Hb'). done.
Qed.

Lemma bind_slotLeaves_NoDup shift (P : NodeT → Prop) bs (slots : list (option NodeT)) :
  (∀ c, P c → ∀ s, node_wf std_hash s c → NoDup (leaves c).*1) →
  NoDup bs →
  Forall2 (slotOk std_hash shift) bs slots →
  Forall (λ slot, match slot with Some c => P c | None => True end) slots →
  NoDup (slots ≫= slotLeaves).*1.
Proof.
  intros HP Hnd Hok. induction Hok as [|b slot bs slots Hslot Hok IH];
    intros HPs; [constructor|].
  apply NoDup_cons in Hnd as [Hb Hnd].
  apply Forall_cons in HPs as [HPslot HPs].
  rewrite bind_cons, fmap_app. apply NoDup_app.
  destruct slot as [c|]; [|done]. destruct Hslot as [Hwf Hsl]. simpl.
  split_and!; [by eapply HP| |by apply IH].
  intros k [[k' v] [-> Hkv]]%list_elem_of_fmap [[k'' v'] [Heq Hkv']]%list_elem_of_fmap.
  simpl in *. subst k''.
  apply list_elem_of_bind in Hkv' as (slot' & Hkv' & Hslot').
  apply list_elem_of_lookup in Hslot' as [j Hj].
  destruct (Forall2_lookup_r _ _ _ _ _ Hok Hj) as (b' & Hb' & Hok').
  destruct slot' as [c'|]; [|done]. destruct Hok' as [_ Hsl'].
  apply Hb. rewrite <- (Hsl _ _ Hkv), (Hsl' _ _ Hkv').
  apply list_elem_of_lookup. eauto.
Qed.

(** The keys of a trie are distinct. *)
Lemma node_wf_NoDup (n : NodeT) :
  ∀ shift, node_wf std_hash shift n → NoDup (leaves n).*1.
Proof.
  induction n as [a h k v|a cap bitmap children IH] using Node_slots_ind;
    intros shift Hwf.
  - simpl. apply NoDup_singleton.
  - apply node_wf_interior in Hwf. rewrite leaves_interior.
    destruct Hwf as (_ & _ & _ & _ & _ & _ & Hslots).
    eapply (bind_slotLeaves_NoDup shift (λ c, ∀ s, node_wf std_hash s c → NoDup (leaves c).*1));
      [auto|apply NoDup_bitsOf|done|].
    unfold owned. by apply Forall_take.
Qed.

Lemma node_wf_hash_range (k : Key) : 0 ≤ hashOf k < 2 ^ 64.
Proof. unfold to_size_t. apply Z.mod_pos_bound. lia. Qed.

End MHashTreeStructure.

Section MHashTreeReads.

Context {Key Val : Type} `{Countable Key}.
Variable std_hash : Key → Z.

Local Abbreviation NodeT := (Node (Key:=Key) (Val:=Val)).
Local Abbreviation hashOf k := (to_size_t (std_hash k)).

Lemma length_bind_foldr {A B} (f : A → list B) (l : list A) :
  foldr (λ c s, Z.of_nat (length (f c)) + s) 0 l = Z.of_nat (length (l ≫= f)).
Proof.
  induction l as [|c l IH]; [done|].
  rewrite bind_cons, length_app. simpl. rewrite IH. lia.
Qed.

Lemma interior_wf_capacity shift cap bitmap (children : list (option NodeT)) :
  interior_wf std_hash shift cap bitmap children → (cap =? 0) = false.
Proof. intros (_ & _ & _ & [? _] & _). apply Z.eqb_neq. lia. Qed.

(** [itemCount] counts the leaves, modulo the width of [unsigned]. *)
Lemma itemCount_spec (n : NodeT) :
  ∀ shift, node_wf std_hash shift n → isInterior n →
    itemCount n = Ok (to_uint32 (Z.of_nat (length (leaves n)))).
Proof.
  induction n as [a h k v|a cap bitmap children IH] using Node_slots_ind;
    intros shift Hwf Hint; [done|].
  apply node_wf_interior in Hwf. rewrite leaves_interior.
  cbn [itemCount].
  rewrite (forFirst_sum _ (λ slot, Z.of_nat (length (slotLeaves slot)))).
  - rewrite length_bind_foldr. unfold owned. by rewrite Z.add_0_l.
  - destruct Hwf as (_ & _ & _ & _ & Hcnt & Hlen & _). lia.
  - lia.
  - apply Forall_lookup. intros j slot Hj acc.
    assert (is_Some (bitsOf bitmap !! j)) as [b Hb].
    { apply lookup_lt_is_Some. apply lookup_lt_Some in Hj.
      destruct Hwf as (_ & _ & _ & _ & _ & _ & Hslots).
      rewrite (Forall2_length _ _ _ Hslots). done. }
    destruct (interior_wf_slot _ _ _ _ _ _ _ Hwf Hb) as (c & Hc & Hc' & Hwfc & _).
    change (take (Z.to_nat (childCount bitmap)) children) with (owned bitmap children) in Hj.
    rewrite Hj in Hc. injection Hc as ->.
    rewrite Forall_lookup in IH. specialize (IH _ _ Hc'). simpl in IH.
    destruct c as [la lh lk lv|ca ccap cbitmap cchildren]; [done|].
    pose proof Hwfc as Hwfc'. apply node_wf_interior in Hwfc'.
    rewrite (interior_wf_capacity _ _ _ _ Hwfc').
    rewrite (IH _ Hwfc I). cbn [rbind slotLeaves].
    f_equal. unfold to_uint32. by rewrite Zplus_mod_idemp_r.
Qed.

(** [findNearest] returns a leaf of the trie, and the leaf of [hash] when
    the trie has one. *)
Lemma findNearest_spec (n : NodeT) :
  ∀ shift hash, node_wf std_hash shift n → isInterior n →
    ∃ r, findNearest n (Z.shiftr hash shift) = Ok r ∧
         (∀ h k v, r = Some (h, k, v) → h = hashOf k ∧ (k, v) ∈ leaves n) ∧
         (∀ k v, (k, v) ∈ leaves n → hashOf k = hash → r = Some (hash, k, v)).
Proof.
  induction n as [a h k v|a cap bitmap children IH] using Node_slots_ind;
    intros shift hash Hwf Hint; [done|].
  apply node_wf_interior in Hwf. cbn [findNearest].
  pose proof Hwf as (Hs & _).
  rewrite childBitNumber_shiftr by done.
  pose proof (childBitNumber_range hash shift) as Hb.
  set (b := childBitNumber hash shift) in *.
  rewrite hasChild_testbit by lia.
  destruct (Z.testbit bitmap b) eqn:Hbit; simpl.
  - destruct (interior_wf_child _ _ _ _ _ b Hwf Hb Hbit)
      as (Hbi & Hlt & c & Hc & Hc' & Hwfc & Hsl).
    unfold childForBitNumber. rewrite (proj2 (Z.ltb_lt _ _) Hlt). simpl.
    rewrite slotAt_lookup, Hc'.
    rewrite Forall_lookup in IH. specialize (IH _ _ Hc'). simpl in IH.
    destruct c as [la lh lk lv|ca ccap cbitmap cchildren].
    + exists (Some (lh, lk, lv)). split; [done|]. simpl in Hwfc. split.
      * intros h k v [= <- <- <-]. split; [done|].
        rewrite (leaves_split a cap _ _ _ _ Hc). cbn [slotLeaves leaves].
        rewrite !elem_of_app. right; left. by left.
      * intros k v Hkv Hhash.
        destruct (leaves_locate _ _ _ _ _ _ k v Hwf Hkv) as (_ & c & Hc2 & Hkv2).
        rewrite Hhash in Hc2. fold b in Hc2. rewrite Hc in Hc2.
        injection Hc2 as <-. cbn [leaves] in Hkv2. apply list_elem_of_singleton in Hkv2.
        injection Hkv2 as -> ->. by rewrite Hwfc, Hhash.
    + pose proof Hwfc as Hwfc'. apply node_wf_interior in Hwfc'.
      rewrite (interior_wf_capacity _ _ _ _ Hwfc').
      rewrite Z.shiftr_shiftr by done.
      destruct (IH (shift + kBitShift) hash Hwfc I) as (r & Hr & Hr1 & Hr2).
      exists r. split; [done|]. split.
      * intros h k v Heq. destruct (Hr1 _ _ _ Heq) as [Hh Hkv]. split; [done|].
        rewrite (leaves_split a cap _ _ _ _ Hc). simpl.
        rewrite !elem_of_app. right; by left.
      * intros k v Hkv Hhash.
        destruct (leaves_locate _ _ _ _ _ _ k v Hwf Hkv) as (_ & c & Hc2 & Hkv2).
        rewrite Hhash in Hc2. fold b in Hc2. rewrite Hc in Hc2.
        injection Hc2 as <-. by apply Hr2.
  - exists None. split; [done|]. split; [done|].
    intros k v Hkv Hhash.
    destruct (leaves_locate _ _ _ _ _ _ k v Hwf Hkv) as (Hbit' & _).
    rewrite Hhash in Hbit'. fold b in Hbit'. congruence.
Qed.

End MHashTreeReads.

Section MHashTreeSlots.

Context {Key Val : Type} `{Countable Key}.
Variable std_hash : Key → Z.
Variable indeterminate : option (Node (Key:=Key) (Val:=Val)).

Local Abbreviation NodeT := (Node (Key:=Key) (Val:=Val)).
Local Abbreviation hashOf k := (to_size_t (std_hash k)).

Lemma childCount_unset_bit bitmap b :
  0 ≤ b < 32 → Z.testbit bitmap b = false → childCount bitmap < 32.
Proof.
  intros Hb Hbit. unfold childCount.
  rewrite bitCount_bitsOf, (bitsOf_split bitmap b), Hbit by done.
  rewrite !length_app. simpl.
  pose proof (length_filter (λ i, Z.testbit bitmap i = true) (seqZ 0 b)) as H1.
  pose proof (length_filter (λ i, Z.testbit bitmap i = true) (seqZ (b + 1) (31 - b))) as H2.
  rewrite length_seqZ in H1, H2. lia.
Qed.

Lemma index_le_count bitmap b :
  0 ≤ b < 32 → 0 ≤ childIndexForBitNumber bitmap b ≤ childCount bitmap.
Proof.
  intros Hb. unfold childIndexForBitNumber, childCount.
  rewrite indexOfBit_below, bitCount_bitsOf, (bitsOf_split bitmap b) by lia.
  rewrite !length_app. lia.
Qed.

(** Storing into a slot the node owns. *)
Lemma interior_wf_update shift cap bitmap (children : list (option NodeT)) i b c' :
  interior_wf std_hash shift cap bitmap children →
  bitsOf bitmap !! i = Some b →
  slotOk std_hash shift b (Some c') →
  interior_wf std_hash shift cap bitmap (<[i := Some c']> children) ∧
  owned bitmap (<[i := Some c']> children)
  = <[i := Some c']> (owned bitmap children).
Proof.
  intros (Hs1 & Hs2 & Hbm & Hcap & Hcnt & Hlen & Hslots) Hb Hok.
  assert (i < Z.to_nat (childCount bitmap))%nat as Hi.
  { apply lookup_lt_Some in Hb. unfold childCount. by rewrite childCount_bitsOf. }
  assert (owned bitmap (<[i := Some c']> children)
          = <[i := Some c']> (owned bitmap children)) as Hown.
  { unfold owned. by rewrite take_insert_lt. }
  split; [|done]. unfold interior_wf. rewrite length_insert, Hown.
  split_and!; try done; try trie_lia.
  rewrite <- (list_insert_id _ _ _ Hb). by apply Forall2_insert.
Qed.

Lemma leaves_update a cap bitmap (children : list (option NodeT)) i slot c' :
  owned bitmap children !! i = Some slot →
  leaves (InteriorNode a cap bitmap (<[i := Some c']> children))
  = (take i (owned bitmap children) ≫= slotLeaves)
      ++ leaves c'
      ++ (drop (S i) (owned bitmap children) ≫= slotLeaves).
Proof.
  intros Hi.
  assert (i < Z.to_nat (childCount bitmap))%nat as Hlt.
  { apply lookup_lt_Some in Hi. unfold owned in Hi.
    rewrite length_take in Hi. lia. }
  assert (owned bitmap (<[i := Some c']> children)
          = <[i := Some c']> (owned bitmap children)) as Hown.
  { unfold owned. by rewrite take_insert_lt. }
  rewrite (leaves_split _ _ _ _ i (Some c')).
  - rewrite Hown, take_insert_ge, drop_insert_lt by lia. done.
  - rewrite Hown. apply list_lookup_insert_eq. by eapply lookup_lt_Some.
Qed.

(** [_addChild] on a node with a free slot. *)
Lemma _addChild_spec shift a cap bitmap (children : list (option NodeT)) b child h :
  interior_wf std_hash shift cap bitmap children →
  0 ≤ b < 32 → Z.testbit bitmap b = false →
  childCount bitmap < cap →
  slotOk std_hash shift b (Some child) →
  let i := Z.to_nat (childIndexForBitNumber bitmap b) in
  ∃ children',
    _addChild (InteriorNode a cap bitmap children) b
      (childIndexForBitNumber bitmap b) child h
    = Ok (InteriorNode a cap (Bitmap.addBit bitmap b) children', h) ∧
    interior_wf std_hash shift cap (Bitmap.addBit bitmap b) children' ∧
    owned (Bitmap.addBit bitmap b) children'
    = take i (owned bitmap children) ++ Some child :: drop i (owned bitmap children).
Proof.
  intros (Hs1 & Hs2 & Hbm & Hcap & Hcnt & Hlen & Hslots) Hb Hbit Hfree Hok i.
  pose proof (index_le_count bitmap b Hb) as Hidx.
  pose proof (bitsOf_addBit bitmap b Hb Hbit) as Hbits. cbv zeta in Hbits.
  fold (childIndexForBitNumber bitmap b) in Hbits. fold i in Hbits.
  assert (Z.to_nat (childCount bitmap) = length (bitsOf bitmap)) as Hpc
    by apply childCount_bitsOf.
  assert (i ≤ length (bitsOf bitmap))%nat as Hi by lia.
  assert (length (bitsOf (Bitmap.addBit bitmap b)) = S (length (bitsOf bitmap)))
    as Hlen'.
  { rewrite Hbits, length_app. simpl. rewrite length_take, length_drop. lia. }
  assert (Z.to_nat (childCount (Bitmap.addBit bitmap b)) = S (length (bitsOf bitmap)))
    as Hpc' by (unfold childCount; by rewrite childCount_bitsOf).
  eexists. unfold _addChild.
  rewrite (proj2 (Z.ltb_ge _ _)) by lia.
  split; [reflexivity|].
  replace (Z.to_nat (cap - childIndexForBitNumber bitmap b - 1))
    with (length children - i - 1)%nat by lia.
  fold i.
  assert (owned (Bitmap.addBit bitmap b)
            (<[i:=Some child]> (memmove children (S i) i (length children - i - 1)))
          = take i (owned bitmap children)
              ++ Some child :: drop i (owned bitmap children)) as Hown.
  { unfold owned. rewrite Hpc', Hpc. apply memmove_insert_slot; [done|lia|lia]. }
  split; [|done].
  unfold interior_wf. rewrite Hown, memmove_insert_length by (done || lia).
  split_and!; try done; try trie_lia; try apply addBit_range.
  - rewrite Hbits. apply Forall2_app; [by apply Forall2_take|].
    constructor; [done|by apply Forall2_drop].
Qed.

(** [addChild]: the node grows by one slot when it is full. *)
Lemma addChild_spec shift a cap bitmap (children : list (option NodeT)) b child h :
  interior_wf std_hash shift cap bitmap children →
  0 ≤ b < 32 → Z.testbit bitmap b = false →
  slotOk std_hash shift b (Some child) →
  let i := Z.to_nat (childIndexForBitNumber bitmap b) in
  ∃ a' cap' children' h',
    addChild indeterminate (InteriorNode a cap bitmap children) b child h
    = Ok (InteriorNode a' cap' (Bitmap.addBit bitmap b) children', h') ∧
    interior_wf std_hash shift cap' (Bitmap.addBit bitmap b) children' ∧
    owned (Bitmap.addBit bitmap b) children'
    = take i (owned bitmap children) ++ Some child :: drop i (owned bitmap children) ∧
    (childCount bitmap < cap → a' = a ∧ cap' = cap ∧ h' = h).
Proof.
  intros Hwf Hb Hbit Hok i.
  pose proof (childCount_unset_bit bitmap b Hb Hbit) as Hlt32.
  unfold addChild, addChildAt.
  destruct (childCount bitmap <? cap) eqn:Hfree.
  - apply Z.ltb_lt in Hfree. rewrite bind_ret.
    destruct (_addChild_spec shift a cap bitmap children b child h Hwf Hb Hbit Hfree Hok)
      as (children' & Hrun & Hwf' & Hown).
    exists a, cap, children', h. split_and!; done.
  - apply Z.ltb_ge in Hfree.
    pose proof Hwf as (Hs1 & Hs2 & Hbm & Hcap & Hcnt & Hlen & Hslots).
    assert (cap = childCount bitmap) as Hfull by lia.
    unfold grow. rewrite (proj2 (Z.ltb_lt cap kMaxChildren)) by trie_lia.
    unfold newNodeFrom.
    assert (to_uint8 (cap + 1) = cap + 1) as Hu8.
    { unfold to_uint8. apply Z.mod_small. trie_lia. }
    rewrite Hu8, (proj2 (Z.ltb_ge (cap + 1) cap)) by lia.
    run_monad. cbn [allocated freed].
    replace (cap + 1 - cap) with 1 by lia.
    rewrite take_ge by lia.
    assert (interior_wf std_hash shift (cap + 1) bitmap
              (children ++ replicate (Z.to_nat 1) indeterminate)) as Hwf1.
    { unfold interior_wf. split_and!; try done; try trie_lia.
      - rewrite length_app. simpl. lia.
      - unfold owned. rewrite take_app_le by lia. done. }
    assert (childCount bitmap < cap + 1) as Hfree1 by lia.
    destruct (_addChild_spec shift (allocated h) (cap + 1) bitmap _ b child
                (mkHeap (S (allocated h)) (a :: freed h))
                Hwf1 Hb Hbit Hfree1 Hok)
      as (children' & Hrun & Hwf' & Hown).
    eexists _, _, children', _. split_and!; [apply Hrun|done| |lia].
    rewrite Hown. unfold owned. rewrite take_app_le by lia. done.
Qed.

(** [removeChild] of the slot of a set bit. *)
Lemma removeChild_spec shift a cap bitmap (children : list (option NodeT)) b h :
  interior_wf std_hash shift cap bitmap children →
  0 ≤ b < 32 → Z.testbit bitmap b = true →
  let i := Z.to_nat (childIndexForBitNumber bitmap b) in
  ∃ children',
    removeChild (InteriorNode a cap bitmap children) b
      (childIndexForBitNumber bitmap b) h
    = Ok (InteriorNode a cap (Bitmap.removeBit bitmap b) children', h) ∧
    interior_wf std_hash shift cap (Bitmap.removeBit bitmap b) children' ∧
    owned (Bitmap.removeBit bitmap b) children'
    = take i (owned bitmap children) ++ drop (S i) (owned bitmap children).
Proof.
  intros Hwf Hb Hbit i.
  destruct (interior_wf_child _ _ _ _ _ b Hwf Hb Hbit)
    as (Hbi & Hlt & _).
  destruct Hwf as (Hs1 & Hs2 & Hbm & Hcap & Hcnt & Hlen & Hslots).
  pose proof (index_le_count bitmap b Hb) as Hidx.
  pose proof (bitsOf_removeBit bitmap b Hb Hbit) as Hbits. cbv zeta in Hbits.
  fold (childIndexForBitNumber bitmap b) in Hbits. fold i in Hbits, Hbi.
  assert (Z.to_nat (childCount bitmap) = length (bitsOf bitmap)) as Hpc
    by apply childCount_bitsOf.
  assert (i < length (bitsOf bitmap))%nat as Hi by by eapply lookup_lt_Some.
  assert (length (bitsOf (Bitmap.removeBit bitmap b)) = (length (bitsOf bitmap) - 1)%nat)
    as Hlen'.
  { rewrite Hbits, length_app. rewrite length_take, length_drop. lia. }
  assert (Z.to_nat (childCount (Bitmap.removeBit bitmap b))
          = (length (bitsOf bitmap) - 1)%nat)
    as Hpc' by (unfold childCount; by rewrite childCount_bitsOf).
  eexists. unfold removeChild.
  rewrite (proj2 (Z.ltb_lt _ _) Hlt), bind_assert_true.
  split; [reflexivity|].
  replace (Z.to_nat (cap - childIndexForBitNumber bitmap b - 1))
    with (length children - i - 1)%nat by lia.
  fold i.
  assert (owned (Bitmap.removeBit bitmap b)
            (memmove children i (S i) (length children - i - 1))
          = take i (owned bitmap children) ++ drop (S i) (owned bitmap children))
    as Hown.
  { unfold owned. rewrite Hpc', Hpc. apply memmove_remove_slot; [done|lia|lia]. }
  split; [|done].
  unfold interior_wf. rewrite Hown, memmove_remove_length by (done || lia).
  split_and!; try done; try trie_lia; try apply removeBit_range.
  - rewrite Hbits. apply Forall2_app; [by apply Forall2_take|by apply Forall2_drop].
Qed.

End MHashTreeSlots.

Section MHashTreeInsert.

Context {Key Val : Type} `{Countable Key}.
Variable std_hash : Key → Z.
Variable defaultVal : Val.
Variable indeterminate : option (Node (Key:=Key) (Val:=Val)).

Local Abbreviation NodeT := (Node (Key:=Key) (Val:=Val)).
Local Abbreviation hashOf k := (to_size_t (std_hash k)).

Lemma childCount_zero : childCount 0 = 0.
Proof. unfold childCount. by rewrite bitCount_bitsOf, bitsOf_zero. Qed.

Lemma interior_wf_fresh shift cap :
  0 ≤ shift → shift + kBitShift < hashBits → 0 < cap ≤ kMaxChildren →
  interior_wf std_hash shift cap 0 (replicate (Z.to_nat cap) (None : option NodeT)).
Proof.
  intros Hs1 Hs2 Hcap. unfold interior_wf.
  rewrite length_replicate, bitsOf_zero. unfold owned.
  rewrite childCount_zero. split_and!; try done; try lia.
Qed.

Lemma initialCapacity_range shift :
  0 ≤ shift →
  2 ≤ initialCapacity shift ≤ 4 ∧ to_uint8 (initialCapacity shift) = initialCapacity shift.
Proof.
  intros Hs. unfold initialCapacity.
  assert (2 ≤ 2 + Z.b2z (shift / kBitShift <? 1) + Z.b2z (shift / kBitShift <? 3) ≤ 4).
  { destruct (_ <? 1), (_ <? 3); simpl; lia. }
  split; [done|]. unfold to_uint8. apply Z.mod_small. lia.
Qed.

Lemma matches_true h0 (k0 : Key) h k :
  matches h0 k0 h k = true ↔ h0 = h ∧ k0 = k.
Proof.
  unfold matches. rewrite andb_true_iff, Z.eqb_eq, bool_decide_eq_true. done.
Qed.

Lemma matches_same_key (k0 k : Key) :
  matches (hashOf k0) k0 (hashOf k) k = bool_decide (k0 = k).
Proof.
  unfold matches. case_bool_decide as Hk.
  - subst. by rewrite Z.eqb_refl.
  - by rewrite andb_false_r.
Qed.

Lemma eraseVals_interior a cap bitmap (children : list (option NodeT)) :
  eraseVals defaultVal (InteriorNode a cap bitmap children)
  = InteriorNode a cap bitmap
      ((λ slot, match slot with
                | Some c => Some (eraseVals defaultVal c)
                | None => None
                end) <$> children).
Proof. done. Qed.

(** Replacing a child by one of the same shape keeps the shape. *)
Lemma eraseVals_update a cap bitmap (children : list (option NodeT)) i c c' :
  children !! i = Some (Some c) →
  eraseVals defaultVal c' = eraseVals defaultVal c →
  eraseVals defaultVal (InteriorNode a cap bitmap (<[i := Some c']> children))
  = eraseVals defaultVal (InteriorNode a cap bitmap children).
Proof.
  intros Hi Heq. rewrite !eraseVals_interior. f_equal.
  rewrite list_fmap_insert. apply list_insert_id.
  rewrite list_lookup_fmap, Hi. simpl. by rewrite Heq.
Qed.

(** Below the depth limit [insert] stops at its assertion. *)
Lemma node_insert_too_deep fuel a cap bitmap (children : list (option NodeT))
    target val shift h :
  ¬ shift + kBitShift < hashBits →
  node_insert indeterminate (S fuel) (InteriorNode a cap bitmap children)
    target val shift h
  = Fail HashDepthExhausted.
Proof.
  intros Hs. cbn [node_insert].
  rewrite (proj2 (Z.ltb_ge _ _)) by lia. done.
Qed.

Lemma newNode_run capacity h :
  newNode capacity h
  = Ok (InteriorNode (allocated h) (to_uint8 capacity) 0
          (replicate (Z.to_nat (to_uint8 capacity)) (None : option NodeT)),
        mkHeap (S (allocated h)) (freed h)).
Proof. done. Qed.

Lemma childIndex_zero b : 0 ≤ b < 32 → childIndexForBitNumber 0 b = 0.
Proof.
  intros Hb. unfold childIndexForBitNumber. rewrite indexOfBit_below by lia.
  rewrite filter_none; [done|]. intros i _. by rewrite Z.bits_0.
Qed.

Lemma bitsOf_single b : 0 ≤ b < 32 → bitsOf (Bitmap.addBit 0 b) = [b].
Proof.
  intros Hb. rewrite bitsOf_addBit by (done || apply Z.bits_0).
  by rewrite bitsOf_zero.
Qed.

Lemma childCount_single b : 0 ≤ b < 32 → childCount (Bitmap.addBit 0 b) = 1.
Proof.
  intros Hb. unfold childCount. by rewrite bitCount_bitsOf, bitsOf_single.
Qed.

(** The first child of a node that was just created. *)
Lemma addChild_fresh a cap b (child : NodeT) h :
  0 < cap → 0 ≤ b < 32 →
  ∃ children',
    addChild indeterminate
      (InteriorNode a cap 0 (replicate (Z.to_nat cap) None)) b child h
    = Ok (InteriorNode a cap (Bitmap.addBit 0 b) children', h).
Proof.
  intros Hcap Hb. unfold addChild, addChildAt.
  rewrite childCount_zero, (proj2 (Z.ltb_lt 0 cap)) by done.
  rewrite bind_ret. unfold _addChild.
  rewrite childIndex_zero, (proj2 (Z.ltb_ge cap (0 + 1))) by (done || lia).
  by eexists.
Qed.

End MHashTreeInsert.

Section MHashTreeInsertSpec.

Context {Key Val : Type} `{Countable Key}.
Variable std_hash : Key → Z.
Variable defaultVal : Val.
Variable indeterminate : option (Node (Key:=Key) (Val:=Val)).

Local Abbreviation NodeT := (Node (Key:=Key) (Val:=Val)).
Local Abbreviation hashOf k := (to_size_t (std_hash k)).

(** [insert] on a node that satisfies the invariant either stops at the
    depth assertion, and then [key] is new and another key of the node has
    the same slices as [key] at every level from [shift] on, or returns a node that satisfies it, at the same address
    unless the node was full and got a new slot, and whose leaves are those
    of before with [(key, val)] put in, or put in the place of the old pair
    of [key]; in the second case nothing was allocated or freed and only
    that value changed. *)
Lemma node_insert_spec (fuel : nat) :
  ∀ shift a cap bitmap (children : list (option NodeT)) key val h,
    interior_wf std_hash shift cap bitmap children →
    hashBits - shift < Z.of_nat fuel →
    match node_insert indeterminate fuel (InteriorNode a cap bitmap children)
            (targetOf std_hash key) val shift h with
    | Fail f =>
        (f = HashDepthExhausted ∧
         (key ∉ (leaves (InteriorNode a cap bitmap children)).*1) ∧
         ∃ k' v',
           (k', v') ∈ leaves (InteriorNode a cap bitmap children) ∧ k' ≠ key ∧
           ∀ j : nat,
             shift + 5 * Z.of_nat j + kBitShift < hashBits →
             childBitNumber (hashOf k') (shift + 5 * Z.of_nat j)
             = childBitNumber (hashOf key) (shift + 5 * Z.of_nat j))
    | Ok (n', h') =>
        ∃ a' cap' bitmap' children',
          n' = InteriorNode a' cap' bitmap' children' ∧
          interior_wf std_hash shift cap' bitmap' children' ∧
          (childCount bitmap < cap ∨
           Z.testbit bitmap (childBitNumber (hashOf key) shift) = true →
           a' = a ∧ cap' = cap) ∧
          ∃ A X B,
            leaves (InteriorNode a cap bitmap children) = A ++ X ++ B ∧
            leaves n' = A ++ (key, val) :: B ∧
            (X = [] ∨
             (∃ v0, X = [(key, v0)]) ∧ h' = h ∧
             eraseVals defaultVal n'
             = eraseVals defaultVal (InteriorNode a cap bitmap children))
    end.
Proof.
  induction fuel as [|fuel IH];
    intros shift a cap bitmap children key val h Hwf Hfuel.
  { destruct Hwf as (? & ? & _). trie_lia. }
  pose proof Hwf as (Hs1 & Hs2 & Hbm & Hcap & Hcnt & Hlen & Hslots).
  cbn [node_insert t_hash t_key targetOf].
  rewrite (proj2 (Z.ltb_lt _ _) Hs2), bind_assert_true.
  pose proof (childBitNumber_range (hashOf key) shift) as Hb.
  set (b := childBitNumber (hashOf key) shift) in *.
  rewrite hasChild_testbit by lia.
  destruct (Z.testbit bitmap b) eqn:Hbit; cbn [negb].
  2: {
    (* No child -- add a leaf *)
    rewrite bind_new.
    set (leaf := LeafNode (allocated h) (hashOf key) key val).
    assert (slotOk std_hash shift b (Some leaf)) as Hok.
    { split; [done|]. intros k v Hkv. cbn [leaves leaf] in Hkv.
      apply list_elem_of_singleton in Hkv. by injection Hkv as -> ->. }
    destruct (addChild_spec std_hash indeterminate shift a cap bitmap children b leaf
                (mkHeap (S (allocated h)) (freed h)) Hwf Hb Hbit Hok)
      as (a' & cap' & children' & h' & Hrun & Hwf' & Hown & Hsame).
    rewrite Hrun. exists a', cap', (Bitmap.addBit bitmap b), children'.
    split_and!; [done|done| |].
    - intros [Hfree|?]; [|done]. by destruct (Hsame Hfree) as (? & ? & _).
    - eexists _, [], _. split_and!; [apply (leaves_split_at a cap _ _ (Z.to_nat (childIndexForBitNumber bitmap b)))| |by left].
      rewrite leaves_interior, Hown, bind_app, bind_cons. done.
  }
  destruct (interior_wf_child _ _ _ _ _ b Hwf Hb Hbit)
    as (Hbi & Hlt & c & Hc & Hc' & Hwfc & Hsl).
  set (i := Z.to_nat (childIndexForBitNumber bitmap b)) in *.
  rewrite (proj2 (Z.ltb_lt _ _) Hlt), bind_assert_true, Hc'.
  assert (∀ v, (key, v) ∈ leaves (InteriorNode a cap bitmap children) →
               (key, v) ∈ leaves c) as Hlocate.
  { intros v Hkv.
    destruct (leaves_locate _ _ _ _ _ _ _ _ Hwf Hkv) as (_ & c2 & Hc2 & Hkv2).
    fold b in Hc2. fold i in Hc2. rewrite Hc in Hc2. by injection Hc2 as <-. }
  assert (∀ k v, (k, v) ∈ leaves c →
                 (k, v) ∈ leaves (InteriorNode a cap bitmap children)) as Hsub.
  { intros k v Hkv. rewrite (leaves_split _ _ _ _ _ _ Hc). cbn [slotLeaves].
    rewrite !elem_of_app. right; by left. }
  destruct c as [la lh lk lv|ca ccap cbitmap cchildren].
  - (* Child is a leaf *)
    cbn [node_wf] in Hwfc. subst lh.
    rewrite matches_same_key. case_bool_decide as Hk.
    + (* the right key: the value is overwritten *)
      subst lk. unfold ret.
      assert (slotOk std_hash shift b (Some (LeafNode la (hashOf key) key val))) as Hok.
      { split; [done|]. intros k v Hkv. cbn [leaves] in Hkv.
        apply list_elem_of_singleton in Hkv. by injection Hkv as -> ->. }
      destruct (interior_wf_update _ _ _ _ _ _ _ _ Hwf Hbi Hok) as [Hwf' Hown].
      exists a, cap, bitmap, (<[i := Some (LeafNode la (hashOf key) key val)]> children).
      split_and!; [done|done|done|].
      eexists _, [(key, lv)], _.
      split_and!; [apply (leaves_split _ _ _ _ _ _ Hc)| |right].
      * rewrite (leaves_update _ _ _ _ _ _ _ Hc). done.
      * split_and!; [by eexists|done|]. by eapply eraseVals_update.
    + (* another key: a new interior node takes the slot *)
      destruct (initialCapacity_range shift Hs1) as [Hic Hu8].
      rewrite (bind_Ok _ _ _ _ _ (newNode_run _ _)), Hu8.
      set (capn := initialCapacity shift) in *.
      set (h1 := mkHeap (S (allocated h)) (freed h)).
      set (leaf := LeafNode la (hashOf lk) lk lv) in *.
      pose proof (childBitNumber_range (hashOf lk) (shift + kBitShift)) as Hb'.
      set (b' := childBitNumber (hashOf lk) (shift + kBitShift)) in *.
      destruct (decide (shift + kBitShift + kBitShift < hashBits)) as [Hdeep|Hdeep].
      2: { (* the new node is past the depth limit: insert stops in it *)
        destruct (addChild_fresh indeterminate (allocated h) capn b' leaf h1)
          as [children1 Hrun]; [lia|done|].
        rewrite (bind_Ok _ _ _ _ _ Hrun). cbn [addrOf].
        rewrite bool_decide_eq_true_2, bind_assert_true by done.
        destruct fuel as [|fuel']; [trie_lia|].
        rewrite (bind_Fail _ _ _ _ (node_insert_too_deep indeterminate _ _ _ _ _ _ _ _ _ Hdeep)).
        split; [done|]. split.
        - intros [[k v] [Hk' Hkv]]%list_elem_of_fmap. simpl in Hk'. subst k.
          apply Hlocate in Hkv. unfold leaf in Hkv. rewrite leaves_leaf in Hkv.
          apply list_elem_of_singleton in Hkv. by injection Hkv as -> ->.
        - exists lk, lv. split; [apply Hsub; unfold leaf; rewrite leaves_leaf; by left|].
          split; [done|]. intros [|j] Hj; [|trie_lia].
          rewrite Z.mul_0_r, Z.add_0_r. apply (Hsl lk lv).
          unfold leaf. rewrite leaves_leaf. by left. }
      assert (interior_wf std_hash (shift + kBitShift) capn 0
                (replicate (Z.to_nat capn) (None : option NodeT))) as Hwfn
        by (apply interior_wf_fresh; trie_lia).
      assert (slotOk std_hash (shift + kBitShift) b' (Some leaf)) as Hok'.
      { split; [done|]. intros k v Hkv. cbn [leaves leaf] in Hkv.
        apply list_elem_of_singleton in Hkv. by injection Hkv as -> ->. }
      destruct (addChild_spec std_hash indeterminate _ (allocated h) _ _ _ b' leaf h1
                  Hwfn Hb' (Z.bits_0 b') Hok')
        as (a1 & cap1 & children1 & h1' & Hrun & Hwf1 & Hown1 & Hsame1).
      destruct Hsame1 as (-> & -> & ->); [rewrite childCount_zero; lia|].
      rewrite (bind_Ok _ _ _ _ _ Hrun). cbn [addrOf].
      rewrite bool_decide_eq_true_2, bind_assert_true by done.
      assert (hashBits - (shift + kBitShift) < Z.of_nat fuel) as Hfuel' by trie_lia.
      specialize (IH (shift + kBitShift) (allocated h) capn (Bitmap.addBit 0 b')
                    children1 key val h1 Hwf1 Hfuel').
      unfold bind at 1.
      assert (leaves (InteriorNode (allocated h) capn (Bitmap.addBit 0 b') children1)
              = [(lk, lv)]) as Hleaf1.
      { rewrite leaves_interior, Hown1. unfold owned. rewrite childCount_zero.
        done. }
      destruct (node_insert indeterminate fuel
                  (InteriorNode (allocated h) capn (Bitmap.addBit 0 b') children1)
                  (targetOf std_hash key) val (shift + kBitShift) h1)
        as [[n2 h2]|f].
      2: { destruct IH as (-> & _ & k' & v' & Hkv' & Hne & Hcoll).
        rewrite Hleaf1 in Hkv'. apply list_elem_of_singleton in Hkv'.
        injection Hkv' as -> ->.
        split; [done|]. split.
        - intros [[k v] [Hk' Hkv]]%list_elem_of_fmap. simpl in Hk'. subst k.
          apply Hlocate in Hkv. unfold leaf in Hkv. rewrite leaves_leaf in Hkv.
          apply list_elem_of_singleton in Hkv. by injection Hkv as -> ->.
        - exists lk, lv. split; [apply Hsub; unfold leaf; rewrite leaves_leaf; by left|].
          split; [done|]. intros [|j] Hj.
          + rewrite Z.mul_0_r, Z.add_0_r. apply (Hsl lk lv).
            unfold leaf. rewrite leaves_leaf. by left.
          + replace (shift + 5 * Z.of_nat (S j))
              with (shift + kBitShift + 5 * Z.of_nat j) by trie_lia.
            apply Hcoll. trie_lia. }
      destruct IH as (a2 & cap2 & bitmap2 & children2 & -> & Hwf2 & Hsame2 &
                      A2 & X2 & B2 & Hold & Hnew & HX).
      destruct Hsame2 as [-> ->]; [left; rewrite childCount_single by done; lia|].
      cbn [addrOf]. rewrite bool_decide_eq_true_2, bind_assert_true by done.
      unfold ret.
      set (n2 := InteriorNode (allocated h) capn bitmap2 children2) in *.
      rewrite Hleaf1 in Hold.
      assert (X2 = []) as ->.
      { destruct HX as [->|([v0 ->] & _)]; [done|]. exfalso. apply Hk.
        assert ((key, v0) ∈ [(lk, lv)]) as Hin
          by (rewrite Hold, !elem_of_app; right; left; by left).
        apply list_elem_of_singleton in Hin. by injection Hin as -> ->. }
      simpl in Hold.
      assert (slotOk std_hash shift b (Some n2)) as Hok.
      { split; [by apply node_wf_interior|]. intros k v Hkv.
        rewrite Hnew in Hkv. apply elem_of_app in Hkv as [Hkv|Hkv].
        - apply (Hsl k v). unfold leaf.
          rewrite leaves_leaf, Hold, elem_of_app. by left.
        - apply elem_of_cons in Hkv as [Hkv|Hkv]; [by injection Hkv as -> ->|].
          apply (Hsl k v). unfold leaf.
          rewrite leaves_leaf, Hold, elem_of_app. by right. }
      destruct (interior_wf_update _ _ _ _ _ _ _ _ Hwf Hbi Hok) as [Hwf' Hown].
      exists a, cap, bitmap, (<[i := Some n2]> children).
      split_and!; [reflexivity|exact Hwf'|by intros _|].
      exists ((take i (owned bitmap children) ≫= slotLeaves) ++ A2), [],
             (B2 ++ (drop (S i) (owned bitmap children) ≫= slotLeaves)).
      split_and!; [| |by left].
      * rewrite (leaves_split _ _ _ _ _ _ Hc). unfold leaf.
        cbn [slotLeaves].
        rewrite leaves_leaf.
        rewrite Hold.
        rewrite <- !app_assoc, app_nil_l. reflexivity.
      * rewrite (leaves_update _ _ _ _ _ _ _ Hc), Hnew, <- !app_assoc.
        reflexivity.
  - (* Progress down to interior node *)
    pose proof Hwfc as Hwfc'. apply node_wf_interior in Hwfc'.
    rewrite (interior_wf_capacity _ _ _ _ _ Hwfc').
    assert (hashBits - (shift + kBitShift) < Z.of_nat fuel) as Hfuel' by trie_lia.
    specialize (IH (shift + kBitShift) ca ccap cbitmap cchildren key val h Hwfc' Hfuel').
    unfold bind at 1.
    destruct (node_insert indeterminate fuel (InteriorNode ca ccap cbitmap cchildren)
                (targetOf std_hash key) val (shift + kBitShift) h)
      as [[n2 h2]|f].
    2: { destruct IH as (-> & Hnotin & k' & v' & Hkv' & Hne & Hcoll).
      split; [done|]. split.
      - intros [[k v] [Hk' Hkv]]%list_elem_of_fmap. simpl in Hk'. subst k.
        apply Hnotin. apply list_elem_of_fmap. exists (key, v). split; [done|].
        by apply Hlocate.
      - exists k', v'. split; [by apply Hsub|]. split; [done|]. intros [|j] Hj.
        + rewrite Z.mul_0_r, Z.add_0_r. by apply (Hsl k' v').
        + replace (shift + 5 * Z.of_nat (S j))
            with (shift + kBitShift + 5 * Z.of_nat j) by trie_lia.
          apply Hcoll. trie_lia. }
    destruct IH as (a2 & cap2 & bitmap2 & children2 & -> & Hwf2 & _ &
                    A2 & X2 & B2 & Hold & Hnew & HX).
    unfold ret.
    set (n2 := InteriorNode a2 cap2 bitmap2 children2) in *.
    assert (slotOk std_hash shift b (Some n2)) as Hok.
    { split; [by apply node_wf_interior|]. intros k v Hkv.
      rewrite Hnew in Hkv. apply elem_of_app in Hkv as [Hkv|Hkv].
      - apply (Hsl k v). rewrite Hold, !elem_of_app. by left.
      - apply elem_of_cons in Hkv as [Hkv|Hkv]; [by injection Hkv as -> ->|].
        apply (Hsl k v). rewrite Hold, !elem_of_app. right; by right. }
    destruct (interior_wf_update _ _ _ _ _ _ _ _ Hwf Hbi Hok) as [Hwf' Hown].
    exists a, cap, bitmap, (<[i := Some n2]> children).
    split_and!; [reflexivity|exact Hwf'|by intros _|].
    exists ((take i (owned bitmap children) ≫= slotLeaves) ++ A2), X2,
           (B2 ++ (drop (S i) (owned bitmap children) ≫= slotLeaves)).
    split_and!.
    + rewrite (leaves_split _ _ _ _ _ _ Hc). cbn [slotLeaves].
      rewrite Hold, <- !app_assoc. done.
    + rewrite (leaves_update _ _ _ _ _ _ _ Hc), Hnew, <- !app_assoc. done.
    + destruct HX as [->|(Hv0 & -> & Hshape)]; [by left|right].
      split_and!; [done|done|]. by eapply eraseVals_update.
Qed.

End MHashTreeInsertSpec.

Section MHashTreeRemoveSpec.

Context {Key Val : Type} `{Countable Key}.
Variable std_hash : Key → Z.

Local Abbreviation NodeT := (Node (Key:=Key) (Val:=Val)).
Local Abbreviation hashOf k := (to_size_t (std_hash k)).

Lemma leaves_empty_bitmap a cap bitmap (children : list (option NodeT)) :
  Bitmap.empty bitmap = true →
  leaves (InteriorNode a cap bitmap children) = [].
Proof.
  intros Hempty. rewrite leaves_interior, owned_length_bits.
  by rewrite (bitsOf_empty _ Hempty).
Qed.

(** [remove] on a node that satisfies the invariant never fails; the node
    stays where it is and satisfies the invariant afterwards; when it returns
    [true] the pair of [key] has gone from the leaves, and when it returns
    [false] the leaves are unchanged and [key] was not among them. *)
Lemma node_remove_spec (n : NodeT) :
  ∀ shift key h,
    node_wf std_hash shift n → isInterior n →
    match node_remove n (targetOf std_hash key) shift h with
    | Fail _ => False
    | Ok (removed, n', h') =>
        ∃ bitmap' children',
          n' = InteriorNode (addrOf n) (capacityOf n) bitmap' children' ∧
          interior_wf std_hash shift (capacityOf n) bitmap' children' ∧
          if removed : bool
          then ∃ A v0 B, leaves n = A ++ (key, v0) :: B ∧ leaves n' = A ++ B
          else leaves n' = leaves n ∧ key ∉ (leaves n).*1
    end.
Proof.
  induction n as [la lh lk lv|a cap bitmap children IH] using Node_slots_ind;
    intros shift key h Hwf Hint; [done|].
  apply node_wf_interior in Hwf.
  pose proof Hwf as (Hs1 & Hs2 & Hbm & Hcap & Hcnt & Hlen & Hslots).
  cbn [node_remove t_hash t_key targetOf addrOf capacityOf].
  rewrite (proj2 (Z.ltb_lt _ _) Hs2), bind_assert_true.
  pose proof (childBitNumber_range (hashOf key) shift) as Hb.
  set (b := childBitNumber (hashOf key) shift) in *.
  rewrite hasChild_testbit by lia.
  destruct (Z.testbit bitmap b) eqn:Hbit; cbn [negb].
  2: {
    unfold ret. exists bitmap, children. split_and!; [done|done|done|].
    intros [[k v] [Hk Hkv]]%list_elem_of_fmap. simpl in Hk. subst k.
    destruct (leaves_locate _ _ _ _ _ _ _ _ Hwf Hkv) as [Hbit' _].
    fold b in Hbit'. congruence.
  }
  destruct (interior_wf_child _ _ _ _ _ b Hwf Hb Hbit)
    as (Hbi & Hlt & c & Hc & Hc' & Hwfc & Hsl).
  set (i := Z.to_nat (childIndexForBitNumber bitmap b)) in *.
  rewrite slotAt_lookup, Hc'.
  assert (∀ v, (key, v) ∈ leaves (InteriorNode a cap bitmap children) →
               (key, v) ∈ leaves c) as Hlocate.
  { intros v Hkv.
    destruct (leaves_locate _ _ _ _ _ _ _ _ Hwf Hkv) as (_ & c2 & Hc2 & Hkv2).
    fold b in Hc2. fold i in Hc2. rewrite Hc in Hc2. by injection Hc2 as <-. }
  rewrite Forall_lookup in IH. specialize (IH _ _ Hc'). cbv beta iota in IH.
  destruct c as [la lh lk lv|ca ccap cbitmap cchildren].
  - (* Child is a leaf *)
    cbn [node_wf] in Hwfc. subst lh.
    rewrite matches_same_key. case_bool_decide as Hk.
    + subst lk.
      destruct (removeChild_spec std_hash shift a cap bitmap children b h Hwf Hb Hbit)
        as (children' & Hrun & Hwf' & Hown).
      rewrite (bind_Ok _ _ _ _ _ Hrun), bind_delete. unfold ret.
      exists (Bitmap.removeBit bitmap b), children'.
      split_and!; [done|done|].
      exists (take i (owned bitmap children) ≫= slotLeaves), lv,
             (drop (S i) (owned bitmap children) ≫= slotLeaves).
      split.
      * rewrite (leaves_split _ _ _ _ _ _ Hc). cbn [slotLeaves].
        by rewrite leaves_leaf.
      * rewrite leaves_interior, Hown, bind_app. reflexivity.
    + unfold ret. exists bitmap, children. split_and!; [done|done|done|].
      intros [[k v] [Hk' Hkv]]%list_elem_of_fmap. simpl in Hk'. subst k.
      apply Hlocate in Hkv. rewrite leaves_leaf in Hkv.
      apply list_elem_of_singleton in Hkv. by injection Hkv as -> ->.
  - (* Recurse into child node *)
    pose proof Hwfc as Hwfc'. apply node_wf_interior in Hwfc'.
    rewrite (interior_wf_capacity _ _ _ _ _ Hwfc').
    specialize (IH (shift + kBitShift) key h Hwfc I).
    unfold bind at 1.
    destruct (node_remove (InteriorNode ca ccap cbitmap cchildren)
                (targetOf std_hash key) (shift + kBitShift) h)
      as [[[removed n2] h2]|f]; [|done].
    destruct IH as (bitmap2 & children2 & -> & Hwf2 & Hleaves).
    cbn [addrOf capacityOf] in *. cbn [fst snd].
    set (n2 := InteriorNode ca ccap bitmap2 children2) in *.
    assert (slotOk std_hash shift b (Some n2)) as Hok.
    { split; [by apply node_wf_interior|]. intros k v Hkv. apply (Hsl k v).
      destruct removed.
      - destruct Hleaves as (A & v0 & B & Hold & Hnew).
        rewrite Hold. rewrite Hnew in Hkv. rewrite elem_of_app, elem_of_cons.
        apply elem_of_app in Hkv as [?|?]; auto.
      - destruct Hleaves as [Hsame _]. by rewrite <- Hsame. }
    destruct (interior_wf_update _ _ _ _ _ _ _ _ Hwf Hbi Hok) as [Hwf1 Hown1].
    destruct removed; cbn [negb].
    + destruct Hleaves as (A2 & v0 & B2 & Hold & Hnew).
      unfold n2 at 1.
      destruct (Bitmap.empty bitmap2) eqn:Hempty.
      * (* child node is now empty, so remove it *)
        destruct (removeChild_spec std_hash shift a cap bitmap
                    (<[i := Some n2]> children) b h2 Hwf1 Hb Hbit)
          as (children' & Hrun & Hwf' & Hown).
        fold i in Hrun, Hown.
        rewrite (bind_Ok _ _ _ _ _ Hrun), bind_delete. unfold ret.
        exists (Bitmap.removeBit bitmap b), children'.
        split_and!; [done|done|].
        pose proof (leaves_empty_bitmap ca ccap bitmap2 children2 Hempty) as Hnil.
        fold n2 in Hnil. rewrite Hnil in Hnew.
        symmetry in Hnew. apply app_eq_nil in Hnew as [-> ->].
        exists (take i (owned bitmap children) ≫= slotLeaves), v0,
               (drop (S i) (owned bitmap children) ≫= slotLeaves).
        split.
        -- rewrite (leaves_split _ _ _ _ _ _ Hc). cbn [slotLeaves].
           rewrite Hold. reflexivity.
        -- rewrite leaves_interior, Hown, Hown1, bind_app.
           rewrite take_insert_ge, drop_insert_lt by lia. reflexivity.
      * unfold ret. exists bitmap, (<[i := Some n2]> children).
        split_and!; [done|done|].
        exists ((take i (owned bitmap children) ≫= slotLeaves) ++ A2), v0,
               (B2 ++ (drop (S i) (owned bitmap children) ≫= slotLeaves)).
        split.
        -- rewrite (leaves_split _ _ _ _ _ _ Hc). cbn [slotLeaves].
           rewrite Hold, <- !app_assoc. reflexivity.
        -- rewrite (leaves_update _ _ _ _ _ _ _ Hc), Hnew, <- !app_assoc.
           reflexivity.
    + destruct Hleaves as [Hsame Hnotin].
      unfold ret. exists bitmap, (<[i := Some n2]> children).
      split_and!; [done|done| |].
      * rewrite (leaves_update _ _ _ _ _ _ _ Hc), (leaves_split _ _ _ _ _ _ Hc).
        cbn [slotLeaves]. by rewrite Hsame.
      * intros [[k v] [Hk' Hkv]]%list_elem_of_fmap. simpl in Hk'. subst k.
        apply Hnotin. apply list_elem_of_fmap. exists (key, v). split; [done|].
        by apply Hlocate.
Qed.

End MHashTreeRemoveSpec.

(** ** From the leaves to the mapping *)

Section LeavesAsMap.

Context {K V : Type} `{Countable K}.

Lemma keys_middle (A B : list (K * V)) k v v' :
  (A ++ (k, v) :: B).*1 = (A ++ (k, v') :: B).*1.
Proof. by rewrite !fmap_app, !fmap_cons. Qed.

Lemma list_to_map_middle (A B : list (K * V)) k v :
  NoDup (A ++ (k, v) :: B).*1 →
  (list_to_map (A ++ (k, v) :: B) : gmap K V) = <[k := v]> (list_to_map (A ++ B)) ∧
  (list_to_map (A ++ B) : gmap K V) !! k = None.
Proof.
  intros Hnd.
  assert (A ++ (k, v) :: B ≡ₚ (k, v) :: (A ++ B)) as Hperm
    by (symmetry; apply Permutation_middle).
  split.
  - by rewrite (list_to_map_proper _ _ Hnd Hperm).
  - apply not_elem_of_list_to_map_1.
    rewrite Hperm in Hnd. simpl in Hnd. by apply NoDup_cons in Hnd as [? _].
Qed.

Lemma list_to_map_put (A X B : list (K * V)) k v :
  NoDup (A ++ (k, v) :: B).*1 →
  X = [] ∨ (∃ v0, X = [(k, v0)]) →
  (list_to_map (A ++ (k, v) :: B) : gmap K V)
  = <[k := v]> (list_to_map (A ++ X ++ B)).
Proof.
  intros Hnd HX. destruct (list_to_map_middle A B k v Hnd) as [-> _].
  destruct HX as [->|[v0 ->]]; [done|].
  rewrite (keys_middle A B k v v0) in Hnd.
  destruct (list_to_map_middle A B k v0 Hnd) as [Heq _].
  simpl. rewrite Heq. by rewrite insert_insert_eq.
Qed.

Lemma list_to_map_take_out (A B : list (K * V)) k v0 :
  NoDup (A ++ (k, v0) :: B).*1 →
  (list_to_map (A ++ B) : gmap K V) = delete k (list_to_map (A ++ (k, v0) :: B)).
Proof.
  intros Hnd. destruct (list_to_map_middle A B k v0 Hnd) as [-> Hnone].
  by rewrite delete_insert_eq, delete_id.
Qed.

End LeavesAsMap.

(** ** The operations of MHashTree *)

Section MHashTreeOperations.

Context {Key Val : Type} `{Countable Key}.
Variable std_hash : Key → Z.
Variable defaultVal : Val.
Variable indeterminate : option (Node (Key:=Key) (Val:=Val)).

Local Abbreviation NodeT := (Node (Key:=Key) (Val:=Val)).
Local Abbreviation TreeT := (MHashTree (Key:=Key) (Val:=Val)).
Local Abbreviation hashOf k := (to_size_t (std_hash k)).

Lemma tree_wf_root (t : TreeT) root :
  _root t = Some root → tree_wf std_hash t →
  ∃ a bitmap children,
    root = InteriorNode a kMaxChildren bitmap children ∧
    interior_wf std_hash 0 kMaxChildren bitmap children.
Proof.
  unfold tree_wf. intros -> (Hwf & Hint & Hcap).
  destruct root as [|a cap bitmap children]; [done|].
  cbn [capacityOf] in Hcap. subst cap.
  exists a, bitmap, children. split; [done|]. by eapply interior_wf_of_node.
Qed.

Lemma contents_root (t : TreeT) root :
  _root t = Some root → contents t = list_to_map (leaves root).
Proof. unfold contents. by intros ->. Qed.

(** [get] returns the value the mapping has for the key, or [Val{}]. *)
Lemma MHashTree_get_spec (t : TreeT) key :
  tree_wf std_hash t →
  MHashTree_get std_hash defaultVal t key
  = Ok (default defaultVal (contents t !! key)).
Proof.
  intros Hwf. unfold MHashTree_get, contents.
  destruct (_root t) as [root|] eqn:Hroot; [|done].
  pose proof Hwf as Hwf0. unfold tree_wf in Hwf0. rewrite Hroot in Hwf0.
  destruct Hwf0 as (Hnwf & Hint & _).
  destruct (findNearest_spec std_hash root 0 (hashOf key) Hnwf Hint)
    as (r & Hr & Hr1 & Hr2).
  rewrite Z.shiftr_0_r in Hr. rewrite Hr. cbn [rbind].
  pose proof (node_wf_NoDup std_hash root 0 Hnwf) as Hnd.
  destruct (list_to_map (leaves root) !! key) as [v|] eqn:Hlook.
  - apply elem_of_list_to_map in Hlook; [|done].
    rewrite (Hr2 key v Hlook eq_refl).
    by rewrite matches_same_key, bool_decide_eq_true_2.
  - destruct r as [[[h k] v]|]; [|done].
    destruct (Hr1 h k v eq_refl) as [-> Hkv].
    rewrite matches_same_key. case_bool_decide as Hk; [|done]. subst k.
    apply (elem_of_list_to_map (M:=gmap Key)) in Hkv; [|done]. congruence.
Qed.

(** [count] returns the size of the mapping, as an [unsigned]. *)
Lemma MHashTree_count_spec (t : TreeT) :
  tree_wf std_hash t →
  MHashTree_count t = Ok (to_uint32 (Z.of_nat (size (contents t)))).
Proof.
  intros Hwf. unfold MHashTree_count, contents.
  destruct (_root t) as [root|] eqn:Hroot; [|done].
  unfold tree_wf in Hwf. rewrite Hroot in Hwf.
  destruct Hwf as (Hnwf & Hint & _).
  rewrite (itemCount_spec std_hash root 0 Hnwf Hint).
  by rewrite map_size_list_to_map by by eapply node_wf_NoDup.
Qed.

Lemma newRoot_wf h :
  ∃ root : NodeT,
    newRoot h = Ok (root, mkHeap (S (allocated h)) (freed h)) ∧
    root = InteriorNode (allocated h) kMaxChildren 0
             (replicate (Z.to_nat kMaxChildren) None) ∧
    interior_wf std_hash 0 kMaxChildren 0
      (replicate (Z.to_nat kMaxChildren) (None : option NodeT)).
Proof.
  eexists. split; [reflexivity|]. split; [reflexivity|].
  apply interior_wf_fresh; trie_lia.
Qed.

(** [insert] stops at the depth assertion, when [key] is new and has the
    slices of a key of the trie, or leaves a trie that satisfies the
    invariant and maps [key] to [val]; when [key] was present nothing is
    allocated or freed and the shape is unchanged. *)
Lemma MHashTree_insert_spec (t : TreeT) key val h :
  tree_wf std_hash t →
  match MHashTree_insert std_hash indeterminate t key val h with
  | Fail f =>
      (f = HashDepthExhausted ∧ contents t !! key = None ∧
       ∃ k', is_Some (contents t !! k') ∧ k' ≠ key ∧ sameSlices std_hash k' key)
  | Ok (t', h') =>
      tree_wf std_hash t' ∧
      contents t' = <[key := val]> (contents t) ∧
      (is_Some (contents t !! key) →
       h' = h ∧ shapeOf defaultVal t' = shapeOf defaultVal t)
  end.
Proof.
  intros Hwf. unfold MHashTree_insert.
  assert (∀ a bitmap children h0,
    interior_wf std_hash 0 kMaxChildren bitmap children →
    match node_insert indeterminate (insertFuel 0)
            (InteriorNode a kMaxChildren bitmap children)
            (targetOf std_hash key) val 0 h0 with
    | Fail f =>
        (f = HashDepthExhausted ∧
         (list_to_map (leaves (InteriorNode a kMaxChildren bitmap children))
          : gmap Key Val) !! key = None ∧
         ∃ k', is_Some ((list_to_map (leaves (InteriorNode a kMaxChildren bitmap children))
                         : gmap Key Val) !! k') ∧ k' ≠ key ∧ sameSlices std_hash k' key)
    | Ok (n', h') =>
        ∃ bitmap' children',
          n' = InteriorNode a kMaxChildren bitmap' children' ∧
          interior_wf std_hash 0 kMaxChildren bitmap' children' ∧
          (list_to_map (leaves n') : gmap Key Val)
          = <[key := val]> (list_to_map (leaves (InteriorNode a kMaxChildren bitmap children))) ∧
          (is_Some ((list_to_map (leaves (InteriorNode a kMaxChildren bitmap children))
                     : gmap Key Val) !! key) →
           h' = h0 ∧
           eraseVals defaultVal n'
           = eraseVals defaultVal (InteriorNode a kMaxChildren bitmap children))
    end) as Hnode.
  { intros a bitmap children h0 Hiwf.
    pose proof (node_insert_spec std_hash defaultVal indeterminate (insertFuel 0)
                  0 a kMaxChildren bitmap children key val h0 Hiwf) as Hspec.
    pose proof (node_wf_NoDup std_hash _ 0 (node_wf_of_interior _ _ a _ _ _ Hiwf))
      as Hnd0.
    destruct (node_insert indeterminate (insertFuel 0) _ _ _ _ _)
      as [[n' h']|f].
    2: { destruct Hspec as (-> & Hnotin & k' & v' & Hkv' & Hne & Hcoll);
        [unfold insertFuel; trie_lia|].
      split; [done|]. split; [by apply not_elem_of_list_to_map_1|].
      exists k'. split_and!; [|done|].
      - exists v'. by apply elem_of_list_to_map.
      - intros j Hj. specialize (Hcoll j). rewrite !Z.add_0_l in Hcoll. auto. }
    destruct Hspec as (a' & cap' & bitmap' & children' & -> & Hwf' & Hsame &
                       A & X & B & Hold & Hnew & HX);
      [unfold insertFuel; trie_lia|].
    destruct Hsame as [-> ->].
    { pose proof (childBitNumber_range (hashOf key) 0) as Hb.
      destruct (Z.testbit bitmap (childBitNumber (hashOf key) 0)) eqn:Hbit;
        [by right|left].
      pose proof (childCount_unset_bit bitmap _ Hb Hbit). trie_lia. }
    exists bitmap', children'. split; [done|]. split; [done|].
    assert (NoDup (A ++ (key, val) :: B).*1) as Hnd.
    { rewrite <- Hnew. eapply node_wf_NoDup. by eapply node_wf_of_interior. }
    rewrite Hnew, Hold. split.
    - apply list_to_map_put; [done|]. destruct HX as [->|[? _]]; auto.
    - intros [v0 Hv0]. destruct HX as [->|(_ & -> & Hshape)]; [|done].
      exfalso. simpl in Hv0.
      destruct (list_to_map_middle A B key val Hnd) as [_ Hnone]. congruence. }
  destruct (_root t) as [root|] eqn:Hroot.
  - destruct (tree_wf_root t root Hroot Hwf) as (a & bitmap & children & -> & Hiwf).
    rewrite bind_ret. unfold bind at 1.
    specialize (Hnode a bitmap children h Hiwf).
    destruct (node_insert indeterminate (insertFuel 0) _ _ _ _ _)
      as [[n' h']|f]; [|by unfold contents; rewrite Hroot].
    destruct Hnode as (bitmap' & children' & -> & Hwf' & Hmap & Hframe).
    cbn [addrOf]. rewrite bool_decide_eq_true_2, bind_assert_true by done.
    unfold ret, tree_wf, contents, shapeOf. cbn [_root]. rewrite Hroot.
    split_and!; [by apply node_wf_of_interior|done|done|done|].
    intros Hsome. destruct (Hframe Hsome) as [-> ->]. done.
  - destruct (newRoot_wf h) as (root & Hrun & -> & Hiwf).
    rewrite (bind_Ok _ _ _ _ _ Hrun). unfold bind at 1.
    specialize (Hnode (allocated h) 0 _ (mkHeap (S (allocated h)) (freed h)) Hiwf).
    destruct (node_insert indeterminate (insertFuel 0) _ _ _ _ _)
      as [[n' h']|f].
    2: { destruct Hnode as (_ & _ & k' & [v' Hv'] & _). exfalso.
      rewrite leaves_interior in Hv'. unfold owned in Hv'.
      rewrite childCount_zero in Hv'. simpl in Hv'.
      by rewrite lookup_empty in Hv'. }
    destruct Hnode as (bitmap' & children' & -> & Hwf' & Hmap & Hframe).
    cbn [addrOf]. rewrite bool_decide_eq_true_2, bind_assert_true by done.
    unfold ret, tree_wf, contents. cbn [_root]. rewrite Hroot.
    split_and!; [by apply node_wf_of_interior|done|done| |].
    + rewrite Hmap, leaves_interior. unfold owned.
      by rewrite childCount_zero.
    + rewrite lookup_empty. by intros [??].
Qed.

(** [remove] never fails; it leaves a trie that satisfies the invariant and
    has lost [key], and returns whether [key] was present. *)
Lemma MHashTree_remove_spec (t : TreeT) key h :
  tree_wf std_hash t →
  match MHashTree_remove std_hash t key h with
  | Fail _ => False
  | Ok (removed, t', h') =>
      tree_wf std_hash t' ∧
      contents t' = delete key (contents t) ∧
      removed = bool_decide (is_Some (contents t !! key))
  end.
Proof.
  intros Hwf. unfold MHashTree_remove.
  destruct (_root t) as [root|] eqn:Hroot.
  - destruct (tree_wf_root t root Hroot Hwf) as (a & bitmap & children & -> & Hiwf).
    pose proof (node_remove_spec std_hash (InteriorNode a kMaxChildren bitmap children)
                  0 key h (node_wf_of_interior _ _ _ _ _ _ Hiwf) I) as Hspec.
    unfold bind at 1.
    destruct (node_remove _ _ _ _) as [[[removed n'] h']|f]; [|done].
    destruct Hspec as (bitmap' & children' & -> & Hwf' & Hleaves).
    cbn [addrOf capacityOf fst snd] in *.
    unfold ret, tree_wf, contents. cbn [_root]. rewrite Hroot.
    pose proof (node_wf_NoDup std_hash _ 0 (node_wf_of_interior _ _ a _ _ _ Hiwf))
      as Hnd.
    split_and!; [by apply node_wf_of_interior|done|done| |].
    + destruct removed.
      * destruct Hleaves as (A & v0 & B & Hold & ->).
        rewrite Hold in Hnd |- *. by apply list_to_map_take_out.
      * destruct Hleaves as [-> Hnotin].
        by rewrite delete_id by by apply not_elem_of_list_to_map_1.
    + destruct removed.
      * destruct Hleaves as (A & v0 & B & Hold & _).
        rewrite Hold in Hnd |- *.
        destruct (list_to_map_middle A B key v0 Hnd) as [-> _].
        rewrite lookup_insert_eq. by rewrite bool_decide_eq_true_2.
      * destruct Hleaves as [_ Hnotin].
        rewrite (not_elem_of_list_to_map_1 _ _ Hnotin).
        rewrite bool_decide_eq_false_2; [done|]. by intros [??].
  - unfold ret, contents. rewrite Hroot. split_and!; [done| |].
    + by rewrite delete_empty.
    + rewrite lookup_empty. rewrite bool_decide_eq_false_2; [done|]. by intros [??].
Qed.

End MHashTreeOperations.

(** ** Reachable tries *)

Section MHashTreeReachable.

Context {Key Val : Type} `{Countable Key}.
Variable std_hash : Key → Z.
Variable defaultVal : Val.
Variable indeterminate : option (Node (Key:=Key) (Val:=Val)).

Local Abbreviation NodeT := (Node (Key:=Key) (Val:=Val)).
Local Abbreviation TreeT := (MHashTree (Key:=Key) (Val:=Val)).
Local Abbreviation hashOf k := (to_size_t (std_hash k)).
Local Abbreviation runT := (run std_hash indeterminate).
Local Abbreviation stepT := (step std_hash indeterminate).
Local Abbreviation reachableT := (reachable std_hash indeterminate).

Lemma run_app (ops1 ops2 : list op) (s : TreeT * Heap) :
  runT (ops1 ++ ops2) s = rbind (runT ops1 s) (runT ops2).
Proof.
  revert s. induction ops1 as [|o ops1 IH]; intros s; [done|].
  cbn [app run]. destruct (stepT s o) as [s'|f]; [|done]. apply IH.
Qed.

Lemma reachable_empty : reachableT (emptyTree, emptyHeap).
Proof. by exists []. Qed.

Lemma reachable_step (s s' : TreeT * Heap) o :
  reachableT s → stepT s o = Ok s' → reachableT s'.
Proof.
  intros [ops Hops] Hstep. exists (ops ++ [o]).
  rewrite run_app, Hops. cbn [rbind run]. by rewrite Hstep.
Qed.

Lemma reachable_insert (t t' : TreeT) h h' k v :
  reachableT (t, h) →
  MHashTree_insert std_hash indeterminate t k v h = Ok (t', h') →
  reachableT (t', h').
Proof. intros Hr Hins. by apply (reachable_step _ _ (Insert k v) Hr). Qed.

Lemma reachable_remove (t t' : TreeT) h h' k b :
  reachableT (t, h) →
  MHashTree_remove std_hash t k h = Ok (b, t', h') →
  reachableT (t', h').
Proof.
  intros Hr Hrem. apply (reachable_step _ _ (Remove k) Hr).
  cbn [step fst snd]. by rewrite Hrem.
Qed.

Lemma step_wf (s s' : TreeT * Heap) o :
  tree_wf std_hash s.1 → stepT s o = Ok s' →
  tree_wf std_hash s'.1 ∧
  contents s'.1 = match o with
                  | Insert k v => <[k := v]> (contents s.1)
                  | Remove k => delete k (contents s.1)
                  end.
Proof.
  intros Hwf Hstep. destruct o as [k v|k]; cbn [step] in Hstep.
  - pose proof (MHashTree_insert_spec std_hash defaultVal indeterminate s.1 k v s.2 Hwf)
      as Hspec.
    rewrite Hstep in Hspec. destruct s' as [t' h']. by destruct Hspec as (? & ? & _).
  - pose proof (MHashTree_remove_spec std_hash s.1 k s.2 Hwf) as Hspec.
    destruct (MHashTree_remove std_hash s.1 k s.2) as [[[b t'] h']|f]; [|done].
    cbn [rbind fst snd] in Hstep. injection Hstep as <-.
    by destruct Hspec as (? & ? & _).
Qed.

(** A run keeps the invariant, and the keys of the trie are the surviving
    ones. *)
Lemma run_wf (ops : list op) :
  ∀ s s' : TreeT * Heap,
    tree_wf std_hash s.1 → runT ops s = Ok s' →
    tree_wf std_hash s'.1 ∧
    dom (contents s'.1) = surviving ops (dom (contents s.1)).
Proof.
  induction ops as [|o ops IH]; intros s s' Hwf Hrun.
  - cbn [run] in Hrun. by injection Hrun as <-.
  - cbn [run] in Hrun. destruct (stepT s o) as [s1|f] eqn:Hstep; [|done].
    cbn [rbind] in Hrun.
    destruct (step_wf s s1 o Hwf Hstep) as [Hwf1 Hcontents].
    destruct (IH s1 s' Hwf1 Hrun) as [Hwf' Hdom]. split; [done|].
    rewrite Hdom, Hcontents. destruct o as [k v|k]; cbn [surviving].
    + by rewrite dom_insert_L, (union_comm_L {[k]}).
    + by rewrite dom_delete_L.
Qed.

Lemma reachable_wf (s : TreeT * Heap) : reachableT s → tree_wf std_hash s.1.
Proof. intros [ops Hops]. by eapply (run_wf ops (emptyTree, emptyHeap)). Qed.

End MHashTreeReachable.

(** ** The specified properties of the trie *)

Section MHashTreeClaims.

Context {Key Val : Type} `{Countable Key}.
Variable std_hash : Key → Z.
Variable defaultVal : Val.
Variable indeterminate : option (Node (Key:=Key) (Val:=Val)).

Local Abbreviation NodeT := (Node (Key:=Key) (Val:=Val)).
Local Abbreviation TreeT := (MHashTree (Key:=Key) (Val:=Val)).
Local Abbreviation hashOf k := (to_size_t (std_hash k)).
Local Abbreviation insertT := (MHashTree_insert std_hash indeterminate).
Local Abbreviation removeT := (MHashTree_remove std_hash).
Local Abbreviation getT := (MHashTree_get std_hash defaultVal).
Local Abbreviation reachableT := (reachable std_hash indeterminate).

Lemma reachable_tree_wf (t : TreeT) h : reachableT (t, h) → tree_wf std_hash t.
Proof. apply (reachable_wf std_hash defaultVal indeterminate (t, h)). Qed.

Lemma insert_Ok_spec (t t' : TreeT) h h' k v :
  tree_wf std_hash t → insertT t k v h = Ok (t', h') →
  tree_wf std_hash t' ∧ contents t' = <[k := v]> (contents t) ∧
  (is_Some (contents t !! k) →
   h' = h ∧ shapeOf defaultVal t' = shapeOf defaultVal t).
Proof.
  intros Hwf Hins.
  pose proof (MHashTree_insert_spec std_hash defaultVal indeterminate t k v h Hwf)
    as Hspec.
  by rewrite Hins in Hspec.
Qed.

Lemma remove_Ok_spec (t : TreeT) h k :
  tree_wf std_hash t →
  ∃ t' h',
    removeT t k h = Ok (bool_decide (is_Some (contents t !! k)), t', h') ∧
    tree_wf std_hash t' ∧ contents t' = delete k (contents t).
Proof.
  intros Hwf. pose proof (MHashTree_remove_spec std_hash t k h Hwf) as Hspec.
  destruct (removeT t k h) as [[[b t'] h']|f]; [|done].
  destruct Hspec as (Hwf' & Hc & ->). by exists t', h'.
Qed.

(** [insert] returns unless the trie holds another key whose hash has the
    same twelve slices, in which case the assertion on the depth aborts it;
    in particular it returns when the key is present. *)
Lemma insert_returns (t : TreeT) h k v :
  tree_wf std_hash t →
  (∀ k', is_Some (contents t !! k') → k' ≠ k → ¬ sameSlices std_hash k' k) →
  ∃ t' h', insertT t k v h = Ok (t', h').
Proof.
  intros Hwf Hfree.
  pose proof (MHashTree_insert_spec std_hash defaultVal indeterminate t k v h Hwf)
    as Hspec.
  destruct (insertT t k v h) as [[t' h']|f]; [by exists t', h'|].
  destruct Hspec as (_ & _ & k' & Hin & Hne & Hsame). by destruct (Hfree k' Hin Hne).
Qed.

Lemma insert_present_returns (t : TreeT) h k v :
  tree_wf std_hash t → is_Some (contents t !! k) →
  ∃ t' h', insertT t k v h = Ok (t', h').
Proof.
  intros Hwf [v0 Hin].
  pose proof (MHashTree_insert_spec std_hash defaultVal indeterminate t k v h Hwf)
    as Hspec.
  destruct (insertT t k v h) as [[t' h']|f]; [by exists t', h'|].
  destruct Hspec as (_ & Hnone & _). congruence.
Qed.

(** C1: on a reachable trie, after [insert(k, v)] the call [get(k)] returns
    [v]; a second [insert(k, v2)] returns and makes [get(k)] return [v2]
    (last write wins). *)
Theorem insert_then_get (t t1 : MHashTree (Key:=Key) (Val:=Val)) h h1 k v :
  reachable std_hash indeterminate (t, h) →
  MHashTree_insert std_hash indeterminate t k v h = Ok (t1, h1) →
  MHashTree_get std_hash defaultVal t1 k = Ok v ∧
  ∀ v2, ∃ t2 h2,
    MHashTree_insert std_hash indeterminate t1 k v2 h1 = Ok (t2, h2) ∧
    MHashTree_get std_hash defaultVal t2 k = Ok v2.
Proof.
  intros Hr Hins. apply reachable_tree_wf in Hr.
  destruct (insert_Ok_spec _ _ _ _ _ _ Hr Hins) as (Hwf1 & Hc1 & _).
  split.
  - rewrite (MHashTree_get_spec _ _ _ _ Hwf1), Hc1, lookup_insert_eq. done.
  - intros v2.
    destruct (insert_present_returns t1 h1 k v2 Hwf1) as (t2 & h2 & Hins2).
    { rewrite Hc1, lookup_insert_eq. by eexists. }
    exists t2, h2. split; [done|].
    destruct (insert_Ok_spec _ _ _ _ _ _ Hwf1 Hins2) as (Hwf2 & Hc2 & _).
    rewrite (MHashTree_get_spec _ _ _ _ Hwf2), Hc2, lookup_insert_eq. done.
Qed.

(** The count after a run, in the arithmetic of [unsigned]. *)
Lemma count_after_run (ops : list op) (t : TreeT) h :
  run std_hash indeterminate ops (emptyTree, emptyHeap) = Ok (t, h) →
  MHashTree_count t = Ok (to_uint32 (Z.of_nat (size (surviving ops ∅)))).
Proof.
  intros Hrun.
  destruct (run_wf std_hash defaultVal indeterminate ops (emptyTree, emptyHeap)
              (t, h) I Hrun) as [Hwf Hdom].
  cbn [fst contents emptyTree _root] in Hwf, Hdom. rewrite dom_empty_L in Hdom.
  rewrite (MHashTree_count_spec _ _ Hwf). by rewrite <- Hdom, size_dom.
Qed.

(** C2, as the code has it: after a run of inserts and removes from the
    empty trie, [count()] returns the number of keys inserted and not
    removed since, reduced modulo [2^32] as [unsigned] arithmetic does; it is
    that number whenever fewer than [2^32] keys survive. *)
Theorem count_after_operations (ops : list op)
    (t : MHashTree (Key:=Key) (Val:=Val)) h :
  run std_hash indeterminate ops (emptyTree, emptyHeap) = Ok (t, h) →
  MHashTree_count t = Ok (Z.of_nat (size (surviving ops ∅)) mod 2 ^ 32) ∧
  (Z.of_nat (size (surviving ops ∅)) < 2 ^ 32 →
   MHashTree_count t = Ok (Z.of_nat (size (surviving ops ∅)))).
Proof.
  intros Hrun. rewrite (count_after_run _ _ _ Hrun). unfold to_uint32.
  split; [done|]. intros Hlt. by rewrite Z.mod_small by lia.
Qed.

(** C3: on a reachable trie, after [insert(k, v)] the call [remove(k)]
    returns [true], then [get(k)] returns [Val{}] and a second [remove(k)]
    returns [false]. *)
Theorem insert_remove_get_remove (t t1 : MHashTree (Key:=Key) (Val:=Val))
    h h1 k v :
  reachable std_hash indeterminate (t, h) →
  MHashTree_insert std_hash indeterminate t k v h = Ok (t1, h1) →
  ∃ t2 h2 t3 h3,
    MHashTree_remove std_hash t1 k h1 = Ok (true, t2, h2) ∧
    MHashTree_get std_hash defaultVal t2 k = Ok defaultVal ∧
    MHashTree_remove std_hash t2 k h2 = Ok (false, t3, h3).
Proof.
  intros Hr Hins. apply reachable_tree_wf in Hr.
  destruct (insert_Ok_spec _ _ _ _ _ _ Hr Hins) as (Hwf1 & Hc1 & _).
  destruct (remove_Ok_spec t1 h1 k Hwf1) as (t2 & h2 & Hrem & Hwf2 & Hc2).
  destruct (remove_Ok_spec t2 h2 k Hwf2) as (t3 & h3 & Hrem' & _ & _).
  exists t2, h2, t3, h3.
  rewrite Hc1, lookup_insert_eq, bool_decide_eq_true_2 in Hrem by by eexists.
  rewrite Hc2, lookup_delete_eq, bool_decide_eq_false_2 in Hrem'
    by by intros [??].
  split_and!; [done| |done].
  by rewrite (MHashTree_get_spec _ _ _ _ Hwf2), Hc2, lookup_delete_eq.
Qed.

(** C5: on a reachable trie [get] and [remove] never fail: [get] returns the
    value of the key or [Val{}], [remove] returns whether the key was there,
    and none of the assertions and error branches of the lookup and of
    [remove] is reached. *)
Theorem get_and_remove_never_fail (t : MHashTree (Key:=Key) (Val:=Val)) h k :
  reachable std_hash indeterminate (t, h) →
  MHashTree_get std_hash defaultVal t k
  = Ok (default defaultVal (contents t !! k)) ∧
  ∃ t' h', MHashTree_remove std_hash t k h
           = Ok (bool_decide (is_Some (contents t !! k)), t', h').
Proof.
  intros Hr. apply reachable_tree_wf in Hr. split.
  - by apply MHashTree_get_spec.
  - destruct (remove_Ok_spec t h k Hr) as (t' & h' & Hrem & _). eauto.
Qed.

(** C9: on a reachable trie, [insert(k, v)] of a key that is present
    succeeds without allocating or freeing (the heap is the same), leaves
    every address, capacity, bitmap, slot, hash and key as it was (only leaf
    values can differ), maps [k] to [v], and [get] of any other key returns
    what it returned before. *)
Theorem insert_present_key_frame (t : MHashTree (Key:=Key) (Val:=Val)) h k v :
  reachable std_hash indeterminate (t, h) →
  is_Some (contents t !! k) →
  ∃ t',
    MHashTree_insert std_hash indeterminate t k v h = Ok (t', h) ∧
    shapeOf defaultVal t' = shapeOf defaultVal t ∧
    MHashTree_get std_hash defaultVal t' k = Ok v ∧
    ∀ k', k' ≠ k →
      MHashTree_get std_hash defaultVal t' k' = MHashTree_get std_hash defaultVal t k'.
Proof.
  intros Hr Hin. apply reachable_tree_wf in Hr.
  pose proof (MHashTree_insert_spec std_hash defaultVal indeterminate t k v h Hr)
    as Hspec.
  destruct (insertT t k v h) as [[t' h']|f].
  - destruct Hspec as (Hwf' & Hc & Hframe). destruct (Hframe Hin) as [-> Hshape].
    exists t'. split_and!; [done|done| |].
    + by rewrite (MHashTree_get_spec _ _ _ _ Hwf'), Hc, lookup_insert_eq.
    + intros k' Hne.
      rewrite (MHashTree_get_spec _ _ _ _ Hwf'), (MHashTree_get_spec _ _ _ _ Hr).
      by rewrite Hc, lookup_insert_ne.
  - destruct Hspec as (_ & Hnone & _). destruct Hin as [? Hin]. congruence.
Qed.

End MHashTreeClaims.

Section MHashTreeNodes.

Context {Key Val : Type} `{Countable Key}.
Variable std_hash : Key → Z.
Variable defaultVal : Val.
Variable indeterminate : option (Node (Key:=Key) (Val:=Val)).

Local Abbreviation NodeT := (Node (Key:=Key) (Val:=Val)).
Local Abbreviation TreeT := (MHashTree (Key:=Key) (Val:=Val)).
Local Abbreviation hashOf k := (to_size_t (std_hash k)).

Lemma filter_all {A} (P : A → Prop) `{∀ x, Decision (P x)} (l : list A) :
  Forall P l → filter P l = l.
Proof.
  induction 1 as [|x l Hx Hl IH]; [done|].
  by rewrite filter_cons_True, IH.
Qed.

Lemma interior_wf_counts shift cap bitmap (children : list (option NodeT)) :
  interior_wf std_hash shift cap bitmap children →
  bitmapCountsOwned cap bitmap children = true.
Proof.
  intros (Hs1 & Hs2 & Hbm & Hcap & Hcnt & Hlen & Hslots).
  unfold bitmapCountsOwned, nonNullCount.
  fold (owned bitmap children).
  rewrite filter_all.
  - rewrite <- (Forall2_length _ _ _ Hslots).
    unfold childCount in *. rewrite <- bitCount_bitsOf, Z.eqb_refl.
    rewrite (proj2 (Z.leb_le _ _)) by lia.
    rewrite (proj2 (Z.leb_le _ _)) by trie_lia. done.
  - apply Forall_lookup. intros j slot Hj.
    destruct (Forall2_lookup_r _ _ _ _ _ Hslots Hj) as (b & _ & Hok).
    by destruct slot.
Qed.

(** Every interior node of a trie that satisfies the invariant has as many
    set bits as slots it owns, which are its first ones and are not null,
    and no more than its capacity, which is at most 32. *)
Lemma node_wf_counts (n : NodeT) :
  ∀ shift, node_wf std_hash shift n → everyInterior bitmapCountsOwned n = true.
Proof.
  induction n as [la lh lk lv|a cap bitmap children IH] using Node_slots_ind;
    intros shift Hwf; [done|].
  apply interior_wf_of_node in Hwf. cbn [everyInterior].
  rewrite (interior_wf_counts _ _ _ _ Hwf). cbn [andb].
  apply allFirst_Forall, Forall_lookup. intros j slot Hj.
  fold (owned bitmap children) in Hj.
  assert (is_Some (bitsOf bitmap !! j)) as [b Hb].
  { apply lookup_lt_is_Some. apply lookup_lt_Some in Hj.
    destruct Hwf as (_ & _ & _ & _ & _ & _ & Hslots).
    by rewrite (Forall2_length _ _ _ Hslots). }
  destruct (interior_wf_slot _ _ _ _ _ _ _ Hwf Hb) as (c & Hc & Hc' & Hwfc & _).
  rewrite Hj in Hc. injection Hc as ->.
  rewrite Forall_lookup in IH. by apply (IH _ _ Hc' (shift + kBitShift)).
Qed.

(** C4, as the code has it: in every reachable trie every interior node
    has [popcount(bitmap)] equal to the number of slots it owns, its first
    ones, none of them null, and [popcount(bitmap) <= capacity <= 32];
    insert and remove keep this (get and count change nothing).  A slot past
    the owned ones may hold a pointer that [removeChild] left behind. *)
Theorem interior_nodes_bitmap_counts_owned_slots
    (s : MHashTree (Key:=Key) (Val:=Val) * Heap) :
  reachable std_hash indeterminate s →
  everyNode bitmapCountsOwned s.1 = true.
Proof.
  intros Hr. apply (reachable_wf std_hash defaultVal) in Hr.
  unfold everyNode. unfold tree_wf in Hr.
  destruct (_root s.1) as [root|]; [|done].
  destruct Hr as (Hwf & _). by eapply node_wf_counts.
Qed.

Lemma initialCapacity_level shift :
  0 ≤ shift →
  let level := shift / kBitShift in
  (level = 0 → initialCapacity shift = 4) ∧
  (1 ≤ level ≤ 2 → initialCapacity shift = 3) ∧
  (3 ≤ level → initialCapacity shift = 2).
Proof.
  intros Hs level. unfold initialCapacity. fold level.
  assert (0 ≤ level) by (apply Z.div_pos; trie_lia).
  split_and!; intros Hl.
  - rewrite (proj2 (Z.ltb_lt level 1)), (proj2 (Z.ltb_lt level 3)) by lia. done.
  - rewrite (proj2 (Z.ltb_ge level 1)), (proj2 (Z.ltb_lt level 3)) by lia. done.
  - rewrite (proj2 (Z.ltb_ge level 1)), (proj2 (Z.ltb_ge level 3)) by lia. done.
Qed.

(** C6: when [insert] at [shift] finds in the slot of the key a leaf with
    another key and returns, the slot holds a node that was allocated by
    this call (its address is the next fresh one) and whose capacity is 4
    when [level = shift / 5] is 0, 3 when it is 1 or 2, and 2 from 3 on. *)
Theorem fresh_interior_capacity (fuel : nat) shift a cap bitmap
    (children : list (option (Node (Key:=Key) (Val:=Val))))
    key val h n' h' la lh lk lv :
  interior_wf std_hash shift cap bitmap children →
  hashBits - shift < Z.of_nat fuel →
  let b := childBitNumber (to_size_t (std_hash key)) shift in
  let i := Z.to_nat (childIndexForBitNumber bitmap b) in
  Z.testbit bitmap b = true →
  children !! i = Some (Some (LeafNode la lh lk lv)) →
  lk ≠ key →
  node_insert indeterminate fuel (InteriorNode a cap bitmap children)
    (targetOf std_hash key) val shift h = Ok (n', h') →
  ∃ capn bitmapn childrenn,
    n' = InteriorNode a cap bitmap
           (<[i := Some (InteriorNode (allocated h) capn bitmapn childrenn)]> children) ∧
    let level := shift / kBitShift in
    (level = 0 → capn = 4) ∧
    (1 ≤ level ≤ 2 → capn = 3) ∧
    (3 ≤ level → capn = 2).
Proof.
  intros Hwf Hfuel b i Hbit Hslot Hne Hrun.
  pose proof Hwf as (Hs1 & Hs2 & _).
  destruct fuel as [|fuel]; [trie_lia|].
  pose proof (childBitNumber_range (hashOf key) shift) as Hb. fold b in Hb.
  destruct (interior_wf_child _ _ _ _ _ b Hwf Hb Hbit)
    as (Hbi & Hlt & c & Hc & Hc' & Hwfc & Hsl).
  fold i in Hbi, Hc, Hc'. rewrite Hslot in Hc'. injection Hc' as <-.
  cbn [node_wf] in Hwfc. subst lh.
  cbn [node_insert t_hash t_key targetOf] in Hrun. fold b in Hrun.
  rewrite (proj2 (Z.ltb_lt _ _) Hs2), bind_assert_true in Hrun.
  rewrite hasChild_testbit, Hbit in Hrun by lia. cbn [negb] in Hrun.
  fold i in Hrun.
  rewrite (proj2 (Z.ltb_lt _ _) Hlt), bind_assert_true, Hslot in Hrun.
  rewrite matches_same_key, bool_decide_eq_false_2 in Hrun by done.
  destruct (initialCapacity_range shift Hs1) as [Hic Hu8].
  rewrite (bind_Ok _ _ _ _ _ (newNode_run _ _)), Hu8 in Hrun.
  set (capn := initialCapacity shift) in *.
  set (h1 := mkHeap (S (allocated h)) (freed h)) in *.
  set (leaf := LeafNode la (hashOf lk) lk lv) in *.
  pose proof (childBitNumber_range (hashOf lk) (shift + kBitShift)) as Hb'.
  set (b' := childBitNumber (hashOf lk) (shift + kBitShift)) in *.
  destruct (addChild_fresh indeterminate (allocated h) capn b' leaf h1)
    as [children1 Hadd]; [lia|done|].
  rewrite (bind_Ok _ _ _ _ _ Hadd) in Hrun. cbn [addrOf] in Hrun.
  rewrite bool_decide_eq_true_2, bind_assert_true in Hrun by done.
  destruct (decide (shift + kBitShift + kBitShift < hashBits)) as [Hdeep|Hdeep].
  2: { destruct fuel as [|fuel']; [trie_lia|].
    by rewrite (bind_Fail _ _ _ _
                  (node_insert_too_deep indeterminate _ _ _ _ _ _ _ _ _ Hdeep))
      in Hrun. }
  assert (interior_wf std_hash (shift + kBitShift) capn 0
            (replicate (Z.to_nat capn) (None : option NodeT))) as Hwfn
    by (apply interior_wf_fresh; trie_lia).
  assert (slotOk std_hash (shift + kBitShift) b' (Some leaf)) as Hok'.
  { split; [done|]. intros k v Hkv. unfold leaf in Hkv.
    rewrite leaves_leaf in Hkv.
    apply list_elem_of_singleton in Hkv. by injection Hkv as -> ->. }
  destruct (addChild_spec std_hash indeterminate _ (allocated h) _ _ _ b' leaf h1
              Hwfn Hb' (Z.bits_0 b') Hok')
    as (a1 & cap1 & children1' & h1' & Hadd' & Hwf1 & _ & _).
  rewrite Hadd in Hadd'. injection Hadd' as <- <- <- <-.
  assert (hashBits - (shift + kBitShift) < Z.of_nat fuel) as Hfuel' by trie_lia.
  pose proof (node_insert_spec std_hash defaultVal indeterminate fuel
                (shift + kBitShift) (allocated h) capn (Bitmap.addBit 0 b')
                children1 key val h1 Hwf1 Hfuel') as Hspec.
  unfold bind at 1 in Hrun.
  destruct (node_insert indeterminate fuel
              (InteriorNode (allocated h) capn (Bitmap.addBit 0 b') children1)
              (targetOf std_hash key) val (shift + kBitShift) h1)
    as [[n2 h2]|f]; [|done].
  destruct Hspec as (a2 & cap2 & bitmap2 & children2 & -> & _ & Hsame2 & _).
  destruct Hsame2 as [-> ->]; [left; rewrite childCount_single by done; lia|].
  cbn [addrOf] in Hrun.
  rewrite bool_decide_eq_true_2, bind_assert_true in Hrun by done.
  unfold ret in Hrun. injection Hrun as <- <-.
  exists capn, bitmap2, children2. split; [done|].
  apply initialCapacity_level. done.
Qed.

End MHashTreeNodes.

(** ** smallVector *)

Section SmallVectorProofs.

Context {T : Type}.
Variable N : Z.
Variable defaultT : T.
Variable unwritten : T.

Local Abbreviation vec := (smallVector (T:=T)).
Local Abbreviation setCapacityT := (setCapacity N unwritten).
Local Abbreviation push_backT := (push_back N unwritten).
Local Abbreviation inv := (sv_inv (T:=T) N).

Lemma to_uint32_small z : 0 ≤ z ≤ UINT32_MAX → to_uint32 z = z.
Proof. intros Hz. unfold to_uint32. apply Z.mod_small. unfold UINT32_MAX in Hz. lia. Qed.

Lemma memcpy_Ok {A} (dst src : list A) (n : nat) :
  (n ≤ length src)%nat → (n ≤ length dst)%nat →
  ∃ l, memcpy dst src n = Ok l ∧ length l = length dst.
Proof.
  intros Hs Hd. unfold memcpy. rewrite decide_True by done.
  eexists. split; [done|]. rewrite length_app, length_take, length_drop. lia.
Qed.

Lemma length_reallocated (big : list T) cap :
  length (reallocated unwritten big cap) = Z.to_nat cap.
Proof.
  unfold reallocated. rewrite length_app, length_take, length_replicate. lia.
Qed.

(** What [setCapacity] does to a vector that satisfies the invariant. *)
Lemma setCapacity_cases heapOk cap (sv : vec) :
  inv sv → 0 ≤ cap →
  match setCapacityT heapOk cap sv with
  | Ok sv' =>
      _size sv ≤ cap ≤ UINT32_MAX ∧
      (cap = _capacity sv ∨ cap ≤ N ∨ heapOk = true) ∧
      inv sv' ∧ _capacity sv' = cap ∧ _size sv' = _size sv ∧
      setCapacityCalls sv' = S (setCapacityCalls sv)
  | Fail f =>
      (f = LogicError ∧ cap < _size sv) ∨
      (f = DomainError ∧ UINT32_MAX < cap) ∨
      (f = BadAlloc ∧ _size sv ≤ cap ≤ UINT32_MAX ∧ cap ≠ _capacity sv ∧
       N < cap ∧ heapOk = false)
  end.
Proof.
  intros (Hsize & Hcap & Hsmall & Hbig) Hc. unfold setCapacity.
  cbn [_size _capacity _small _big setCapacityCalls].
  destruct (Z.eqb_spec cap (_capacity sv)) as [Heq|Hne].
  { unfold sv_inv. cbn [_size _capacity _small _big setCapacityCalls].
    split_and!; try done; try lia; auto. }
  destruct (Z.ltb_spec cap (_size sv)) as [Hlt|Hge]; [left; by split|].
  destruct (Z.ltb_spec UINT32_MAX cap) as [Hbig32|Hfits]; [right; left; by split|].
  rewrite to_uint32_small by lia.
  destruct (Z.leb_spec cap N) as [Hinline|Hheap].
  - destruct (_big sv) as [big|] eqn:Heq.
    + destruct Hbig as [HN Hlen].
      destruct (memcpy_Ok (_small sv) big (Z.to_nat (_size sv)))
        as (small & -> & Hlen'); [lia|lia|].
      unfold sv_inv. cbn [rbind _size _capacity _small _big setCapacityCalls].
      split_and!; try done; try lia; auto.
    + unfold sv_inv. cbn [_size _capacity _small _big setCapacityCalls].
      split_and!; try done; try lia; auto.
  - destruct heapOk; cbn [negb].
    2: { right; right. split_and!; (done || lia). }
    destruct (_big sv) as [big|] eqn:Heq.
    + unfold sv_inv. cbn [_size _capacity _small _big setCapacityCalls].
      split_and!; try done; try lia; auto using length_reallocated.
    + destruct (memcpy_Ok (replicate (Z.to_nat cap) unwritten) (_small sv)
                  (Z.to_nat (_size sv)))
        as (newBig & -> & Hlen'); [lia|rewrite length_replicate; lia|].
      rewrite length_replicate in Hlen'.
      unfold sv_inv. cbn [rbind _size _capacity _small _big setCapacityCalls].
      split_and!; try done; try lia; auto.
Qed.

(** C8, as the code has it: on a vector that satisfies the invariant,
    [setCapacity(cap)] throws [logic_error] when [cap] is smaller than the
    size and [domain_error] when [cap >= 2^32]; otherwise it throws
    [bad_alloc] when it needs a heap block ([cap] is not the current capacity
    and exceeds [N]) and the allocation fails, and in every other case it
    succeeds and the capacity is [cap]. *)
Theorem setCapacity_outcomes heapOk cap (sv : smallVector (T:=T)) :
  sv_inv N sv → 0 ≤ cap →
  (cap < _size sv → setCapacity N unwritten heapOk cap sv = Fail LogicError) ∧
  (2 ^ 32 ≤ cap → setCapacity N unwritten heapOk cap sv = Fail DomainError) ∧
  (_size sv ≤ cap < 2 ^ 32 →
   if (cap =? _capacity sv) || (cap <=? N) || heapOk
   then ∃ sv', setCapacity N unwritten heapOk cap sv = Ok sv' ∧
               _capacity sv' = cap
   else setCapacity N unwritten heapOk cap sv = Fail BadAlloc).
Proof.
  intros Hinv Hc. pose proof (setCapacity_cases heapOk cap sv Hinv Hc) as Hcases.
  pose proof Hinv as (Hsize & Hcap & _).
  unfold UINT32_MAX in *.
  destruct (setCapacityT heapOk cap sv) as [sv'|f].
  - destruct Hcases as (Hrange & Hwhy & _ & Hcap' & _). split_and!; [lia|lia|].
    intros _.
    assert ((cap =? _capacity sv) || (cap <=? N) || heapOk = true) as ->.
    { destruct Hwhy as [->|[Hle| ->]].
      - by rewrite Z.eqb_refl.
      - rewrite (proj2 (Z.leb_le cap N) Hle). by rewrite orb_true_r.
      - by rewrite orb_true_r. }
    by exists sv'.
  - destruct Hcases as [[-> Hlt]|[[-> Hbig]|(-> & Hrange & Hne & HN & ->)]].
    + split_and!; [done|lia|lia].
    + split_and!; [lia|done|lia].
    + split_and!; [lia|lia|]. intros _.
      rewrite (proj2 (Z.eqb_neq _ _) Hne), (proj2 (Z.leb_gt _ _) HN). done.
Qed.

Lemma store_Ok {A} (a : list A) i x :
  0 ≤ i < Z.of_nat (length a) →
  ∃ a', store a i x = Ok a' ∧ length a' = length a.
Proof.
  intros Hi. unfold store. rewrite decide_True by done.
  eexists. split; [done|]. by rewrite length_insert.
Qed.

Lemma baseOf_length (sv : vec) :
  inv sv → _capacity sv ≤ Z.of_nat (length (baseOf sv)).
Proof.
  intros (Hsize & Hcap & Hsmall & Hbig). unfold baseOf.
  destruct (_big sv) as [big|]; [destruct Hbig|]; lia.
Qed.

Lemma withBase_inv (sv : vec) base :
  inv sv → length base = length (baseOf sv) → inv (withBase sv base).
Proof.
  intros (Hsize & Hcap & Hsmall & Hbig) Hlen. unfold withBase, baseOf, sv_inv in *.
  destruct (_big sv) as [big|]; cbn [_size _capacity _small _big];
    split_and!; try done; try lia.
Qed.

Lemma withSize_inv (sv : vec) size :
  inv sv → 0 ≤ size ≤ _capacity sv → inv (withSize sv size).
Proof.
  intros (Hsize & Hcap & Hsmall & Hbig) Hs. unfold withSize, sv_inv.
  cbn [_size _capacity _small _big]. split_and!; try done; lia.
Qed.

(** What [push_back] does to a vector that satisfies the invariant. *)
Lemma push_back_cases heapOk t (sv : vec) :
  inv sv →
  match push_backT heapOk t sv with
  | Ok sv' =>
      inv sv' ∧ _size sv' = _size sv + 1 ∧
      if _capacity sv <=? _size sv
      then _capacity sv' = grownCapacity sv ∧
           grownCapacity sv ≤ UINT32_MAX ∧
           (grownCapacity sv ≤ N ∨ heapOk = true)
      else _capacity sv' = _capacity sv ∧ onHeap sv' = onHeap sv ∧
           setCapacityCalls sv' = setCapacityCalls sv
  | Fail f =>
      _capacity sv ≤ _size sv ∧
      ((f = DomainError ∧ UINT32_MAX < grownCapacity sv) ∨
       (f = BadAlloc ∧ grownCapacity sv ≤ UINT32_MAX ∧
        N < grownCapacity sv ∧ heapOk = false))
  end.
Proof.
  intros Hinv. pose proof Hinv as (Hsize & Hcap & _).
  unfold push_back, _grow. fold (grownCapacity sv).
  assert (_size sv + 1 ≤ grownCapacity sv) as Hgrown by (unfold grownCapacity; lia).
  destruct (Z.leb_spec (_capacity sv) (_size sv)) as [Hfull|Hroom].
  - pose proof (setCapacity_cases heapOk (grownCapacity sv) sv Hinv) as Hcases.
    destruct (setCapacityT heapOk (grownCapacity sv) sv) as [sv1|f].
    + destruct Hcases as (Hrange & Hwhy & Hinv1 & Hcap1 & Hsize1 & _); [lia|].
      cbn [rbind fst snd]. rewrite Hsize1, to_uint32_small by lia.
      assert (inv (withSize sv1 (_size sv + 1))) as Hinv2
        by (apply withSize_inv; [done|lia]).
      destruct (store_Ok (baseOf (withSize sv1 (_size sv + 1))) (_size sv) t)
        as (base & -> & Hlen).
      { pose proof (baseOf_length _ Hinv2) as Hb.
        unfold withSize in Hb at 1. cbn [_capacity] in Hb. lia. }
      cbn [rbind]. split; [by apply withBase_inv|].
      unfold withBase, withSize. cbn [_big].
      destruct (_big sv1); cbn [_size _capacity]; split_and!; try done; try lia.
      * destruct Hwhy as [?|[?|?]]; auto; lia.
      * destruct Hwhy as [?|[?|?]]; auto; lia.
    + cbn [rbind]. split; [done|].
      destruct Hcases as [[_ ?]|[[-> ?]|(-> & ? & _ & ? & ->)]]; [lia|lia|auto|].
      right. split_and!; (done || lia).
  - cbn [rbind fst snd]. rewrite to_uint32_small by lia.
    assert (inv (withSize sv (_size sv + 1))) as Hinv2
      by (apply withSize_inv; [done|lia]).
    destruct (store_Ok (baseOf (withSize sv (_size sv + 1))) (_size sv) t)
      as (base & -> & Hlen).
    { pose proof (baseOf_length _ Hinv2) as Hb.
      unfold withSize in Hb at 1. cbn [_capacity] in Hb. lia. }
    cbn [rbind]. split; [by apply withBase_inv|].
    unfold withBase, withSize, onHeap. cbn [_big].
    destruct (_big sv); cbn [_size _capacity _big setCapacityCalls]; done.
Qed.

(** C7, as the code has it: on a vector that satisfies the invariant and
    whose size equals its capacity, [push_back] (and [emplace_back], which
    is the same code) asks [setCapacity] for
    [max(capacity + capacity/2, size + 1)]; the capacity becomes that value
    when it fits [uint32_t] and either fits the inline buffer or the
    allocation succeeds, and otherwise the push throws [domain_error] or
    [bad_alloc].  A push when the size is below the capacity succeeds and
    leaves the capacity unchanged. *)
Theorem push_back_capacity heapOk t (sv : smallVector (T:=T)) :
  sv_inv N sv →
  (_size sv = _capacity sv →
   if (grownCapacity sv <=? UINT32_MAX) && ((grownCapacity sv <=? N) || heapOk)
   then ∃ sv', push_back N unwritten heapOk t sv = Ok sv' ∧
               emplace_back N unwritten heapOk t sv = Ok sv' ∧
               _capacity sv' = grownCapacity sv
   else ∃ f, push_back N unwritten heapOk t sv = Fail f ∧
             emplace_back N unwritten heapOk t sv = Fail f ∧
             (f = DomainError ∨ f = BadAlloc)) ∧
  (_size sv < _capacity sv →
   ∃ sv', push_back N unwritten heapOk t sv = Ok sv' ∧
          emplace_back N unwritten heapOk t sv = Ok sv' ∧
          _capacity sv' = _capacity sv).
Proof.
  intros Hinv. pose proof (push_back_cases heapOk t sv Hinv) as Hcases.
  unfold emplace_back.
  destruct (push_backT heapOk t sv) as [sv'|f]; split.
  - intros Hfull. rewrite (proj2 (Z.leb_le _ _)) in Hcases by lia.
    destruct Hcases as (_ & _ & Hcap' & Hfits & Hwhy).
    rewrite (proj2 (Z.leb_le _ _) Hfits).
    assert ((grownCapacity sv <=? N) || heapOk = true) as ->.
    { destruct Hwhy as [Hle| ->]; [|by rewrite orb_true_r].
      by rewrite (proj2 (Z.leb_le _ _) Hle). }
    by exists sv'.
  - intros Hroom. rewrite (proj2 (Z.leb_gt _ _)) in Hcases by lia.
    destruct Hcases as (_ & _ & Hcap' & _). by exists sv'.
  - intros Hfull. destruct Hcases as [_ [[-> Hover]|(-> & Hfits & HN & ->)]].
    + rewrite (proj2 (Z.leb_gt _ _) Hover). cbn [andb]. exists DomainError. auto.
    + rewrite (proj2 (Z.leb_gt _ _) HN), orb_false_r, andb_false_r.
      exists BadAlloc. auto.
  - intros Hroom. destruct Hcases as [Hfull _]. lia.
Qed.

(** A full vector whose grown capacity does not fit [uint32_t]. *)
Lemma push_back_overflow heapOk t (sv : vec) :
  _size sv = _capacity sv → 0 ≤ _size sv →
  UINT32_MAX < grownCapacity sv →
  push_backT heapOk t sv = Fail DomainError.
Proof.
  intros Hfull Hsize Hover. unfold push_back, _grow. fold (grownCapacity sv).
  rewrite (proj2 (Z.leb_le _ _)) by lia. unfold setCapacity.
  cbn [_size _capacity _small _big setCapacityCalls].
  assert (_size sv + 1 ≤ grownCapacity sv) by (unfold grownCapacity; lia).
  rewrite (proj2 (Z.eqb_neq _ _)) by lia.
  rewrite (proj2 (Z.ltb_ge _ _)) by lia.
  by rewrite (proj2 (Z.ltb_lt _ _)) by lia.
Qed.

(** The capacity, where the elements are, and the calls of [setCapacity]
    are the same in two vectors. *)
Lemma withSize_storage (sv : vec) size :
  _capacity (withSize sv size) = _capacity sv ∧
  onHeap (withSize sv size) = onHeap sv ∧
  setCapacityCalls (withSize sv size) = setCapacityCalls sv.
Proof. done. Qed.

Lemma withBase_storage (sv : vec) base :
  _capacity (withBase sv base) = _capacity sv ∧
  onHeap (withBase sv base) = onHeap sv ∧
  setCapacityCalls (withBase sv base) = setCapacityCalls sv.
Proof. unfold withBase, onHeap. by destruct (_big sv). Qed.

Lemma shrinkTo_storage sz (sv sv' : vec) :
  shrinkTo sz sv = Ok sv' →
  _capacity sv' = _capacity sv ∧ onHeap sv' = onHeap sv ∧
  setCapacityCalls sv' = setCapacityCalls sv.
Proof.
  unfold shrinkTo. destruct (sz <? _size sv); intros [= <-]; [|done].
  apply withSize_storage.
Qed.

Lemma pop_back_storage (sv sv' : vec) :
  pop_back sv = Ok sv' →
  _capacity sv' = _capacity sv ∧ onHeap sv' = onHeap sv ∧
  setCapacityCalls sv' = setCapacityCalls sv.
Proof.
  unfold pop_back. destruct (sv_get sv _); intros [= <-].
  apply withSize_storage.
Qed.

Lemma erase_storage first last (sv sv' : vec) :
  erase first last sv = Ok sv' →
  _capacity sv' = _capacity sv ∧ onHeap sv' = onHeap sv ∧
  setCapacityCalls sv' = setCapacityCalls sv.
Proof.
  unfold erase. destruct (negb _); intros [= <-].
  destruct (withSize_storage (withBase sv (memmove (baseOf sv) (Z.to_nat first)
              (Z.to_nat last) (Z.to_nat (_size sv - last))))
              (to_uint32 (_size sv - (last - first)))) as (-> & -> & ->).
  apply withBase_storage.
Qed.

Lemma setCapacity_calls heapOk cap (sv sv' : vec) :
  setCapacityT heapOk cap sv = Ok sv' →
  setCapacityCalls sv' = S (setCapacityCalls sv).
Proof.
  unfold setCapacity. cbn [_size _capacity _small _big setCapacityCalls].
  destruct (cap =? _capacity sv); [by intros [= <-]|].
  destruct (cap <? _size sv); [done|].
  destruct (UINT32_MAX <? cap); [done|].
  destruct (cap <=? N).
  - destruct (_big sv) as [big|]; [|by intros [= <-]].
    destruct (memcpy _ _ _); [|done]. cbn [rbind]. by intros [= <-].
  - destruct heapOk; [|done]. cbn [negb].
    destruct (_big sv) as [big|]; [by intros [= <-]|].
    destruct (memcpy _ _ _); [|done]. cbn [rbind]. by intros [= <-].
Qed.

(** An operation other than a move changes the capacity or the place of
    the elements only in a call of [setCapacity]. *)
Lemma exec_storage heapOk (o : svOp) (sv sv' : vec) :
  isMove o = false →
  exec N defaultT unwritten heapOk o sv = Ok sv' →
  (_capacity sv' = _capacity sv ∧ onHeap sv' = onHeap sv ∧
   setCapacityCalls sv' = setCapacityCalls sv) ∨
  (setCapacityCalls sv < setCapacityCalls sv')%nat.
Proof.
  assert (∀ t, push_backT heapOk t sv = Ok sv' →
    (_capacity sv' = _capacity sv ∧ onHeap sv' = onHeap sv ∧
     setCapacityCalls sv' = setCapacityCalls sv) ∨
    (setCapacityCalls sv < setCapacityCalls sv')%nat) as Hpush.
  { intros t. unfold push_back, _grow.
    destruct (_capacity sv <=? _size sv).
    - destruct (setCapacityT heapOk _ sv) as [sv1|] eqn:Hset; [|done].
      cbn [rbind fst snd]. destruct (store _ _ _) as [base|]; [|done].
      intros [= <-]. right.
      destruct (withBase_storage (withSize sv1 (to_uint32 (_size sv1 + 1))) base)
        as (_ & _ & ->).
      cbn [withSize setCapacityCalls].
      rewrite (setCapacity_calls _ _ _ _ Hset). lia.
    - cbn [rbind fst snd]. destruct (store _ _ _) as [base|]; [|done].
      intros [= <-]. left.
      destruct (withBase_storage (withSize sv (to_uint32 (_size sv + 1))) base)
        as (-> & -> & ->). done. }
  intros Hmove Hexec. destruct o; cbn [exec isMove] in *; try done.
  - by eapply Hpush.
  - by eapply Hpush.
  - left. by apply pop_back_storage.
  - left. by eapply erase_storage.
  - left. by eapply shrinkTo_storage.
  - unfold resize in Hexec. destruct (_size sv <? sz); [|left; by eapply shrinkTo_storage].
    destruct (_capacity sv <? sz).
    + destruct (setCapacityT heapOk _ sv) as [sv1|] eqn:Hset; [|done].
      cbn [rbind] in Hexec.
      destruct (negb _); [done|]. destruct (decide _); [|done].
      injection Hexec as <-. right.
      destruct (withBase_storage (withSize sv1 (to_uint32 sz))
                  (take (Z.to_nat (_size sv1)) (baseOf (withSize sv1 (to_uint32 sz)))
                   ++ replicate (Z.to_nat (sz - _size sv1)) defaultT
                   ++ drop (Z.to_nat sz) (baseOf (withSize sv1 (to_uint32 sz)))))
        as (_ & _ & ->).
      cbn [withSize setCapacityCalls].
      rewrite (setCapacity_calls _ _ _ _ Hset). lia.
    + cbn [rbind] in Hexec.
      destruct (negb _); [done|]. destruct (decide _); [|done].
      injection Hexec as <-. left.
      destruct (withBase_storage (withSize sv (to_uint32 sz))
                  (take (Z.to_nat (_size sv)) (baseOf (withSize sv (to_uint32 sz)))
                   ++ replicate (Z.to_nat (sz - _size sv)) defaultT
                   ++ drop (Z.to_nat sz) (baseOf (withSize sv (to_uint32 sz)))))
        as (-> & -> & ->).
      done.
  - unfold reserve in Hexec. destruct (_capacity sv <? cap).
    + right. rewrite (setCapacity_calls _ _ _ _ Hexec). lia.
    + injection Hexec as <-. by left.
  - right. rewrite (setCapacity_calls _ _ _ _ Hexec). lia.
Qed.

(** C10, as the code has it: [pop_back], [erase], [clear] and [resize] to
    a size that is not larger leave the capacity and the place of the
    elements (inline buffer or heap block) as they are, without calling
    [setCapacity]; and every operation other than a move changes the
    capacity or the place of the elements only in a call of [setCapacity]
    (made directly, by [reserve], or by the growth in [push_back],
    [emplace_back] and [resize]). *)
Theorem shrinking_keeps_capacity_and_storage (sv sv' : smallVector (T:=T)) :
  (pop_back sv = Ok sv' ∨
   (∃ first last, erase first last sv = Ok sv') ∨
   clear sv = Ok sv' ∨
   (∃ heapOk sz, sz ≤ _size sv ∧
      resize N defaultT unwritten heapOk sz sv = Ok sv') →
   _capacity sv' = _capacity sv ∧ onHeap sv' = onHeap sv ∧
   setCapacityCalls sv' = setCapacityCalls sv) ∧
  (∀ heapOk o,
     isMove o = false →
     exec N defaultT unwritten heapOk o sv = Ok sv' →
     _capacity sv' ≠ _capacity sv ∨ onHeap sv' ≠ onHeap sv →
     (setCapacityCalls sv < setCapacityCalls sv')%nat).
Proof.
  split.
  - intros [Hpop|[(first & last & Herase)|[Hclear|(heapOk & sz & Hsz & Hresize)]]].
    + by apply pop_back_storage.
    + by eapply erase_storage.
    + by eapply shrinkTo_storage.
    + unfold resize in Hresize. rewrite (proj2 (Z.ltb_ge _ _)) in Hresize by lia.
      by eapply shrinkTo_storage.
  - intros heapOk o Hmove Hexec Hchanged.
    destruct (exec_storage heapOk o sv sv' Hmove Hexec) as [(Hc & Hh & _)|Hcalls];
      [|done].
    destruct Hchanged; congruence.
Qed.

(** The invariant holds of a new vector and every operation that returns
    keeps it (a move, when its source satisfies it). *)
Lemma newVector_inv : 0 ≤ N ≤ UINT32_MAX → inv (newVector N unwritten).
Proof.
  intros HN. unfold sv_inv, newVector. cbn [_size _capacity _small _big].
  rewrite to_uint32_small by done. rewrite length_replicate. lia.
Qed.



(** [resize(sz)] of a new vector to a size beyond [N] when the allocation
    succeeds: size and capacity are [sz]. *)
Lemma resize_new (sz : Z) :
  0 ≤ N → N < sz → sz ≤ UINT32_MAX → N + N / 2 ≤ sz →
  resize N defaultT unwritten true sz (newVector N unwritten)
  = Ok (mkVector sz sz (replicate (Z.to_nat N) unwritten)
          (Some (replicate (Z.to_nat sz) defaultT)) 1).
Proof.
  intros HN Hsz Hmax Hgrow. unfold resize, newVector.
  cbn [_size _capacity _small _big setCapacityCalls].
  rewrite (to_uint32_small N) by lia.
  rewrite (proj2 (Z.ltb_lt 0 sz)) by lia.
  rewrite (proj2 (Z.ltb_lt N sz)) by lia.
  rewrite Z.max_r by lia.
  unfold setCapacity. cbn [_size _capacity _small _big setCapacityCalls].
  rewrite (proj2 (Z.eqb_neq sz N)) by lia.
  rewrite (proj2 (Z.ltb_ge sz 0)) by lia.
  rewrite (proj2 (Z.ltb_ge UINT32_MAX sz)) by lia.
  rewrite (proj2 (Z.leb_gt sz N)) by lia.
  cbn [negb]. unfold memcpy.
  rewrite decide_True by (change (Z.to_nat 0) with 0%nat; lia).
  change (Z.to_nat 0) with 0%nat. rewrite take_0, drop_0, app_nil_l.
  cbn [rbind]. rewrite (to_uint32_small sz) by lia.
  unfold withSize at 1. cbn [_size _capacity _small _big setCapacityCalls].
  rewrite Z.leb_refl. cbn [negb]. unfold withSize, baseOf, withBase.
  cbn [_size _capacity _small _big setCapacityCalls].
  rewrite decide_True by (rewrite length_replicate; lia).
  rewrite take_0, app_nil_l, Z.sub_0_r.
  rewrite drop_ge by (rewrite length_replicate; lia).
  by rewrite app_nil_r.
Qed.

End SmallVectorProofs.

(** ** Many keys: the count in the arithmetic of [unsigned] *)

(** Keys below [2^60] that agree on the twelve slices are equal. *)
Lemma sameSlices_small (a b : Z) :
  0 ≤ a < 2 ^ 60 → 0 ≤ b < 2 ^ 60 → sameSlices exHash a b → a = b.
Proof.
  intros Ha Hb Hs. apply Z.bits_inj'. intros i Hi.
  destruct (decide (i < 60)) as [Hlt|Hge].
  - specialize (Hs (Z.to_nat (i / 5))).
    assert (0 ≤ i / 5 < 12) as Hq by (split; [apply Z.div_pos; lia | apply Z.div_lt_upper_bound; lia]).
    rewrite Z2Nat.id in Hs by lia.
    assert (5 * (i / 5) + kBitShift < hashBits) as Hd by trie_lia.
    specialize (Hs Hd).
    apply (f_equal (λ x, Z.testbit x (i mod 5))) in Hs.
    unfold childBitNumber, exHash, to_size_t in Hs.
    rewrite !(Z.mod_small _ (2 ^ 64)) in Hs by lia.
    pose proof (Z.mod_pos_bound i 5 ltac:(lia)) as Hm.
    rewrite !Z.land_spec, !Z.shiftr_spec in Hs by lia.
    replace (i mod 5 + 5 * (i / 5)) with i in Hs by (pose proof (Z.div_mod i 5); lia).
    replace (Z.testbit (kMaxChildren - 1) (i mod 5)) with true in Hs.
    + by rewrite !andb_true_r in Hs.
    + change (kMaxChildren - 1) with (Z.ones 5). symmetry. apply Z.ones_spec_low. lia.
  - assert (∀ x, 0 ≤ x < 2 ^ 60 → Z.testbit x i = false) as Hhigh.
    { intros x Hx. destruct (decide (x = 0)) as [->|Hnz]; [apply Z.bits_0|].
      apply Z.bits_above_log2; [lia|].
      assert (Z.log2 x < 60); [|lia]. apply Z.log2_lt_pow2; lia. }
    by rewrite !Hhigh.
Qed.

(** Inserting the keys [0 .. n-1] succeeds as long as they are below [2^60],
    and the trie then holds exactly these keys. *)
Lemma manyInserts_run (n : nat) :
  Z.of_nat n ≤ 2 ^ 60 →
  ∃ s, exRun (manyInserts n) = Ok s ∧ tree_wf exHash s.1 ∧
       ∀ k, k ∈ dom (contents s.1) ↔ 0 ≤ k < Z.of_nat n.
Proof.
  induction n as [|n IH]; intros Hn.
  - exists (emptyTree, emptyHeap). split; [reflexivity|]. split; [exact I|].
    intros k. cbn [fst contents emptyTree _root]. rewrite dom_empty_L, elem_of_empty. lia.
  - destruct IH as (s & Hrun & Hwf & Hdom); [lia|].
    unfold exRun, manyInserts in *. rewrite seq_S, fmap_app, run_app, Hrun.
    cbn [rbind fmap list_fmap plus run step].
    pose proof (MHashTree_insert_spec exHash 0 None s.1 (Z.of_nat n) 0 s.2 Hwf) as Hins.
    destruct (MHashTree_insert exHash None s.1 (Z.of_nat n) 0 s.2) as [[t' h']|f].
    + destruct Hins as (Hwf' & Hc & _). exists (t', h'). split; [reflexivity|].
      split; [exact Hwf'|]. intros k. cbn [fst]. rewrite Hc, dom_insert_L, elem_of_union, Hdom.
      rewrite elem_of_singleton. lia.
    + exfalso. destruct Hins as (_ & _ & k' & Hin & Hne & Hs).
      apply elem_of_dom, Hdom in Hin. apply Hne, sameSlices_small; [lia|lia|exact Hs].
Qed.

(** The surviving keys of [manyInserts n] are [n] in number. *)
Lemma manyInserts_surviving (n : nat) :
  Z.of_nat n ≤ 2 ^ 60 → size (surviving (manyInserts n) ∅) = n.
Proof.
  intros Hn. destruct (manyInserts_run n Hn) as (s & Hrun & _ & Hdom).
  destruct (run_wf exHash 0 None (manyInserts n) (emptyTree, emptyHeap) s I Hrun)
    as [_ Hsurv].
  cbn [fst contents emptyTree _root] in Hsurv. rewrite dom_empty_L in Hsurv.
  rewrite <- Hsurv.
  assert (dom (contents s.1) = list_to_set (Z.of_nat <$> seq 0 n)) as ->.
  { apply set_eq. intros k. rewrite Hdom, elem_of_list_to_set, list_elem_of_fmap.
    split.
    - intros Hk. exists (Z.to_nat k). split; [lia|]. apply elem_of_seq. lia.
    - intros (i & -> & Hi). apply elem_of_seq in Hi. lia. }
  rewrite size_list_to_set, length_fmap, length_seq; [done|].
  apply NoDup_fmap; [apply _|apply NoDup_seq].
Qed.

(** With [2^32] keys the count comes back as 0. *)
Lemma manyInserts_count_wraps (n : nat) :
  Z.of_nat n = 2 ^ 32 →
  ∃ t h,
    exRun (manyInserts n) = Ok (t, h) ∧
    Z.of_nat (size (surviving (manyInserts n) ∅)) = 2 ^ 32 ∧
    MHashTree_count t = Ok 0 ∧
    MHashTree_count t ≠ Ok (Z.of_nat (size (surviving (manyInserts n) ∅))).
Proof.
  intros Hn.
  destruct (manyInserts_run n) as ([t h] & Hrun & _); [lia|].
  pose proof (manyInserts_surviving n ltac:(lia)) as Hsize.
  exists t, h. split; [exact Hrun|]. rewrite Hsize. split; [exact Hn|].
  rewrite (count_after_run exHash 0 None _ _ _ Hrun), Hsize, Hn.
  split; [reflexivity|]. unfold to_uint32. rewrite Z.mod_same by lia. intros [=].
Qed.

(** ** The properties on concrete tries *)

Lemma exTrie_reachable : reachable exHash None (exTrie, exHeap).
Proof. exists exCollidingOps. vm_compute. reflexivity. Qed.

Lemma insert_then_get_witness :
  reachable exHash None (exTrie, exHeap) ∧
  MHashTree_insert exHash None exTrie 33 12 exHeap = Ok (exTrie2, exHeap2) ∧
  MHashTree_get exHash 0 exTrie2 33 = Ok 12 ∧
  ∀ v2, ∃ t2 h2, MHashTree_insert exHash None exTrie2 33 v2 exHeap2 = Ok (t2, h2) ∧
                 MHashTree_get exHash 0 t2 33 = Ok v2.
Proof.
  assert (MHashTree_insert exHash None exTrie 33 12 exHeap = Ok (exTrie2, exHeap2))
    as Hinsert by (vm_compute; reflexivity).
  split; [exact exTrie_reachable|]. split; [exact Hinsert|].
  exact (insert_then_get exHash 0 None exTrie exTrie2 exHeap exHeap2 33 12
           exTrie_reachable Hinsert).
Defined.

Lemma count_after_operations_witness :
  exRun exStaleOps = Ok (exAfter exStaleOps) ∧
  MHashTree_count (exAfter exStaleOps).1
  = Ok (Z.of_nat (size (surviving exStaleOps ∅)) mod 2 ^ 32) ∧
  (Z.of_nat (size (surviving exStaleOps ∅)) < 2 ^ 32 →
   MHashTree_count (exAfter exStaleOps).1
   = Ok (Z.of_nat (size (surviving exStaleOps ∅)))).
Proof.
  assert (run exHash None exStaleOps (emptyTree, emptyHeap)
          = Ok ((exAfter exStaleOps).1, (exAfter exStaleOps).2))
    as Hrun by (vm_compute; reflexivity).
  split; [vm_compute; reflexivity|].
  exact (count_after_operations exHash 0 None exStaleOps _ _ Hrun).
Defined.

Lemma insert_remove_get_remove_witness :
  reachable exHash None (exTrie, exHeap) ∧
  MHashTree_insert exHash None exTrie 33 12 exHeap = Ok (exTrie2, exHeap2) ∧
  ∃ t2 h2 t3 h3,
    MHashTree_remove exHash exTrie2 33 exHeap2 = Ok (true, t2, h2) ∧
    MHashTree_get exHash 0 t2 33 = Ok 0 ∧
    MHashTree_remove exHash t2 33 h2 = Ok (false, t3, h3).
Proof.
  assert (MHashTree_insert exHash None exTrie 33 12 exHeap = Ok (exTrie2, exHeap2))
    as Hinsert by (vm_compute; reflexivity).
  split; [exact exTrie_reachable|]. split; [exact Hinsert|].
  exact (insert_remove_get_remove exHash 0 None exTrie exTrie2 exHeap exHeap2 33 12
           exTrie_reachable Hinsert).
Defined.

Lemma interior_nodes_bitmap_counts_owned_slots_witness :
  reachable exHash None (exAfter exStaleOps) ∧
  everyNode bitmapCountsOwned (exAfter exStaleOps).1 = true.
Proof.
  assert (reachable exHash None (exAfter exStaleOps)) as Hreach
    by (exists exStaleOps; vm_compute; reflexivity).
  split; [exact Hreach|].
  exact (interior_nodes_bitmap_counts_owned_slots exHash 0 None _ Hreach).
Defined.

Lemma get_and_remove_never_fail_witness :
  reachable exHash None (exTrie, exHeap) ∧
  MHashTree_get exHash 0 exTrie 33 = Ok (default 0 (contents exTrie !! 33)) ∧
  ∃ t' h', MHashTree_remove exHash exTrie 33 exHeap
           = Ok (bool_decide (is_Some (contents exTrie !! 33)), t', h').
Proof.
  split; [exact exTrie_reachable|].
  exact (get_and_remove_never_fail exHash 0 None exTrie exHeap 33 exTrie_reachable).
Defined.

Lemma exRootChildren_wf : interior_wf exHash 0 32 2 exRootChildren.
Proof.
  assert (reachable exHash None (exAfter [Insert 1 10])) as Hreach
    by (exists [Insert 1 10]; vm_compute; reflexivity).
  apply (reachable_wf exHash 0 None) in Hreach.
  assert (_root (exAfter [Insert 1 10]).1 = Some (InteriorNode 0 32 2 exRootChildren))
    as Hroot by (vm_compute; reflexivity).
  destruct (tree_wf_root exHash _ _ Hroot Hreach)
    as (a & bitmap & children & Heq & Hwf).
  by injection Heq as <- <- <-.
Qed.

Lemma fresh_interior_capacity_witness :
  interior_wf exHash 0 32 2 exRootChildren ∧
  hashBits - 0 < Z.of_nat (insertFuel 0) ∧
  Z.testbit 2 (childBitNumber (to_size_t (exHash 33)) 0) = true ∧
  exRootChildren !! Z.to_nat (childIndexForBitNumber 2
                                (childBitNumber (to_size_t (exHash 33)) 0))
  = Some (Some (LeafNode 1 1 1 10)) ∧
  1 ≠ 33 ∧
  node_insert None (insertFuel 0) (InteriorNode 0 32 2 exRootChildren)
    (targetOf exHash 33) 11 0 (mkHeap 2 []) = Ok (exSplitRoot, mkHeap 4 []) ∧
  ∃ capn bitmapn childrenn,
    exSplitRoot
    = InteriorNode 0 32 2
        (<[Z.to_nat (childIndexForBitNumber 2
                       (childBitNumber (to_size_t (exHash 33)) 0))
           := Some (InteriorNode 2 capn bitmapn childrenn)]> exRootChildren) ∧
    ((0 / kBitShift = 0 → capn = 4) ∧
     (1 ≤ 0 / kBitShift ≤ 2 → capn = 3) ∧
     (3 ≤ 0 / kBitShift → capn = 2)).
Proof.
  assert (hashBits - 0 < Z.of_nat (insertFuel 0)) as Hfuel by (vm_compute; reflexivity).
  assert (Z.testbit 2 (childBitNumber (to_size_t (exHash 33)) 0) = true) as Hbit
    by (vm_compute; reflexivity).
  assert (exRootChildren !! Z.to_nat (childIndexForBitNumber 2
                                (childBitNumber (to_size_t (exHash 33)) 0))
          = Some (Some (LeafNode 1 1 1 10))) as Hslot by (vm_compute; reflexivity).
  assert (1 ≠ 33) as Hkey by lia.
  assert (node_insert None (insertFuel 0) (InteriorNode 0 32 2 exRootChildren)
            (targetOf exHash 33) 11 0 (mkHeap 2 []) = Ok (exSplitRoot, mkHeap 4 []))
    as Hinsert by (vm_compute; reflexivity).
  split_and!; [exact exRootChildren_wf|exact Hfuel|exact Hbit|exact Hslot|exact Hkey
              |exact Hinsert|].
  exact (fresh_interior_capacity exHash 0 None (insertFuel 0) 0 0%nat 32 2
           exRootChildren 33 11 (mkHeap 2 []) exSplitRoot (mkHeap 4 [])
           1%nat 1 1 10 exRootChildren_wf Hfuel Hbit Hslot Hkey Hinsert).
Defined.

Lemma insert_present_key_frame_witness :
  reachable exHash None (exTrie, exHeap) ∧
  is_Some (contents exTrie !! 33) ∧
  ∃ t',
    MHashTree_insert exHash None exTrie 33 12 exHeap = Ok (t', exHeap) ∧
    shapeOf 0 t' = shapeOf 0 exTrie ∧
    MHashTree_get exHash 0 t' 33 = Ok 12 ∧
    ∀ k', k' ≠ 33 → MHashTree_get exHash 0 t' k' = MHashTree_get exHash 0 exTrie k'.
Proof.
  assert (is_Some (contents exTrie !! 33)) as Hpresent
    by (exists 11; vm_compute; reflexivity).
  split; [exact exTrie_reachable|]. split; [exact Hpresent|].
  exact (insert_present_key_frame exHash 0 None exTrie exHeap 33 12
           exTrie_reachable Hpresent).
Defined.

(** Where the statements of the specification stop short *)

(** C2: when [2^32] keys survive, [count()] returns 0: the count is an
    [unsigned]. *)
Lemma count_of_2_32_keys_counterexample :
  ∃ t h,
    exRun (manyInserts (Z.to_nat (2 ^ 32))) = Ok (t, h) ∧
    Z.of_nat (size (surviving (manyInserts (Z.to_nat (2 ^ 32))) ∅)) = 2 ^ 32 ∧
    MHashTree_count t = Ok 0 ∧
    MHashTree_count t
    ≠ Ok (Z.of_nat (size (surviving (manyInserts (Z.to_nat (2 ^ 32))) ∅))).
Proof.
  apply manyInserts_count_wraps, Z2Nat.id. lia.
Qed.

(** C4: after [exStaleOps] the node at the fifth level has one bit set and
    two slots that are not null: [removeChild] moved the second slot into the
    first one and left the second as it was. *)
Lemma bitmap_counts_nonnull_counterexample :
  reachable exHash None (exAfter exStaleOps) ∧
  everyNode bitmapCountsNonNull (exAfter exStaleOps).1 = false.
Proof.
  split; [exists exStaleOps|]; vm_compute; reflexivity.
Qed.

(** ** The properties on concrete vectors *)

Lemma exVector_inv : sv_inv 4 exVector.
Proof. apply newVector_inv. unfold UINT32_MAX. lia. Qed.

Lemma exFourVector_inv : sv_inv 4 exFourVector.
Proof. unfold sv_inv, exFourVector, UINT32_MAX. cbn. lia. Qed.

Lemma exHeapVector_inv : sv_inv 4 exHeapVector.
Proof. unfold sv_inv, exHeapVector, UINT32_MAX. cbn. lia. Qed.

Lemma exFullVector_inv : sv_inv 4 exFullVector.
Proof.
  unfold sv_inv, exFullVector. cbn [_size _capacity _small _big].
  split; [unfold UINT32_MAX; lia|]. split; [lia|]. split; [reflexivity|].
  split; [unfold UINT32_MAX; lia|]. apply length_replicate.
Qed.

(** [exHeapVector] and [exFullVector] are what [setCapacity(10)] and
    [resize(UINT32_MAX)] make of the empty vector. *)
Lemma exHeapVector_setCapacity : setCapacity 4 0 true 10 exVector = Ok exHeapVector.
Proof. vm_compute. reflexivity. Qed.

Lemma exFullVector_resize : resize 4 0 0 true UINT32_MAX exVector = Ok exFullVector.
Proof.
  apply (resize_new 4 0 0 UINT32_MAX); unfold UINT32_MAX; try lia.
  change (4 + 1 + 1 ≤ 2 ^ 32 - 1). lia.
Qed.

Lemma push_back_capacity_witness :
  sv_inv 4 exFourVector ∧
  _size exFourVector = _capacity exFourVector ∧
  ∃ sv', push_back 4 0 true 5 exFourVector = Ok sv' ∧
         emplace_back 4 0 true 5 exFourVector = Ok sv' ∧
         _capacity sv' = 6.
Proof.
  split; [exact exFourVector_inv|]. split; [reflexivity|].
  exact (proj1 (push_back_capacity 4 0 true 5 exFourVector exFourVector_inv) eq_refl).
Defined.

Lemma setCapacity_outcomes_witness :
  sv_inv 4 exVector ∧ 0 ≤ 10 ∧
  (10 < _size exVector → setCapacity 4 0 true 10 exVector = Fail LogicError) ∧
  (2 ^ 32 ≤ 10 → setCapacity 4 0 true 10 exVector = Fail DomainError) ∧
  (_size exVector ≤ 10 < 2 ^ 32 →
   ∃ sv', setCapacity 4 0 true 10 exVector = Ok sv' ∧ _capacity sv' = 10).
Proof.
  assert (0 ≤ 10) as Hcap by lia.
  split; [exact exVector_inv|]. split; [exact Hcap|].
  exact (setCapacity_outcomes 4 0 true 10 exVector exVector_inv Hcap).
Defined.

Lemma shrinking_keeps_capacity_and_storage_witness :
  pop_back exFourVector = Ok exThreeVector ∧
  _capacity exThreeVector = _capacity exFourVector ∧
  onHeap exThreeVector = onHeap exFourVector ∧
  setCapacityCalls exThreeVector = setCapacityCalls exFourVector.
Proof.
  assert (pop_back exFourVector = Ok exThreeVector) as Hpop by (vm_compute; reflexivity).
  split; [exact Hpop|].
  exact (proj1 (shrinking_keeps_capacity_and_storage 4 0 0 exFourVector exThreeVector)
           (or_introl Hpop)).
Defined.

(** C7: the vector that [resize(UINT32_MAX)] leaves is full, and the
    capacity [push_back] asks for, 6442450942, does not fit [uint32_t]:
    [setCapacity] throws [domain_error] and nothing grows. *)
Lemma push_back_at_UINT32_MAX_counterexample :
  sv_inv 4 exFullVector ∧
  _size exFullVector = _capacity exFullVector ∧
  grownCapacity exFullVector = 6442450942 ∧
  push_back 4 0 true 7 exFullVector = Fail DomainError ∧
  emplace_back 4 0 true 7 exFullVector = Fail DomainError.
Proof.
  assert (grownCapacity exFullVector = 6442450942) as Hgrown by reflexivity.
  assert (push_back 4 0 true 7 exFullVector = Fail DomainError) as Hpush.
  { apply push_back_overflow; [reflexivity|unfold exFullVector, UINT32_MAX; cbn; lia|].
    rewrite Hgrown. unfold UINT32_MAX. lia. }
  split; [exact exFullVector_inv|]. split; [reflexivity|]. split; [exact Hgrown|].
  split; exact Hpush.
Qed.

(** C8: [setCapacity(10)] on the empty vector when [realloc] returns null
    throws [bad_alloc], though 10 is neither below the size nor [2^32] or
    more. *)
Lemma setCapacity_bad_alloc_counterexample :
  sv_inv 4 exVector ∧
  _size exVector ≤ 10 < 2 ^ 32 ∧
  setCapacity 4 0 false 10 exVector = Fail BadAlloc.
Proof.
  split; [exact exVector_inv|]. split; [vm_compute; split; [discriminate|reflexivity]|].
  vm_compute. reflexivity.
Qed.

(** C10: the move assignment [v = std::move(w)] gives [v] the capacity
    and the heap block of [w] without a call of [setCapacity]. *)
Lemma move_assignment_counterexample :
  sv_inv 4 exVector ∧ sv_inv 4 exHeapVector ∧
  ∃ sv',
    exec 4 0 0 true (OpMoveAssign exHeapVector) exVector = Ok sv' ∧
    _capacity exVector = 4 ∧ _capacity sv' = 10 ∧
    onHeap exVector = false ∧ onHeap sv' = true ∧
    setCapacityCalls sv' = setCapacityCalls exVector.
Proof.
  split; [exact exVector_inv|]. split; [exact exHeapVector_inv|].
  eexists. split; [vm_compute; reflexivity|]. vm_compute. done.
Qed.

(** ** smallVector as a sequence *)

Section SmallVectorElems.

Context {T : Type}.
Variable N : Z.
Variable defaultT : T.
Variable unwritten : T.

Local Abbreviation vec := (smallVector (T:=T)).
Local Abbreviation inv := (sv_inv (T:=T) N).

Lemma elems_length (sv : vec) :
  inv sv → length (elems sv) = Z.to_nat (_size sv).
Proof.
  intros Hinv. pose proof (baseOf_length N sv Hinv) as Hlen.
  destruct Hinv as (Hsize & _). unfold elems. rewrite length_take. lia.
Qed.

Lemma elems_withSize (sv : vec) size :
  elems (withSize sv size) = take (Z.to_nat size) (baseOf sv).
Proof. done. Qed.

Lemma baseOf_withBase (sv : vec) base : baseOf (withBase sv base) = base.
Proof. unfold withBase, baseOf. by destruct (_big sv). Qed.

Lemma size_withBase (sv : vec) base : _size (withBase sv base) = _size sv.
Proof. unfold withBase. by destruct (_big sv). Qed.

(** [setCapacity] keeps the elements, wherever it puts them. *)
Lemma setCapacity_elems heapOk cap (sv sv' : vec) :
  inv sv → 0 ≤ cap →
  setCapacity N unwritten heapOk cap sv = Ok sv' →
  elems sv' = elems sv ∧ _size sv' = _size sv.
Proof.
  intros (Hsize & Hcap & Hsmall & Hbig) Hc. unfold setCapacity, elems, baseOf.
  cbn [_size _capacity _small _big setCapacityCalls].
  destruct (cap =? _capacity sv); [by intros [= <-]|].
  destruct (Z.ltb_spec cap (_size sv)); [done|].
  destruct (UINT32_MAX <? cap); [done|].
  destruct (Z.leb_spec cap N).
  - destruct (_big sv) as [big|] eqn:Heq; [|by intros [= <-]].
    destruct Hbig as [HN Hlen]. unfold memcpy.
    rewrite decide_True by lia. cbn [rbind]. intros [= <-].
    cbn [_size _small _big]. split; [|done].
    rewrite take_app_le by (rewrite length_take; lia).
    rewrite take_take. f_equal. lia.
  - destruct heapOk; [|done]. cbn [negb].
    destruct (_big sv) as [big|] eqn:Heq.
    + intros [= <-]. cbn [_size _small _big]. split; [|done].
      destruct Hbig as [HN Hlen]. unfold reallocated.
      rewrite take_app_le by (rewrite length_take; lia).
      rewrite take_take. f_equal. lia.
    + unfold memcpy. rewrite decide_True by (rewrite length_replicate; lia).
      cbn [rbind]. intros [= <-]. cbn [_size _small _big]. split; [|done].
      rewrite take_app_le by (rewrite length_take; lia).
      rewrite take_take. f_equal. lia.
Qed.

(** [push_back] and [emplace_back] append. *)
Lemma push_back_elems heapOk t (sv sv' : vec) :
  inv sv →
  push_back N unwritten heapOk t sv = Ok sv' →
  elems sv' = elems sv ++ [t] ∧ _size sv' = _size sv + 1.
Proof.
  intros Hinv Hpush.
  pose proof (push_back_cases N unwritten heapOk t sv Hinv) as Hcases.
  rewrite Hpush in Hcases. destruct Hcases as (Hinv' & Hsize' & _).
  split; [|done].
  pose proof Hinv as (Hsize & Hcap & _).
  unfold push_back, _grow in Hpush.
  assert (∃ sv1, inv sv1 ∧ elems sv1 = elems sv ∧ _size sv1 = _size sv ∧
                 _size sv < _capacity sv1 ∧
                 rbind (store (baseOf (withSize sv1 (to_uint32 (_size sv1 + 1))))
                          (_size sv1) t)
                   (λ base, Ok (withBase (withSize sv1 (to_uint32 (_size sv1 + 1))) base))
                 = Ok sv') as (sv1 & Hinv1 & Hel1 & Hsz1 & Hroom & Hrest).
  { destruct (Z.leb_spec (_capacity sv) (_size sv)) as [Hfull|Hroom].
    - destruct (setCapacity N unwritten heapOk (grownCapacity sv) sv)
        as [sv1|] eqn:Hset; [|done].
      assert (0 ≤ grownCapacity sv) as Hg by (unfold grownCapacity; lia).
      pose proof (setCapacity_cases N unwritten heapOk _ sv Hinv Hg) as Hc.
      rewrite Hset in Hc. destruct Hc as (_ & _ & Hinv1 & Hcap1 & Hsize1 & _).
      destruct (setCapacity_elems _ _ _ _ Hinv Hg Hset) as [Hel _].
      exists sv1. split_and!; try done. unfold grownCapacity in Hcap1. lia.
    - exists sv. split_and!; done. }
  rewrite Hsz1 in Hrest.
  pose proof (baseOf_length N sv1 Hinv1) as Hlen.
  pose proof Hinv1 as (_ & Hcap1 & _).
  unfold store in Hrest. change (baseOf (withSize sv1 ?s)) with (baseOf sv1) in Hrest.
  rewrite decide_True in Hrest by lia. cbn [rbind] in Hrest.
  injection Hrest as <-. unfold elems at 1.
  rewrite baseOf_withBase, size_withBase. cbn [withSize _size].
  rewrite to_uint32_small by lia.
  replace (Z.to_nat (_size sv + 1)) with (S (Z.to_nat (_size sv))) by lia.
  rewrite <- Hel1. unfold elems. rewrite Hsz1.
  erewrite take_S_r by (apply list_lookup_insert_eq; lia).
  by rewrite take_insert_ge by lia.
Qed.

(** [get(i)] returns the item at [i] and asserts [i < size()]. *)
Lemma sv_get_spec (sv : vec) i :
  inv sv → 0 ≤ i →
  match sv_get sv i with
  | Ok x => i < _size sv ∧ elems sv !! Z.to_nat i = Some x
  | Fail f => f = AssertionFailed ∧ _size sv ≤ i
  end.
Proof.
  intros Hinv Hi. pose proof (baseOf_length N sv Hinv) as Hlen.
  destruct Hinv as (Hsize & _). unfold sv_get.
  destruct (Z.ltb_spec i (_size sv)) as [Hlt|Hge]; cbn [negb]; [|done].
  destruct (lookup_lt_is_Some_2 (baseOf sv) (Z.to_nat i)) as [x Hx]; [lia|].
  rewrite Hx. split; [done|]. unfold elems. rewrite lookup_take_lt by lia. done.
Qed.

(** [pop_back()] drops the last item and asserts that there is one. *)
Lemma pop_back_elems (sv : vec) :
  inv sv →
  match pop_back sv with
  | Ok sv' => 0 < _size sv ∧ _size sv' = _size sv - 1 ∧
              elems sv' = take (Z.to_nat (_size sv - 1)) (elems sv)
  | Fail f => f = AssertionFailed ∧ _size sv = 0
  end.
Proof.
  intros Hinv. pose proof Hinv as (Hsize & Hcap & _). unfold pop_back.
  destruct (decide (_size sv = 0)) as [Hz|Hnz].
  - rewrite Hz. unfold sv_get. rewrite Hz. done.
  - rewrite to_uint32_small by lia.
    pose proof (sv_get_spec sv (_size sv - 1) Hinv) as Hget.
    destruct (sv_get sv (_size sv - 1)) as [x|f].
    + cbn [rbind]. split_and!; [lia|done|]. unfold elems. cbn [withSize _size].
      change (baseOf (withSize sv ?s)) with (baseOf sv).
      rewrite take_take. f_equal. lia.
    + destruct Hget as [_ ?]; lia.
Qed.

(** [erase(first, last)] removes the items from [first] up to [last] and
    asserts that the range lies inside the vector. *)
Lemma erase_elems first last (sv : vec) :
  inv sv →
  match erase first last sv with
  | Ok sv' => 0 ≤ first ∧ first ≤ last ∧ last ≤ _size sv ∧
              _size sv' = _size sv - (last - first) ∧
              elems sv' = take (Z.to_nat first) (elems sv)
                            ++ drop (Z.to_nat last) (elems sv)
  | Fail f => f = AssertionFailed ∧ ¬ (0 ≤ first ∧ first ≤ last ∧ last ≤ _size sv)
  end.
Proof.
  intros Hinv. pose proof (baseOf_length N sv Hinv) as Hlen.
  pose proof Hinv as (Hsize & Hcap & _). unfold erase.
  destruct (Z.leb_spec 0 first) as [H1|H1]; cbn [andb negb]; [|split; [done|lia]].
  destruct (Z.leb_spec first last) as [H2|H2]; cbn [andb negb]; [|split; [done|lia]].
  destruct (Z.leb_spec last (_size sv)) as [H3|H3]; cbn [andb negb]; [|split; [done|lia]].
  rewrite to_uint32_small by lia. split_and!; try done.
  unfold elems at 1. cbn [withSize _size].
  change (baseOf (withSize ?v ?s)) with (baseOf v). rewrite baseOf_withBase.
  unfold memmove, elems.
  set (base := baseOf sv) in *.
  rewrite take_app_ge by (rewrite length_take; lia).
  rewrite length_take.
  rewrite take_app_le by (rewrite length_take, length_drop; lia).
  rewrite take_take, take_take.
  replace (Z.to_nat first `min` Z.to_nat (_size sv))%nat with (Z.to_nat first) by lia.
  f_equal.
  replace (Z.to_nat (_size sv)) with (Z.to_nat last + Z.to_nat (_size sv - last))%nat
    by lia.
  rewrite <- take_drop_commute. f_equal. lia.
Qed.

(** [resize(sz)] keeps the first [sz] items and pads with [T()] up to
    [sz]. *)
Lemma resize_elems heapOk sz (sv sv' : vec) :
  inv sv → 0 ≤ sz →
  resize N defaultT unwritten heapOk sz sv = Ok sv' →
  _size sv' = sz ∧
  elems sv' = take (Z.to_nat sz) (elems sv)
                ++ replicate (Z.to_nat (sz - _size sv)) defaultT.
Proof.
  intros Hinv Hsz Hres. pose proof Hinv as (Hsize & Hcap & _).
  unfold resize in Hres.
  destruct (Z.ltb_spec (_size sv) sz) as [Hgrow|Hshrink].
  - assert (∃ sv1, inv sv1 ∧ elems sv1 = elems sv ∧ _size sv1 = _size sv ∧
      (if negb (sz <=? _size (withSize sv1 (to_uint32 sz)))
       then Fail AssertionFailed
       else if decide (sz ≤ Z.of_nat (length (baseOf (withSize sv1 (to_uint32 sz)))))
       then Ok (withBase (withSize sv1 (to_uint32 sz))
                  (take (Z.to_nat (_size sv1)) (baseOf (withSize sv1 (to_uint32 sz)))
                   ++ replicate (Z.to_nat (sz - _size sv1)) defaultT
                   ++ drop (Z.to_nat sz) (baseOf (withSize sv1 (to_uint32 sz)))))
       else Fail UndefinedBehavior) = Ok sv') as (sv1 & Hinv1 & Hel1 & Hsz1 & Hrest).
    { destruct (_capacity sv <? sz).
      - match type of Hres with
        | context [setCapacity N unwritten heapOk ?c sv] =>
            destruct (setCapacity N unwritten heapOk c sv) as [sv1|] eqn:Hset; [|done];
            assert (0 ≤ c) as Hc by (destruct (N <? sz); lia);
            pose proof (setCapacity_cases N unwritten heapOk c sv Hinv Hc) as Hcases;
            destruct (setCapacity_elems _ _ _ _ Hinv Hc Hset) as [Hel Hs]
        end.
        rewrite Hset in Hcases. destruct Hcases as (_ & _ & Hinv1 & _).
        exists sv1. split_and!; [done|done|done|exact Hres].
      - exists sv. split_and!; [done|done|done|exact Hres]. }
    cbn [withSize _size] in Hrest.
    change (baseOf (withSize ?v ?s)) with (baseOf v) in Hrest.
    destruct (Z.leb_spec sz (to_uint32 sz)) as [Hfit|]; [|done]. cbn [negb] in Hrest.
    destruct (decide _) as [Hlen|]; [|done]. injection Hrest as <-.
    assert (to_uint32 sz = sz) as Hu.
    { unfold to_uint32 in *. pose proof (Z.mod_pos_bound sz (2 ^ 32) ltac:(lia)).
      apply Z.mod_small. lia. }
    rewrite size_withBase. cbn [withSize _size]. split; [done|].
    unfold elems at 1. rewrite baseOf_withBase, size_withBase. cbn [withSize _size].
    rewrite Hu, Hsz1. rewrite app_assoc.
    rewrite take_app_ge by (rewrite length_app, length_take, length_replicate; lia).
    rewrite length_app, length_take, length_replicate.
    replace (Z.to_nat sz - (Z.to_nat (_size sv) `min` length (baseOf sv1)
                            + Z.to_nat (sz - _size sv)))%nat with 0%nat by lia.
    rewrite take_0, app_nil_r. f_equal.
    rewrite <- Hel1. unfold elems. rewrite Hsz1, take_take. f_equal. lia.
  - unfold shrinkTo in Hres. replace (Z.to_nat (sz - _size sv)) with 0%nat by lia.
    cbn [replicate]. rewrite app_nil_r.
    destruct (Z.ltb_spec sz (_size sv)); injection Hres as <-.
    + rewrite to_uint32_small by lia. cbn [withSize _size]. split; [done|].
      unfold elems. cbn [withSize _size].
      change (baseOf (withSize ?v ?s)) with (baseOf v).
      rewrite take_take. f_equal. lia.
    + split; [lia|]. rewrite take_ge; [done|]. rewrite elems_length by done. lia.
Qed.

(** [clear()] never fails and leaves no item. *)
Lemma clear_elems (sv : vec) :
  inv sv → ∃ sv', clear sv = Ok sv' ∧ _size sv' = 0 ∧ elems sv' = [].
Proof.
  intros Hinv. pose proof Hinv as (Hsize & _). unfold clear, shrinkTo.
  destruct (Z.ltb_spec 0 (_size sv)); eexists; (split; [done|]).
  - done.
  - split; [lia|]. unfold elems. replace (Z.to_nat (_size sv)) with 0%nat by lia. done.
Qed.



(** A vector without a heap block whose capacity exceeds [N], as a move
    leaves its source: a push below [N] items appends, the one after writes
    past the inline buffer. *)
Lemma push_back_stranded heapOk t (sv : vec) :
  _big sv = None → length (_small sv) = Z.to_nat N →
  N < _capacity sv → _capacity sv ≤ UINT32_MAX → 0 ≤ _size sv ≤ N →
  if _size sv <? N
  then ∃ sv', push_back N unwritten heapOk t sv = Ok sv' ∧
              elems sv' = elems sv ++ [t] ∧ _size sv' = _size sv + 1 ∧
              _big sv' = None ∧ length (_small sv') = Z.to_nat N ∧
              _capacity sv' = _capacity sv
  else push_back N unwritten heapOk t sv = Fail UndefinedBehavior.
Proof.
  intros Hbig Hsmall HN Hcap Hsize. unfold push_back, _grow.
  rewrite (proj2 (Z.leb_gt _ _)) by lia. cbn [rbind fst snd].
  rewrite to_uint32_small by lia. unfold store, baseOf, withSize.
  cbn [_size _capacity _small _big]. rewrite Hbig.
  destruct (Z.ltb_spec (_size sv) N) as [Hlt|Hge].
  - rewrite decide_True by lia. cbn [rbind]. eexists. split; [done|].
    unfold withBase, elems, baseOf. cbn [_size _capacity _small _big].
    rewrite Hbig. cbn [_size _capacity _small _big].
    rewrite length_insert. split_and!; try done.
    replace (Z.to_nat (_size sv + 1)) with (S (Z.to_nat (_size sv))) by lia.
    erewrite take_S_r by (apply list_lookup_insert_eq; lia).
    by rewrite take_insert_ge by lia.
  - rewrite decide_False by lia. done.
Qed.

Lemma push_all_stranded heapOk (ts : list T) :
  ∀ sv : vec,
    _big sv = None → length (_small sv) = Z.to_nat N →
    N < _capacity sv → _capacity sv ≤ UINT32_MAX → 0 ≤ _size sv →
    _size sv + Z.of_nat (length ts) = N →
    ∃ sv', push_all N unwritten heapOk ts sv = Ok sv' ∧
           elems sv' = elems sv ++ ts ∧
           ∀ t, push_back N unwritten heapOk t sv' = Fail UndefinedBehavior.
Proof.
  induction ts as [|t ts IH]; intros sv Hbig Hsmall HN Hcap Hsize Hlen.
  - exists sv. cbn [push_all]. rewrite app_nil_r. split_and!; [done|done|].
    intros t. cbn [length] in Hlen.
    pose proof (push_back_stranded heapOk t sv Hbig Hsmall HN Hcap) as Hpush.
    rewrite (proj2 (Z.ltb_ge _ _)) in Hpush by lia. apply Hpush. lia.
  - cbn [length] in Hlen.
    pose proof (push_back_stranded heapOk t sv Hbig Hsmall HN Hcap) as Hpush.
    rewrite (proj2 (Z.ltb_lt _ _)) in Hpush by lia.
    destruct Hpush as (sv1 & Hrun & Hel & Hsz & Hbig1 & Hsmall1 & Hcap1); [lia|].
    destruct (IH sv1) as (sv' & Hall & Hel' & Hover); try done; try lia.
    exists sv'. cbn [push_all]. rewrite Hrun. cbn [rbind].
    split_and!; [done| |done]. by rewrite Hel', Hel, <- app_assoc.
Qed.

End SmallVectorElems.

(** A 32-bit word none of whose bits is set is 0. *)
Lemma bitsOf_nil bits : 0 ≤ bits < 2 ^ 32 → bitsOf bits = [] → bits = 0.
Proof.
  intros Hr Hnil. apply Z.bits_inj'. intros i Hi. rewrite Z.bits_0.
  destruct (decide (i < 32)) as [Hlt|Hge].
  - destruct (Z.testbit bits i) eqn:Hbit; [|done].
    assert (i ∈ bitsOf bits) as Hin by (apply elem_of_bitsOf; split; [lia|done]).
    rewrite Hnil in Hin. by apply elem_of_nil in Hin.
  - destruct (decide (bits = 0)) as [->|Hnz]; [apply Z.bits_0|].
    apply Z.bits_above_log2; [lia|].
    assert (Z.log2 bits < 32); [|lia]. apply Z.log2_lt_pow2; lia.
Qed.

(** ** Addresses and pruning *)

Section MHashTreeAddrs.

Context {Key Val : Type} `{Countable Key}.

Local Abbreviation NodeT := (Node (Key:=Key) (Val:=Val)).

Lemma addrs_leaf a h (k : Key) (v : Val) : addrs (LeafNode a h k v) = [a].
Proof. done. Qed.

Lemma addrs_interior a cap bitmap (children : list (option NodeT)) :
  addrs (InteriorNode a cap bitmap children)
  = a :: (owned bitmap children ≫= slotAddrs).
Proof. cbn [addrs]. rewrite flatFirst_bind. unfold owned, slotAddrs. reflexivity. Qed.

Lemma pruned_leaf a h (k : Key) (v : Val) : pruned (LeafNode a h k v) = true.
Proof. done. Qed.

Lemma pruned_interior a cap bitmap (children : list (option NodeT)) :
  pruned (InteriorNode a cap bitmap children) = true
  ↔ Forall (λ slot : option NodeT,
             match slot with
             | Some (InteriorNode _ _ cbitmap _ as c) =>
                 Bitmap.empty cbitmap = false ∧ pruned c = true
             | _ => True
             end) (owned bitmap children).
Proof.
  cbn [pruned]. rewrite allFirst_Forall. unfold owned.
  apply Forall_iff. intros [[?|? ? ? ?]|]; [done| |done].
  rewrite andb_true_iff, negb_true_iff. done.
Qed.

End MHashTreeAddrs.

#[local] Arguments addrs : simpl never.
#[local] Arguments pruned : simpl never.

(** ** The heap of the trie *)

Section MHashTreeHeap.

Context {Key Val : Type} `{Countable Key}.
Variable std_hash : Key → Z.
Variable defaultVal : Val.
Variable indeterminate : option (Node (Key:=Key) (Val:=Val)).

Local Abbreviation NodeT := (Node (Key:=Key) (Val:=Val)).
Local Abbreviation TreeT := (MHashTree (Key:=Key) (Val:=Val)).
Local Abbreviation hashOf k := (to_size_t (std_hash k)).

(** A slot of a pruned node: an interior node in it is not empty and is
    pruned. *)
Local Abbreviation slotPruned := (λ slot : option NodeT,
  match slot with
  | Some (InteriorNode _ _ cbitmap _ as c) =>
      Bitmap.empty cbitmap = false ∧ pruned c = true
  | _ => True
  end).

Lemma addrs_split a cap bitmap (children : list (option NodeT)) i slot :
  owned bitmap children !! i = Some slot →
  addrs (InteriorNode a cap bitmap children)
  = a :: (take i (owned bitmap children) ≫= slotAddrs)
      ++ slotAddrs slot
      ++ (drop (S i) (owned bitmap children) ≫= slotAddrs).
Proof.
  intros Hi. rewrite addrs_interior.
  rewrite <- (take_drop_middle _ _ _ Hi) at 1.
  by rewrite bind_app, bind_cons.
Qed.

Lemma owned_update bitmap (children : list (option NodeT)) i slot c' :
  owned bitmap children !! i = Some slot →
  owned bitmap (<[i := Some c']> children) = <[i := Some c']> (owned bitmap children).
Proof.
  intros Hi.
  assert (i < Z.to_nat (childCount bitmap))%nat as Hlt.
  { apply lookup_lt_Some in Hi. unfold owned in Hi.
    rewrite length_take in Hi. lia. }
  unfold owned. by rewrite take_insert_lt.
Qed.

Lemma addrs_update a cap bitmap (children : list (option NodeT)) i slot c' :
  owned bitmap children !! i = Some slot →
  addrs (InteriorNode a cap bitmap (<[i := Some c']> children))
  = a :: (take i (owned bitmap children) ≫= slotAddrs)
      ++ addrs c'
      ++ (drop (S i) (owned bitmap children) ≫= slotAddrs).
Proof.
  intros Hi. pose proof (owned_update _ _ _ _ c' Hi) as Hown.
  rewrite (addrs_split _ _ _ _ i (Some c')).
  - rewrite Hown, take_insert_ge, drop_insert_lt by lia. done.
  - rewrite Hown. apply list_lookup_insert_eq. by eapply lookup_lt_Some.
Qed.

(** [addChild]: the node stays, or a copy with one more slot takes its
    place and the node is deleted. *)
Lemma addChild_heap shift a cap bitmap (children : list (option NodeT)) b child h :
  interior_wf std_hash shift cap bitmap children →
  0 ≤ b < 32 → Z.testbit bitmap b = false →
  slotOk std_hash shift b (Some child) →
  ∃ a' cap' children' h',
    addChild indeterminate (InteriorNode a cap bitmap children) b child h
    = Ok (InteriorNode a' cap' (Bitmap.addBit bitmap b) children', h') ∧
    ((childCount bitmap < cap ∧ a' = a ∧ cap' = cap ∧ h' = h) ∨
     (childCount bitmap = cap ∧ a' = allocated h ∧ cap' = cap + 1 ∧
      h' = mkHeap (S (allocated h)) (a :: freed h))).
Proof.
  intros Hwf Hb Hbit Hok.
  pose proof (childCount_unset_bit bitmap b Hb Hbit) as Hlt32.
  unfold addChild, addChildAt.
  destruct (childCount bitmap <? cap) eqn:Hfree.
  - apply Z.ltb_lt in Hfree. rewrite bind_ret.
    destruct (_addChild_spec std_hash shift a cap bitmap children b child h
                Hwf Hb Hbit Hfree Hok)
      as (children' & Hrun & Hwf' & Hown).
    exists a, cap, children', h. split; [done|]. by left.
  - apply Z.ltb_ge in Hfree.
    pose proof Hwf as (Hs1 & Hs2 & Hbm & Hcap & Hcnt & Hlen & Hslots).
    assert (cap = childCount bitmap) as Hfull by lia.
    unfold grow. rewrite (proj2 (Z.ltb_lt cap kMaxChildren)) by trie_lia.
    unfold newNodeFrom.
    assert (to_uint8 (cap + 1) = cap + 1) as Hu8.
    { unfold to_uint8. apply Z.mod_small. trie_lia. }
    rewrite Hu8, (proj2 (Z.ltb_ge (cap + 1) cap)) by lia.
    run_monad. cbn [allocated freed].
    replace (cap + 1 - cap) with 1 by lia.
    rewrite take_ge by lia.
    assert (interior_wf std_hash shift (cap + 1) bitmap
              (children ++ replicate (Z.to_nat 1) indeterminate)) as Hwf1.
    { unfold interior_wf. split_and!; try done; try trie_lia.
      - rewrite length_app. simpl. lia.
      - unfold owned. rewrite take_app_le by lia. done. }
    assert (childCount bitmap < cap + 1) as Hfree1 by lia.
    destruct (_addChild_spec std_hash shift (allocated h) (cap + 1) bitmap _ b child
                (mkHeap (S (allocated h)) (a :: freed h))
                Hwf1 Hb Hbit Hfree1 Hok)
      as (children' & Hrun & Hwf' & Hown).
    eexists _, _, children', _. split; [apply Hrun|]. right. done.
Qed.

(** What [insert] does to the heap and to pruning: the nodes of the result
    and the deleted ones are those of before and the addresses handed out in
    between, and a pruned node stays pruned. *)
Lemma node_insert_heap (fuel : nat) :
  ∀ shift a cap bitmap (children : list (option NodeT)) key val h,
    interior_wf std_hash shift cap bitmap children →
    hashBits - shift < Z.of_nat fuel →
    match node_insert indeterminate fuel (InteriorNode a cap bitmap children)
            (targetOf std_hash key) val shift h with
    | Fail _ => True
    | Ok (n', h') =>
        (allocated h ≤ allocated h')%nat ∧
        addrs n' ++ freed h'
        ≡ₚ seq (allocated h) (allocated h' - allocated h)
             ++ addrs (InteriorNode a cap bitmap children) ++ freed h ∧
        (pruned (InteriorNode a cap bitmap children) = true → pruned n' = true)
    end.
Proof.
  induction fuel as [|fuel IH];
    intros shift a cap bitmap children key val h Hwf Hfuel.
  { destruct Hwf as (? & ? & _). trie_lia. }
  pose proof Hwf as (Hs1 & Hs2 & Hbm & Hcap & Hcnt & Hlen & Hslots).
  cbn [node_insert t_hash t_key targetOf].
  rewrite (proj2 (Z.ltb_lt _ _) Hs2), bind_assert_true.
  pose proof (childBitNumber_range (hashOf key) shift) as Hb.
  set (b := childBitNumber (hashOf key) shift) in *.
  rewrite hasChild_testbit by lia.
  destruct (Z.testbit bitmap b) eqn:Hbit; cbn [negb].
  2: {
    (* No child -- add a leaf *)
    rewrite bind_new.
    set (leaf := LeafNode (allocated h) (hashOf key) key val).
    assert (slotOk std_hash shift b (Some leaf)) as Hok.
    { split; [done|]. intros k v Hkv. cbn [leaves leaf] in Hkv.
      apply list_elem_of_singleton in Hkv. by injection Hkv as -> ->. }
    destruct (addChild_spec std_hash indeterminate shift a cap bitmap children b leaf
                (mkHeap (S (allocated h)) (freed h)) Hwf Hb Hbit Hok)
      as (a' & cap' & children' & h' & Hrun & Hwf' & Hown & _).
    destruct (addChild_heap shift a cap bitmap children b leaf
                (mkHeap (S (allocated h)) (freed h)) Hwf Hb Hbit Hok)
      as (a2 & cap2 & children2 & h2 & Hrun2 & Hheap).
    rewrite Hrun in Hrun2. injection Hrun2 as <- <- <- <-.
    rewrite Hrun.
    set (i := Z.to_nat (childIndexForBitNumber bitmap b)) in *.
    split_and!.
    - destruct Hheap as [(_ & _ & _ & ->)|(_ & _ & _ & ->)]; cbn [allocated]; lia.
    - rewrite !addrs_interior, Hown, bind_app, bind_cons.
      rewrite <- (take_drop i (owned bitmap children)) at 3.
      rewrite bind_app. cbn [slotAddrs]. unfold leaf at 1. rewrite addrs_leaf.
      destruct Hheap as [(_ & -> & _ & ->)|(_ & -> & _ & ->)]; cbn [allocated freed].
      + replace (S (allocated h) - allocated h)%nat with 1%nat by lia.
        cbn [seq].
        generalize (take i (owned bitmap children) ≫= slotAddrs)
                   (drop i (owned bitmap children) ≫= slotAddrs)
                   (freed h) (allocated h).
        intros pre post fr ah. solve_Permutation.
      + replace (S (S (allocated h)) - allocated h)%nat with 2%nat by lia.
        cbn [seq].
        generalize (take i (owned bitmap children) ≫= slotAddrs)
                   (drop i (owned bitmap children) ≫= slotAddrs)
                   (freed h) (allocated h).
        intros pre post fr ah. solve_Permutation.
    - rewrite !pruned_interior, Hown. intros Hpr.
      apply Forall_app. split; [by apply Forall_take|].
      constructor; [done|by apply Forall_drop].
  }
  destruct (interior_wf_child _ _ _ _ _ b Hwf Hb Hbit)
    as (Hbi & Hlt & c & Hc & Hc' & Hwfc & Hsl).
  set (i := Z.to_nat (childIndexForBitNumber bitmap b)) in *.
  rewrite (proj2 (Z.ltb_lt _ _) Hlt), bind_assert_true, Hc'.
  assert (∀ c', pruned (InteriorNode a cap bitmap children) = true →
                match c' with
                | InteriorNode _ _ cbitmap _ =>
                    Bitmap.empty cbitmap = false ∧ pruned c' = true
                | LeafNode _ _ _ _ => True
                end →
                pruned (InteriorNode a cap bitmap (<[i := Some c']> children)) = true)
    as Hprune.
  { intros c' Hpr Hc1. rewrite pruned_interior in Hpr |- *.
    rewrite (owned_update _ _ _ _ c' Hc). apply Forall_insert; [done|].
    by destruct c'. }
  destruct c as [la lh lk lv|ca ccap cbitmap cchildren].
  - (* Child is a leaf *)
    cbn [node_wf] in Hwfc. subst lh.
    rewrite matches_same_key. case_bool_decide as Hk.
    + (* the right key: the value is overwritten *)
      unfold ret. split_and!; [lia| |].
      * rewrite Nat.sub_diag. cbn [seq app].
        rewrite (addrs_update _ _ _ _ _ _ _ Hc), (addrs_split _ _ _ _ _ _ Hc).
        cbn [slotAddrs]. by rewrite !addrs_leaf.
      * intros Hpr. by apply Hprune.
    + (* another key: a new interior node takes the slot *)
      destruct (initialCapacity_range shift Hs1) as [Hic Hu8].
      rewrite (bind_Ok _ _ _ _ _ (newNode_run _ _)), Hu8.
      set (capn := initialCapacity shift) in *.
      set (h1 := mkHeap (S (allocated h)) (freed h)) in *.
      set (leaf := LeafNode la (hashOf lk) lk lv) in *.
      pose proof (childBitNumber_range (hashOf lk) (shift + kBitShift)) as Hb'.
      set (b' := childBitNumber (hashOf lk) (shift + kBitShift)) in *.
      destruct (decide (shift + kBitShift + kBitShift < hashBits)) as [Hdeep|Hdeep].
      2: { destruct (addChild_fresh indeterminate (allocated h) capn b' leaf h1)
          as [children1 Hrun]; [lia|done|].
        rewrite (bind_Ok _ _ _ _ _ Hrun). cbn [addrOf].
        rewrite bool_decide_eq_true_2, bind_assert_true by done.
        destruct fuel as [|fuel']; [trie_lia|].
        by rewrite (bind_Fail _ _ _ _
                      (node_insert_too_deep indeterminate _ _ _ _ _ _ _ _ _ Hdeep)). }
      assert (interior_wf std_hash (shift + kBitShift) capn 0
                (replicate (Z.to_nat capn) (None : option NodeT))) as Hwfn
        by (apply interior_wf_fresh; trie_lia).
      assert (slotOk std_hash (shift + kBitShift) b' (Some leaf)) as Hok'.
      { split; [done|]. intros k v Hkv. cbn [leaves leaf] in Hkv.
        apply list_elem_of_singleton in Hkv. by injection Hkv as -> ->. }
      destruct (addChild_spec std_hash indeterminate _ (allocated h) _ _ _ b' leaf h1
                  Hwfn Hb' (Z.bits_0 b') Hok')
        as (a1 & cap1 & children1 & h1' & Hrun & Hwf1 & Hown1 & Hsame1).
      destruct Hsame1 as (-> & -> & ->); [rewrite childCount_zero; lia|].
      rewrite (bind_Ok _ _ _ _ _ Hrun). cbn [addrOf].
      rewrite bool_decide_eq_true_2, bind_assert_true by done.
      assert (hashBits - (shift + kBitShift) < Z.of_nat fuel) as Hfuel' by trie_lia.
      pose proof (node_insert_spec std_hash defaultVal indeterminate fuel
                    (shift + kBitShift) (allocated h) capn (Bitmap.addBit 0 b')
                    children1 key val h1 Hwf1 Hfuel') as Hsub.
      specialize (IH (shift + kBitShift) (allocated h) capn (Bitmap.addBit 0 b')
                    children1 key val h1 Hwf1 Hfuel').
      unfold bind at 1.
      assert (owned (Bitmap.addBit 0 b') children1 = [Some leaf]) as Hown1'.
      { rewrite Hown1. unfold owned. rewrite childCount_zero. done. }
      destruct (node_insert indeterminate fuel
                  (InteriorNode (allocated h) capn (Bitmap.addBit 0 b') children1)
                  (targetOf std_hash key) val (shift + kBitShift) h1)
        as [[n2 h2]|f]; [|done].
      destruct Hsub as (a2 & cap2 & bitmap2 & children2 & -> & Hwf2 & Hsame2 &
                        A2 & X2 & B2 & Hold & Hnew & HX).
      destruct Hsame2 as [-> ->]; [left; rewrite childCount_single by done; lia|].
      cbn [addrOf]. rewrite bool_decide_eq_true_2, bind_assert_true by done.
      unfold ret.
      set (n2 := InteriorNode (allocated h) capn bitmap2 children2) in *.
      destruct IH as (Hle & Hperm & Hpr2).
      rewrite addrs_interior, Hown1' in Hperm. cbn [mbind list_bind slotAddrs] in Hperm.
      unfold leaf in Hperm at 1. rewrite addrs_leaf in Hperm.
      cbn [h1 allocated freed] in Hle, Hperm.
      split_and!; [lia| |].
      * rewrite (addrs_update _ _ _ _ _ _ _ Hc), (addrs_split _ _ _ _ _ _ Hc).
        cbn [slotAddrs]. unfold leaf. rewrite addrs_leaf.
        replace (allocated h2 - allocated h)%nat
          with (S (allocated h2 - S (allocated h))) by lia.
        cbn [seq]. revert Hperm.
        generalize (addrs n2) (freed h2)
                   (seq (S (allocated h)) (allocated h2 - S (allocated h)))
                   (take i (owned bitmap children) ≫= slotAddrs)
                   (drop (S i) (owned bitmap children) ≫= slotAddrs)
                   (freed h) (allocated h).
        intros l2 f2 fresh pre post fr ah Hperm.
        transitivity (a :: pre ++ post ++ (l2 ++ f2)); [solve_Permutation|].
        rewrite Hperm. solve_Permutation.
      * intros Hpr. apply Hprune; [done|]. split.
        -- destruct (Bitmap.empty bitmap2) eqn:Hempty; [|done].
           pose proof (leaves_empty_bitmap (allocated h) capn bitmap2 children2 Hempty)
             as Hnil.
           fold n2 in Hnil. rewrite Hnil in Hnew. by destruct A2.
        -- apply Hpr2. rewrite pruned_interior, Hown1'. by constructor.
  - (* Progress down to interior node *)
    pose proof Hwfc as Hwfc'. apply node_wf_interior in Hwfc'.
    rewrite (interior_wf_capacity _ _ _ _ _ Hwfc').
    assert (hashBits - (shift + kBitShift) < Z.of_nat fuel) as Hfuel' by trie_lia.
    pose proof (node_insert_spec std_hash defaultVal indeterminate fuel
                  (shift + kBitShift) ca ccap cbitmap cchildren key val h
                  Hwfc' Hfuel') as Hsub.
    specialize (IH (shift + kBitShift) ca ccap cbitmap cchildren key val h Hwfc' Hfuel').
    unfold bind at 1.
    destruct (node_insert indeterminate fuel (InteriorNode ca ccap cbitmap cchildren)
                (targetOf std_hash key) val (shift + kBitShift) h)
      as [[n2 h2]|f]; [|done].
    destruct Hsub as (a2 & cap2 & bitmap2 & children2 & -> & Hwf2 & _ &
                      A2 & X2 & B2 & Hold & Hnew & HX).
    unfold ret.
    set (n2 := InteriorNode a2 cap2 bitmap2 children2) in *.
    destruct IH as (Hle & Hperm & Hpr2).
    split_and!; [lia| |].
    + rewrite (addrs_update _ _ _ _ _ _ _ Hc), (addrs_split _ _ _ _ _ _ Hc).
      cbn [slotAddrs]. revert Hperm.
      generalize (addrs n2) (freed h2)
                 (seq (allocated h) (allocated h2 - allocated h))
                 (addrs (InteriorNode ca ccap cbitmap cchildren))
                 (take i (owned bitmap children) ≫= slotAddrs)
                 (drop (S i) (owned bitmap children) ≫= slotAddrs)
                 (freed h).
      intros l2 f2 fresh old pre post fr Hperm.
      transitivity (a :: pre ++ post ++ (l2 ++ f2)); [solve_Permutation|].
      rewrite Hperm. solve_Permutation.
    + intros Hpr. apply Hprune; [done|]. split.
      * destruct (Bitmap.empty bitmap2) eqn:Hempty; [|done].
        pose proof (leaves_empty_bitmap a2 cap2 bitmap2 children2 Hempty) as Hnil.
        fold n2 in Hnil. rewrite Hnil in Hnew. by destruct A2.
      * apply Hpr2. rewrite pruned_interior in Hpr.
        rewrite Forall_lookup in Hpr. by destruct (Hpr _ _ Hc).
Qed.

Lemma addrs_empty_bitmap a cap bitmap (children : list (option NodeT)) :
  Bitmap.empty bitmap = true →
  addrs (InteriorNode a cap bitmap children) = [a].
Proof.
  intros Hempty. rewrite addrs_interior, owned_length_bits.
  by rewrite (bitsOf_empty _ Hempty).
Qed.

(** What [remove] does to the heap and to pruning: it allocates nothing;
    the nodes of the result and the deleted ones are those of before; a
    pruned node stays pruned; when it returns [false] nothing has changed,
    and when it returns [true] something was deleted. *)
Lemma node_remove_heap (n : NodeT) :
  ∀ shift key h,
    node_wf std_hash shift n → isInterior n →
    match node_remove n (targetOf std_hash key) shift h with
    | Fail _ => True
    | Ok (removed, n', h') =>
        allocated h' = allocated h ∧
        addrs n' ++ freed h' ≡ₚ addrs n ++ freed h ∧
        (pruned n = true → pruned n' = true) ∧
        (removed = false → n' = n ∧ h' = h) ∧
        (removed = true → (length (freed h) < length (freed h'))%nat)
    end.
Proof.
  induction n as [la lh lk lv|a cap bitmap children IH] using Node_slots_ind;
    intros shift key h Hwf Hint; [done|].
  apply node_wf_interior in Hwf.
  pose proof Hwf as (Hs1 & Hs2 & Hbm & Hcap & Hcnt & Hlen & Hslots).
  cbn [node_remove t_hash t_key targetOf addrOf capacityOf].
  rewrite (proj2 (Z.ltb_lt _ _) Hs2), bind_assert_true.
  pose proof (childBitNumber_range (hashOf key) shift) as Hb.
  set (b := childBitNumber (hashOf key) shift) in *.
  rewrite hasChild_testbit by lia.
  destruct (Z.testbit bitmap b) eqn:Hbit; cbn [negb].
  2: { unfold ret. split_and!; done. }
  destruct (interior_wf_child _ _ _ _ _ b Hwf Hb Hbit)
    as (Hbi & Hlt & c & Hc & Hc' & Hwfc & Hsl).
  set (i := Z.to_nat (childIndexForBitNumber bitmap b)) in *.
  rewrite slotAt_lookup, Hc'.
  rewrite Forall_lookup in IH. specialize (IH _ _ Hc'). cbv beta iota in IH.
  assert (pruned (InteriorNode a cap bitmap children) = true →
          Forall slotPruned (take i (owned bitmap children)
                               ++ drop (S i) (owned bitmap children))) as Hcut.
  { intros Hpr. rewrite pruned_interior in Hpr.
    apply Forall_app. split; [by apply Forall_take|by apply Forall_drop]. }
  destruct c as [la lh lk lv|ca ccap cbitmap cchildren].
  - (* Child is a leaf *)
    cbn [node_wf] in Hwfc. subst lh.
    rewrite matches_same_key. case_bool_decide as Hk.
    + subst lk.
      destruct (removeChild_spec std_hash shift a cap bitmap children b h Hwf Hb Hbit)
        as (children' & Hrun & Hwf' & Hown).
      rewrite (bind_Ok _ _ _ _ _ Hrun), bind_delete. unfold ret.
      cbn [allocated freed]. split_and!; [done| | |done|cbn [length]; lia].
      * rewrite addrs_interior, Hown, bind_app, (addrs_split _ _ _ _ _ _ Hc).
        cbn [slotAddrs]. rewrite addrs_leaf. fold i.
        generalize (take i (owned bitmap children) ≫= slotAddrs)
                   (drop (S i) (owned bitmap children) ≫= slotAddrs) (freed h).
        intros pre post fr. solve_Permutation.
      * intros Hpr. rewrite pruned_interior, Hown. by apply Hcut.
    + unfold ret. split_and!; done.
  - (* Recurse into child node *)
    pose proof Hwfc as Hwfc'. apply node_wf_interior in Hwfc'.
    rewrite (interior_wf_capacity _ _ _ _ _ Hwfc').
    pose proof (node_remove_spec std_hash (InteriorNode ca ccap cbitmap cchildren)
                  (shift + kBitShift) key h Hwfc I) as Hsub.
    specialize (IH (shift + kBitShift) key h Hwfc I).
    unfold bind at 1.
    destruct (node_remove (InteriorNode ca ccap cbitmap cchildren)
                (targetOf std_hash key) (shift + kBitShift) h)
      as [[[removed n2] h2]|f]; [|done].
    destruct Hsub as (bitmap2 & children2 & -> & Hwf2 & Hleaves).
    destruct IH as (Halloc & Hperm & Hpr2 & Hsame & Hfreed).
    cbn [addrOf capacityOf] in *. cbn [fst snd].
    set (n2 := InteriorNode ca ccap bitmap2 children2) in *.
    assert (slotOk std_hash shift b (Some n2)) as Hok.
    { split; [by apply node_wf_interior|]. intros k v Hkv. apply (Hsl k v).
      destruct removed.
      - destruct Hleaves as (A & v0 & B & Hold & Hnew).
        rewrite Hold. rewrite Hnew in Hkv. rewrite elem_of_app, elem_of_cons.
        apply elem_of_app in Hkv as [?|?]; auto.
      - destruct Hleaves as [Hsame' _]. by rewrite <- Hsame'. }
    destruct (interior_wf_update _ _ _ _ _ _ _ _ Hwf Hbi Hok) as [Hwf1 Hown1].
    destruct removed; cbn [negb].
    + unfold n2 at 1.
      destruct (Bitmap.empty bitmap2) eqn:Hempty.
      * (* child node is now empty, so remove it *)
        destruct (removeChild_spec std_hash shift a cap bitmap
                    (<[i := Some n2]> children) b h2 Hwf1 Hb Hbit)
          as (children' & Hrun & Hwf' & Hown).
        fold i in Hrun, Hown.
        rewrite (bind_Ok _ _ _ _ _ Hrun), bind_delete. unfold ret.
        cbn [allocated freed].
        rewrite Hown1, take_insert_ge, drop_insert_lt in Hown by lia.
        split_and!; [done| | |done|].
        -- rewrite addrs_interior, Hown, bind_app, (addrs_split _ _ _ _ _ _ Hc).
           cbn [slotAddrs].
           unfold n2 in Hperm. rewrite (addrs_empty_bitmap _ _ _ _ Hempty) in Hperm.
           revert Hperm.
           generalize (addrs (InteriorNode ca ccap cbitmap cchildren))
                      (take i (owned bitmap children) ≫= slotAddrs)
                      (drop (S i) (owned bitmap children) ≫= slotAddrs)
                      (freed h) (freed h2).
           intros old pre post fr f2 Hperm.
           transitivity (a :: pre ++ post ++ ([ca] ++ f2)); [solve_Permutation|].
           rewrite Hperm. solve_Permutation.
        -- intros Hpr. rewrite pruned_interior, Hown. by apply Hcut.
        -- intros _. specialize (Hfreed eq_refl). cbn [length]. lia.
      * unfold ret. split_and!; [done| | |done|by auto].
        -- rewrite (addrs_update _ _ _ _ _ _ _ Hc), (addrs_split _ _ _ _ _ _ Hc).
           cbn [slotAddrs]. revert Hperm.
           generalize (addrs n2) (addrs (InteriorNode ca ccap cbitmap cchildren))
                      (take i (owned bitmap children) ≫= slotAddrs)
                      (drop (S i) (owned bitmap children) ≫= slotAddrs)
                      (freed h) (freed h2).
           intros l2 old pre post fr f2 Hperm.
           transitivity (a :: pre ++ post ++ (l2 ++ f2)); [solve_Permutation|].
           rewrite Hperm. solve_Permutation.
        -- intros Hpr. pose proof Hpr as Hpr'. rewrite pruned_interior in Hpr' |- *.
           rewrite Hown1. apply Forall_insert; [done|]. split; [done|].
           apply Hpr2. rewrite Forall_lookup in Hpr'. by destruct (Hpr' _ _ Hc).
    + destruct (Hsame eq_refl) as [Hn2 ->]. unfold ret.
      rewrite Hn2, list_insert_id by done. split_and!; done.
Qed.

(** A pruned subtree that is not an empty interior node holds a key. *)
Lemma pruned_leaves (n : NodeT) :
  pruned n = true →
  match n with
  | InteriorNode _ _ bitmap _ => Bitmap.empty bitmap = false
  | LeafNode _ _ _ _ => True
  end →
  ∀ shift, node_wf std_hash shift n → leaves n ≠ [].
Proof.
  induction n as [la lh lk lv|a cap bitmap children IH] using Node_slots_ind;
    intros Hpr Hne shift Hwf; [by rewrite leaves_leaf|].
  apply node_wf_interior in Hwf.
  pose proof Hwf as (Hs1 & Hs2 & Hbm & Hcap & Hcnt & Hlen & Hslots).
  destruct (bitsOf bitmap) as [|b0 bs] eqn:Hbits.
  { unfold Bitmap.empty in Hne. apply Z.eqb_neq in Hne.
    destruct Hne. by apply bitsOf_nil. }
  destruct (interior_wf_slot _ _ _ _ _ 0%nat b0 Hwf) as (c & Hc & Hc' & Hwfc & _);
    [by rewrite Hbits|].
  rewrite (leaves_split _ _ _ _ _ _ Hc). cbn [slotLeaves].
  rewrite pruned_interior, Forall_lookup in Hpr. specialize (Hpr _ _ Hc).
  rewrite Forall_lookup in IH. specialize (IH _ _ Hc'). cbv beta iota in IH.
  intros Hnil. apply app_eq_nil in Hnil as [_ Hnil].
  apply app_eq_nil in Hnil as [Hnil _]. revert Hnil.
  destruct c as [?|ca ccap cbitmap cchildren].
  - by rewrite leaves_leaf.
  - destruct Hpr as [Hne' Hpr']. by apply (IH Hpr' Hne' (shift + kBitShift)).
Qed.

(** The depth of a node is bounded by the bits of the hash that are left. *)
Lemma node_wf_height (n : NodeT) :
  ∀ shift, node_wf std_hash shift n → isInterior n →
    5 * Z.of_nat (height n) + shift < hashBits.
Proof.
  induction n as [la lh lk lv|a cap bitmap children IH] using Node_slots_ind;
    intros shift Hwf Hint; [done|].
  apply node_wf_interior in Hwf.
  pose proof Hwf as (Hs1 & Hs2 & Hbm & Hcap & Hcnt & Hlen & Hslots).
  cbn [height].
  assert (∀ slots : list (option NodeT), ∀ m,
            Forall2 (slotOk std_hash shift) m slots →
            Forall (λ slot, match slot with
                            | Some c => ∀ s, node_wf std_hash s c → isInterior c →
                                             5 * Z.of_nat (height c) + s < hashBits
                            | None => True
                            end) slots →
            5 * Z.of_nat (S (maxFirst (λ slot, match slot with
                                               | Some c => height c
                                               | None => 0%nat
                                               end) slots (length slots)))
            + shift < hashBits) as Hgen.
  { induction slots as [|slot slots IHs]; intros m Hm Hall.
    - cbn [maxFirst]. trie_lia.
    - destruct m as [|b0 m]; [by apply Forall2_nil_cons_inv in Hm|].
      apply Forall2_cons in Hm as [Hslot Hm]. apply Forall_cons in Hall as [Hc Hall].
      specialize (IHs m Hm Hall). cbn [length maxFirst].
      destruct slot as [c|]; [|done]. destruct Hslot as [Hwfc _].
      destruct c as [?|ca ccap cbitmap cchildren]; [cbn [height]; lia|].
      specialize (Hc (shift + kBitShift) Hwfc I). trie_lia. }
  pose proof (owned_length bitmap children ltac:(lia)) as Hol.
  specialize (Hgen (owned bitmap children) (bitsOf bitmap) Hslots).
  assert (∀ {A} (f : A → nat) (l : list A) n,
            maxFirst f l n = maxFirst f (take n l) (length (take n l))) as Htake.
  { intros A f l. induction l as [|x l IHl]; intros [|n]; cbn; auto. }
  rewrite Htake. unfold owned in Hgen. apply Hgen.
  apply Forall_take. exact IH.
Qed.

(** ** The heap over runs *)

(** The nodes in the trie and the deleted ones are exactly the nodes that
    were allocated, each once; and the trie is pruned. *)
Lemma step_heap (s s' : TreeT * Heap) o :
  tree_wf std_hash s.1 →
  liveAddrs s.1 ++ freed s.2 ≡ₚ seq 0 (allocated s.2) →
  prunedTree s.1 = true →
  step std_hash indeterminate s o = Ok s' →
  liveAddrs s'.1 ++ freed s'.2 ≡ₚ seq 0 (allocated s'.2) ∧
  prunedTree s'.1 = true.
Proof.
  destruct s as [t h]. cbn [fst snd]. intros Hwf Hheap Hpr Hstep.
  unfold liveAddrs, prunedTree in *.
  destruct o as [k v|k]; cbn [step fst snd] in Hstep.
  - unfold MHashTree_insert in Hstep.
    assert (∃ root h0,
      (match _root t with Some r => ret r | None => newRoot end) h = Ok (root, h0) ∧
      (∃ a bitmap children,
         root = InteriorNode a kMaxChildren bitmap children ∧
         interior_wf std_hash 0 kMaxChildren bitmap children) ∧
      addrs root ++ freed h0 ≡ₚ seq 0 (allocated h0) ∧ pruned root = true)
      as (root & h0 & Hroot & (a & bitmap & children & -> & Hwfr) & Hheap0 & Hpr0).
    { destruct (_root t) as [root|] eqn:Hr.
      - exists root, h. split; [done|]. split; [|done].
        by apply (tree_wf_root std_hash t).
      - destruct (newRoot_wf (Val:=Val) std_hash h) as (root & Hnew & -> & Hwfr).
        eexists _, _. split; [exact Hnew|]. split; [by eexists _, _, _|].
        cbn [allocated freed]. split.
        + rewrite addrs_interior. unfold owned. rewrite childCount_zero.
          cbn [Z.to_nat take mbind list_bind app]. cbn [app] in Hheap.
          rewrite seq_S, <- Hheap. cbn [plus]. solve_Permutation.
        + rewrite pruned_interior. unfold owned. rewrite childCount_zero. done. }
    rewrite (bind_Ok _ _ _ _ _ Hroot) in Hstep.
    pose proof (node_insert_spec std_hash defaultVal indeterminate (insertFuel 0) 0 a
                  kMaxChildren bitmap children k v h0 Hwfr ltac:(vm_compute; done))
      as Hspec.
    pose proof (node_insert_heap (insertFuel 0) 0 a kMaxChildren bitmap children k v h0
                  Hwfr ltac:(vm_compute; done)) as Hins.
    unfold bind at 1 in Hstep.
    destruct (node_insert indeterminate (insertFuel 0)
                (InteriorNode a kMaxChildren bitmap children)
                (targetOf std_hash k) v 0 h0) as [[n' h']|f]; [|done].
    destruct Hins as (Hle & Hperm & Hpr').
    destruct (bool_decide (addrOf n' = addrOf (InteriorNode a kMaxChildren bitmap children)));
      [|done].
    rewrite bind_assert_true in Hstep. injection Hstep as <-. cbn [fst snd _root].
    split; [|by apply Hpr'].
    rewrite Hperm.
    replace (allocated h') with (allocated h0 + (allocated h' - allocated h0))%nat
      at 2 by lia.
    rewrite seq_app, Hheap0. cbn [plus]. solve_Permutation.
  - unfold MHashTree_remove in Hstep.
    destruct (_root t) as [root|] eqn:Hr.
    + destruct (tree_wf_root std_hash t root Hr Hwf)
        as (a & bitmap & children & -> & Hwfr).
      pose proof (node_remove_heap (InteriorNode a kMaxChildren bitmap children) 0 k h
                    (node_wf_of_interior std_hash _ a _ _ _ Hwfr) I) as Hrem.
      unfold bind at 1 in Hstep.
      destruct (node_remove (InteriorNode a kMaxChildren bitmap children)
                  (targetOf std_hash k) 0 h) as [[[removed n'] h']|f]; [|done].
      destruct Hrem as (Halloc & Hperm & Hpr' & _).
      cbn [ret rbind fst snd] in Hstep. injection Hstep as <-. cbn [fst snd _root].
      split; [|by apply Hpr']. by rewrite Hperm, Halloc.
    + cbn [ret rbind fst snd] in Hstep. injection Hstep as <-. cbn [fst snd].
      rewrite Hr. done.
Qed.

Lemma run_heap (ops : list op) :
  ∀ s s' : TreeT * Heap,
    tree_wf std_hash s.1 →
    liveAddrs s.1 ++ freed s.2 ≡ₚ seq 0 (allocated s.2) →
    prunedTree s.1 = true →
    run std_hash indeterminate ops s = Ok s' →
    liveAddrs s'.1 ++ freed s'.2 ≡ₚ seq 0 (allocated s'.2) ∧
    prunedTree s'.1 = true.
Proof.
  induction ops as [|o ops IH]; intros s s' Hwf Hheap Hpr Hrun.
  - cbn [run] in Hrun. by injection Hrun as <-.
  - cbn [run] in Hrun.
    destruct (step std_hash indeterminate s o) as [s1|f] eqn:Hstep; [|done].
    cbn [rbind] in Hrun.
    destruct (step_wf std_hash defaultVal indeterminate s s1 o Hwf Hstep) as [Hwf1 _].
    destruct (step_heap s s1 o Hwf Hheap Hpr Hstep) as [Hheap1 Hpr1].
    by apply (IH s1 s').
Qed.

Lemma reachable_heap (s : TreeT * Heap) :
  reachable std_hash indeterminate s →
  liveAddrs s.1 ++ freed s.2 ≡ₚ seq 0 (allocated s.2) ∧
  prunedTree s.1 = true.
Proof.
  intros [ops Hrun]. by apply (run_heap ops (emptyTree, emptyHeap) s).
Qed.

(** ** The destructor *)

Lemma forFirst_take {A B} (f : B → A → result B) (a : list A) :
  ∀ n acc, forFirst f a n acc = forFirst f (take n a) n acc.
Proof.
  induction a as [|c a IH]; intros [|n] acc; cbn [forFirst take]; try done.
  destruct (f acc c) as [acc'|]; cbn [rbind]; [apply IH|done].
Qed.

(** [freeChildren] deletes every node below the given one, once, and
    nothing else. *)
Lemma freeChildren_spec (n : NodeT) :
  ∀ shift h, node_wf std_hash shift n → isInterior n →
    ∃ h', freeChildren n h = Ok (tt, h') ∧
          allocated h' = allocated h ∧
          addrOf n :: freed h' ≡ₚ addrs n ++ freed h.
Proof.
  induction n as [la lh lk lv|a cap bitmap children IH] using Node_slots_ind;
    intros shift h Hwf Hint; [done|].
  apply node_wf_interior in Hwf.
  pose proof Hwf as (Hs1 & Hs2 & Hbm & Hcap & Hcnt & Hlen & Hslots).
  cbn [freeChildren addrOf]. rewrite forFirst_take, addrs_interior.
  fold (owned bitmap children).
  pose proof (owned_length bitmap children ltac:(lia)) as Hol.
  assert (Z.to_nat (childCount bitmap) = length (owned bitmap children)) as ->.
  { rewrite Hol. apply childCount_bitsOf. }
  assert (Forall (λ slot, match slot with
                          | Some c => ∀ s h0, node_wf std_hash s c → isInterior c →
                              ∃ h', freeChildren c h0 = Ok (tt, h') ∧
                                    allocated h' = allocated h0 ∧
                                    addrOf c :: freed h' ≡ₚ addrs c ++ freed h0
                          | None => True
                          end) (owned bitmap children)) as IH'
    by (by apply Forall_take).
  clear IH Hol Hlen.
  revert Hslots IH'. generalize (bitsOf bitmap) (owned bitmap children).
  intros bs slots Hslots IH. revert bs h Hslots.
  induction slots as [|slot slots IHs]; intros bs h Hslots.
  { exists h. cbn [forFirst length rbind mbind list_bind app]. done. }
  destruct bs as [|b0 bs]; [by apply Forall2_nil_cons_inv in Hslots|].
  apply Forall2_cons in Hslots as [Hslot Hslots].
  apply Forall_cons in IH as [Hc IH].
  specialize (IHs IH). cbn [length forFirst].
  destruct slot as [c|]; [|done]. destruct Hslot as [Hwfc _].
  destruct c as [la lh lk lv|ca ccap cbitmap cchildren].
  - cbn [delete_ rbind snd].
    destruct (IHs bs (mkHeap (allocated h) (la :: freed h)) Hslots)
      as (h' & Hrun & Halloc & Hperm).
    destruct (forFirst _ slots (length slots) _) as [h2|] eqn:Hfor; [|done].
    cbn [rbind] in Hrun |- *. injection Hrun as <-.
    exists h2. split_and!; [done|done|].
    rewrite Hperm, bind_cons. cbn [slotAddrs freed]. rewrite addrs_leaf.
    generalize (slots ≫= slotAddrs) (freed h). intros rest fr. solve_Permutation.
  - pose proof Hwfc as Hwfc'. apply node_wf_interior in Hwfc'.
    rewrite (interior_wf_capacity _ _ _ _ _ Hwfc').
    destruct (Hc (shift + kBitShift) h Hwfc I) as (h1 & Hfree & Halloc1 & Hperm1).
    rewrite Hfree. cbn [delete_ rbind snd].
    destruct (IHs bs (mkHeap (allocated h1) (ca :: freed h1)) Hslots)
      as (h' & Hrun & Halloc & Hperm).
    destruct (forFirst _ slots (length slots) _) as [h2|] eqn:Hfor; [|done].
    cbn [rbind] in Hrun |- *. injection Hrun as <-.
    exists h2. cbn [allocated] in Halloc. split_and!; [done|congruence|].
    rewrite Hperm, bind_cons. cbn [slotAddrs freed addrOf] in Hperm1 |- *.
    revert Hperm1.
    generalize (slots ≫= slotAddrs) (freed h) (freed h1)
               (addrs (InteriorNode ca ccap cbitmap cchildren)).
    intros rest fr f1 old Hperm1.
    transitivity (a :: rest ++ (ca :: f1)); [solve_Permutation|].
    rewrite Hperm1. solve_Permutation.
Qed.

End MHashTreeHeap.

(** ** When insert stops at the depth limit *)

Section MHashTreeCollision.

Context {Key Val : Type} `{Countable Key}.
Variable std_hash : Key → Z.
Variable defaultVal : Val.
Variable indeterminate : option (Node (Key:=Key) (Val:=Val)).

Local Abbreviation NodeT := (Node (Key:=Key) (Val:=Val)).
Local Abbreviation TreeT := (MHashTree (Key:=Key) (Val:=Val)).
Local Abbreviation hashOf k := (to_size_t (std_hash k)).


End MHashTreeCollision.

(** ** Further properties of the trie *)

Section MHashTreeMore.

Context {Key Val : Type} `{Countable Key}.
Variable std_hash : Key → Z.
Variable defaultVal : Val.
Variable indeterminate : option (Node (Key:=Key) (Val:=Val)).

Local Abbreviation NodeT := (Node (Key:=Key) (Val:=Val)).
Local Abbreviation TreeT := (MHashTree (Key:=Key) (Val:=Val)).
Local Abbreviation hashOf k := (to_size_t (std_hash k)).

Lemma run_contents (ops : list op) :
  ∀ s s' : TreeT * Heap,
    tree_wf std_hash s.1 → run std_hash indeterminate ops s = Ok s' →
    contents s'.1 = mapAfter ops (contents s.1).
Proof.
  induction ops as [|o ops IH]; intros s s' Hwf Hrun.
  - cbn [run] in Hrun. by injection Hrun as <-.
  - cbn [run] in Hrun.
    destruct (step std_hash indeterminate s o) as [s1|f] eqn:Hstep; [|done].
    cbn [rbind] in Hrun.
    destruct (step_wf std_hash defaultVal indeterminate s s1 o Hwf Hstep)
      as [Hwf1 Hcontents].
    rewrite (IH s1 s' Hwf1 Hrun), Hcontents. by destruct o.
Qed.


(** X1: after any run of inserts and removes from the empty trie, [get(k)]
    returns the value of the last [insert(k, v)] that no [remove(k)] followed,
    and [Val{}] when there is none: the trie is the finite map the run
    describes. *)
Theorem get_after_run (ops : list op) (t : MHashTree (Key:=Key) (Val:=Val)) h k :
  run std_hash indeterminate ops (emptyTree, emptyHeap) = Ok (t, h) →
  MHashTree_get std_hash defaultVal t k
  = Ok (default defaultVal (mapAfter ops ∅ !! k)).
Proof.
  intros Hrun.
  destruct (run_wf std_hash defaultVal indeterminate ops (emptyTree, emptyHeap)
              (t, h) I Hrun) as [Hwf _].
  pose proof (run_contents ops (emptyTree, emptyHeap) (t, h) I Hrun) as Hc.
  cbn [fst contents emptyTree _root] in Hwf, Hc.
  by rewrite (MHashTree_get_spec std_hash defaultVal t k Hwf), Hc.
Qed.


(** X3: [remove(k)] never fails and never allocates; it returns whether [k]
    was present; when it returns [false] the trie and the heap are exactly
    as before, and when it returns [true] at least one node was deleted. *)
Theorem remove_effect (t : MHashTree (Key:=Key) (Val:=Val)) h k :
  reachable std_hash indeterminate (t, h) →
  ∃ t' h',
    MHashTree_remove std_hash t k h
    = Ok (bool_decide (is_Some (contents t !! k)), t', h') ∧
    allocated h' = allocated h ∧
    if bool_decide (is_Some (contents t !! k))
    then (length (freed h) < length (freed h'))%nat
    else t' = t ∧ h' = h.
Proof.
  intros Hr. apply (reachable_tree_wf std_hash defaultVal indeterminate) in Hr.
  destruct (remove_Ok_spec std_hash t h k Hr) as (t' & h' & Hrem & _).
  exists t', h'. split; [done|]. revert Hrem.
  generalize (bool_decide (is_Some (contents t !! k))). intros b Hrem.
  unfold MHashTree_remove in Hrem. destruct t as [[root|]]; cbn [_root] in *.
  - destruct (tree_wf_root std_hash (mkTree (Some root)) root eq_refl Hr)
      as (a & bitmap & children & -> & Hwfr).
    pose proof (node_remove_heap std_hash (InteriorNode a kMaxChildren bitmap children)
                  0 k h (node_wf_of_interior std_hash _ a _ _ _ Hwfr) I) as Hheap.
    unfold bind at 1 in Hrem.
    destruct (node_remove (InteriorNode a kMaxChildren bitmap children)
                (targetOf std_hash k) 0 h) as [[[removed n'] h2]|f]; [|done].
    cbn [ret fst snd] in Hrem. injection Hrem as -> <- ->.
    destruct Hheap as (Halloc & _ & _ & Hsame & Hfreed). split; [done|].
    destruct b; [by apply Hfreed|]. by destruct (Hsame eq_refl) as [-> ->].
  - cbn [ret] in Hrem. by injection Hrem as <- <- <-.
Qed.

(** X4: an [insert(k, v)] or a [remove(k)] changes what [get] returns for
    no key other than [k]. *)
Theorem other_keys_unchanged (t t' : MHashTree (Key:=Key) (Val:=Val)) h h' k k' :
  reachable std_hash indeterminate (t, h) →
  k' ≠ k →
  ((∃ v, MHashTree_insert std_hash indeterminate t k v h = Ok (t', h')) ∨
   (∃ b, MHashTree_remove std_hash t k h = Ok (b, t', h'))) →
  MHashTree_get std_hash defaultVal t' k' = MHashTree_get std_hash defaultVal t k'.
Proof.
  intros Hr Hne Hop. apply (reachable_tree_wf std_hash defaultVal indeterminate) in Hr.
  rewrite (MHashTree_get_spec std_hash defaultVal t k' Hr).
  destruct Hop as [[v Hins]|[b Hrem]].
  - destruct (insert_Ok_spec std_hash defaultVal indeterminate _ _ _ _ _ _ Hr Hins)
      as (Hwf' & Hc & _).
    by rewrite (MHashTree_get_spec std_hash defaultVal t' k' Hwf'), Hc,
         lookup_insert_ne.
  - pose proof (MHashTree_remove_spec std_hash t k h Hr) as Hspec.
    rewrite Hrem in Hspec. destruct Hspec as (Hwf' & Hc & _).
    by rewrite (MHashTree_get_spec std_hash defaultVal t' k' Hwf'), Hc,
         lookup_delete_ne.
Qed.

(** X5: in every reachable state the nodes in the trie and the deleted
    nodes are exactly the nodes that were ever allocated, each of them once:
    no node leaks, none is deleted twice, and the trie points to no deleted
    node. *)
Theorem nodes_live_or_deleted_once (s : MHashTree (Key:=Key) (Val:=Val) * Heap) :
  reachable std_hash indeterminate s →
  liveAddrs s.1 ++ freed s.2 ≡ₚ seq 0 (allocated s.2) ∧
  NoDup (liveAddrs s.1 ++ freed s.2) ∧
  ∀ a, a ∈ liveAddrs s.1 → (a ∉ freed s.2) ∧ (a < allocated s.2)%nat.
Proof.
  intros Hr.
  destruct (reachable_heap std_hash defaultVal indeterminate s Hr) as [Hperm _].
  assert (NoDup (liveAddrs s.1 ++ freed s.2)) as Hnd
    by (rewrite Hperm; apply NoDup_seq).
  split_and!; [done|done|]. intros a Ha. split.
  - apply NoDup_app in Hnd as (_ & Hdisj & _). by apply Hdisj.
  - assert (a ∈ seq 0 (allocated s.2)) as Hin
      by (rewrite <- Hperm, elem_of_app; by left).
    apply elem_of_seq in Hin. lia.
Qed.

(** X6: the destructor deletes every node below the root, once; with the
    nodes deleted before, all that were ever allocated have then been
    deleted once, the root apart, which the owner of [_root] releases. *)
Theorem destructor_deletes_all_but_root (t : MHashTree (Key:=Key) (Val:=Val)) h :
  reachable std_hash indeterminate (t, h) →
  ∃ h',
    MHashTree_destroy t h = Ok (tt, h') ∧
    allocated h' = allocated h ∧
    match _root t with
    | Some root => addrOf root :: freed h'
    | None => freed h'
    end ≡ₚ seq 0 (allocated h).
Proof.
  intros Hr.
  destruct (reachable_heap std_hash defaultVal indeterminate (t, h) Hr) as [Hperm _].
  apply (reachable_tree_wf std_hash defaultVal indeterminate) in Hr.
  cbn [fst snd] in Hperm. unfold MHashTree_destroy, liveAddrs in *.
  destruct (_root t) as [root|] eqn:Hroot.
  - destruct (tree_wf_root std_hash t root Hroot Hr)
      as (a & bitmap & children & -> & Hwfr).
    destruct (freeChildren_spec std_hash (InteriorNode a kMaxChildren bitmap children)
                0 h (node_wf_of_interior std_hash _ a _ _ _ Hwfr) I)
      as (h' & Hfree & Halloc & Hdel).
    exists h'. split_and!; [done|done|]. by rewrite Hdel.
  - exists h. split_and!; done.
Qed.

(** X7: when a child is added to a node that is full, the node is replaced
    by a copy with exactly one more slot at a fresh address and is deleted;
    with a free slot the node stays where it is.  Either way the children
    the node owns are those of before with the new child at the index of its
    bit, and the assertion of [grow] on the capacity holds. *)
Theorem addChild_grows_by_one shift a cap bitmap
    (children : list (option (Node (Key:=Key) (Val:=Val)))) b child h :
  interior_wf std_hash shift cap bitmap children →
  0 ≤ b < 32 → Z.testbit bitmap b = false →
  slotOk std_hash shift b (Some child) →
  ∃ a' cap' children' h',
    addChild indeterminate (InteriorNode a cap bitmap children) b child h
    = Ok (InteriorNode a' cap' (Bitmap.addBit bitmap b) children', h') ∧
    owned (Bitmap.addBit bitmap b) children'
    = take (Z.to_nat (childIndexForBitNumber bitmap b)) (owned bitmap children)
        ++ Some child
        :: drop (Z.to_nat (childIndexForBitNumber bitmap b)) (owned bitmap children) ∧
    length children' = Z.to_nat cap' ∧
    if childCount bitmap <? cap
    then a' = a ∧ cap' = cap ∧ h' = h
    else a' = allocated h ∧ cap' = cap + 1 ∧ cap' ≤ kMaxChildren ∧
         h' = mkHeap (S (allocated h)) (a :: freed h).
Proof.
  intros Hwf Hb Hbit Hok.
  destruct (addChild_spec std_hash indeterminate shift a cap bitmap children b child h
              Hwf Hb Hbit Hok)
    as (a' & cap' & children' & h' & Hrun & Hwf' & Hown & _).
  destruct (addChild_heap std_hash indeterminate shift a cap bitmap children b child h
              Hwf Hb Hbit Hok)
    as (a2 & cap2 & children2 & h2 & Hrun2 & Hheap).
  rewrite Hrun in Hrun2. injection Hrun2 as <- <- <- <-.
  exists a', cap', children', h'. split_and!; [done|done|by destruct Hwf' as (_&_&_&_&_&?&_)|].
  destruct Hwf' as (_ & _ & _ & Hcap' & _).
  destruct Hheap as [(Hfree & -> & -> & ->)|(Hfull & -> & -> & ->)].
  - by rewrite (proj2 (Z.ltb_lt _ _) Hfree).
  - rewrite (proj2 (Z.ltb_ge _ _)) by lia. split_and!; [done|done|lia|done].
Qed.

(** X8: in a reachable trie no interior node below the root is empty:
    [remove] takes an interior node out of its parent, and deletes it, as
    soon as its last child has gone. *)
Theorem no_empty_interior_node (s : MHashTree (Key:=Key) (Val:=Val) * Heap) :
  reachable std_hash indeterminate s → prunedTree s.1 = true.
Proof.
  intros Hr. by destruct (reachable_heap std_hash defaultVal indeterminate s Hr).
Qed.

(** X9: once every key has been removed again, [count()] is 0 and at most
    the root is left in the trie: every other node that was allocated has
    been deleted. *)
Theorem emptied_trie_keeps_only_root (ops : list op)
    (t : MHashTree (Key:=Key) (Val:=Val)) h :
  run std_hash indeterminate ops (emptyTree, emptyHeap) = Ok (t, h) →
  mapAfter ops ∅ = ∅ →
  MHashTree_count t = Ok 0 ∧
  (length (liveAddrs t) ≤ 1)%nat ∧
  (length (freed h) + length (liveAddrs t) = allocated h)%nat.
Proof.
  intros Hrun Hempty.
  destruct (run_wf std_hash defaultVal indeterminate ops (emptyTree, emptyHeap)
              (t, h) I Hrun) as [Hwf _].
  pose proof (run_contents ops (emptyTree, emptyHeap) (t, h) I Hrun) as Hc.
  cbn [fst contents emptyTree _root] in Hwf, Hc. rewrite Hempty in Hc.
  destruct (reachable_heap std_hash defaultVal indeterminate (t, h)
              (ex_intro _ ops Hrun)) as [Hperm Hpr].
  cbn [fst snd] in Hperm, Hpr.
  split_and!.
  - by rewrite (MHashTree_count_spec std_hash t Hwf), Hc, map_size_empty.
  - unfold liveAddrs, prunedTree in *.
    destruct (_root t) as [root|] eqn:Hroot; [|cbn [length]; lia].
    destruct (tree_wf_root std_hash t root Hroot Hwf)
      as (a & bitmap & children & -> & Hwfr).
    destruct (Bitmap.empty bitmap) eqn:Hbm.
    + by rewrite (addrs_empty_bitmap _ _ _ _ Hbm).
    + exfalso.
      apply (pruned_leaves std_hash (InteriorNode a kMaxChildren bitmap children)
               Hpr Hbm 0 (node_wf_of_interior std_hash _ a _ _ _ Hwfr)).
      rewrite (contents_root t _ Hroot) in Hc.
      destruct (leaves (InteriorNode a kMaxChildren bitmap children))
        as [|[k0 v0] l]; [done|].
      cbn [list_to_map foldr] in Hc. by apply insert_non_empty in Hc.
  - apply Permutation_length in Hperm.
    rewrite length_app, length_seq in Hperm. lia.
Qed.

(** X10: a reachable trie is at most twelve interior nodes deep, one for
    each 5-bit slice of the hash that the assertion on the depth lets
    through, so that a lookup visits at most twelve interior nodes. *)
Theorem depth_at_most_twelve (s : MHashTree (Key:=Key) (Val:=Val) * Heap) :
  reachable std_hash indeterminate s → (treeHeight s.1 ≤ 12)%nat.
Proof.
  intros Hr. apply (reachable_wf std_hash defaultVal indeterminate) in Hr.
  unfold treeHeight. destruct (_root s.1) as [root|] eqn:Hroot; [|lia].
  destruct (tree_wf_root std_hash s.1 root Hroot Hr)
    as (a & bitmap & children & -> & Hwfr).
  pose proof (node_wf_height std_hash (InteriorNode a kMaxChildren bitmap children) 0
                (node_wf_of_interior std_hash _ a _ _ _ Hwfr) I) as Hh.
  trie_lia.
Qed.

(** X11: the root is allocated by the first [insert], with 32 slots, and is
    the same object from then on: no [insert] replaces it and no [remove]
    releases it, even when the trie becomes empty. *)
Theorem root_stays (s s' : MHashTree (Key:=Key) (Val:=Val) * Heap) o :
  reachable std_hash indeterminate s →
  step std_hash indeterminate s o = Ok s' →
  match _root s.1 with
  | Some root =>
      ∃ root', _root s'.1 = Some root' ∧ addrOf root' = addrOf root ∧
               capacityOf root' = kMaxChildren ∧ capacityOf root = kMaxChildren
  | None =>
      match o with
      | Insert _ _ =>
          ∃ root', _root s'.1 = Some root' ∧ addrOf root' = allocated s.2 ∧
                   capacityOf root' = kMaxChildren
      | Remove _ => s' = s
      end
  end.
Proof.
  intros Hr Hstep.
  apply (reachable_wf std_hash defaultVal indeterminate) in Hr.
  destruct (step_wf std_hash defaultVal indeterminate s s' o Hr Hstep) as [Hwf' _].
  destruct s as [t h]. cbn [fst snd] in *.
  destruct o as [k v|k]; cbn [step fst snd] in Hstep.
  - unfold MHashTree_insert in Hstep.
    assert (∀ root h0,
      bind (node_insert indeterminate (insertFuel 0) root (targetOf std_hash k) v 0)
        (λ root', bind (assertM (bool_decide (addrOf root' = addrOf root))
                          UndefinedBehavior)
                    (λ _, ret (mkTree (Some root')))) h0 = Ok s' →
      ∃ root', _root s'.1 = Some root' ∧ addrOf root' = addrOf root ∧
               capacityOf root' = kMaxChildren) as Hgen.
    { intros root h0 Hrun. unfold bind at 1 in Hrun.
      destruct (node_insert indeterminate _ root _ v 0 h0) as [[root' h1]|]; [|done].
      case_bool_decide as Haddr; [|done].
      rewrite bind_assert_true in Hrun. injection Hrun as <-. cbn [fst _root] in *.
      exists root'. split_and!; [done|done|].
      by destruct Hwf' as (_ & _ & ?). }
    destruct (_root t) as [root|] eqn:Hroot.
    + rewrite bind_ret in Hstep. destruct (Hgen root h Hstep) as (root' & ? & ? & ?).
      exists root'. split_and!; try done. unfold tree_wf in Hr. rewrite Hroot in Hr.
      by destruct Hr as (_ & _ & ?).
    + destruct (newRoot_wf (Val:=Val) std_hash h) as (root & Hnew & Hroot' & _).
      rewrite (bind_Ok _ _ _ _ _ Hnew) in Hstep.
      destruct (Hgen root _ Hstep) as (root' & ? & ? & ?).
      exists root'. split_and!; try done. by rewrite Hroot' in *.
  - unfold MHashTree_remove in Hstep.
    destruct (_root t) as [root|] eqn:Hroot.
    + destruct (tree_wf_root std_hash t root Hroot Hr)
        as (a & bitmap & children & -> & Hwfr).
      pose proof (node_remove_spec std_hash (InteriorNode a kMaxChildren bitmap children)
                    0 k h (node_wf_of_interior std_hash _ a _ _ _ Hwfr) I) as Hspec.
      unfold bind at 1 in Hstep.
      destruct (node_remove (InteriorNode a kMaxChildren bitmap children)
                  (targetOf std_hash k) 0 h) as [[[removed n'] h2]|f]; [|done].
      destruct Hspec as (bitmap' & children' & -> & _).
      cbn [ret rbind fst snd] in Hstep. injection Hstep as <-. cbn [fst _root].
      eexists. split_and!; done.
    + cbn [ret rbind fst snd] in Hstep. injection Hstep as <-.
      destruct t as [r]. cbn [_root] in Hroot. by subst r.
Qed.

End MHashTreeMore.

(** ** Further properties of smallVector *)

Section SmallVectorMore.

Context {T : Type}.
Variable N : Z.
Variable defaultT : T.
Variable unwritten : T.

Local Abbreviation vec := (smallVector (T:=T)).
Local Abbreviation inv := (sv_inv (T:=T) N).




(** X14: [pop_back()] asserts that the vector is not empty and drops the
    last item; after a [push_back] it gives back the items of before. *)
Theorem pop_back_drops_last (sv : smallVector (T:=T)) :
  sv_inv N sv →
  (_size sv = 0 → pop_back sv = Fail AssertionFailed) ∧
  (0 < _size sv →
   ∃ sv', pop_back sv = Ok sv' ∧ _size sv' = _size sv - 1 ∧
          elems sv' = take (Z.to_nat (_size sv - 1)) (elems sv)) ∧
  (∀ heapOk t sv1,
     push_back N unwritten heapOk t sv = Ok sv1 →
     ∃ sv2, pop_back sv1 = Ok sv2 ∧ _size sv2 = _size sv ∧ elems sv2 = elems sv).
Proof.
  intros Hinv. pose proof (pop_back_elems N sv Hinv) as Hpop.
  split_and!.
  - intros Hz. destruct (pop_back sv) as [sv'|f]; [lia|]. by destruct Hpop as [-> _].
  - intros Hpos. destruct (pop_back sv) as [sv'|f]; [|lia].
    exists sv'. by destruct Hpop as (_ & ? & ?).
  - intros heapOk t sv1 Hpush.
    destruct (push_back_elems N unwritten heapOk t sv sv1 Hinv Hpush) as [Hel Hsz].
    pose proof (push_back_cases N unwritten heapOk t sv Hinv) as Hcases.
    rewrite Hpush in Hcases. destruct Hcases as (Hinv1 & _).
    pose proof (pop_back_elems N sv1 Hinv1) as Hpop1.
    pose proof Hinv as (Hsize & _).
    destruct (pop_back sv1) as [sv2|f]; [|lia].
    destruct Hpop1 as (_ & Hsz2 & Hel2). exists sv2. split_and!; [done|lia|].
    rewrite Hel2, Hel, Hsz, take_app_length'; [done|].
    rewrite (elems_length N) by done. lia.
Qed.

(** X15: [erase(first, last)] asserts [begin() <= first <= last <= end()]
    and takes the items from [first] up to [last] out, the later ones moving
    down. *)
Theorem erase_removes_range first last (sv : smallVector (T:=T)) :
  sv_inv N sv →
  (0 ≤ first ∧ first ≤ last ∧ last ≤ _size sv →
   ∃ sv', erase first last sv = Ok sv' ∧
          _size sv' = _size sv - (last - first) ∧
          elems sv' = take (Z.to_nat first) (elems sv)
                        ++ drop (Z.to_nat last) (elems sv)) ∧
  (¬ (0 ≤ first ∧ first ≤ last ∧ last ≤ _size sv) →
   erase first last sv = Fail AssertionFailed).
Proof.
  intros Hinv. pose proof (erase_elems N first last sv Hinv) as Herase.
  destruct (erase first last sv) as [sv'|f]; split.
  - intros _. exists sv'. by destruct Herase as (_ & _ & _ & ? & ?).
  - intros Hbad. destruct Herase as (? & ? & ? & _). by destruct Hbad.
  - intros Hgood. by destruct Herase as [_ ?].
  - intros _. by destruct Herase as [-> _].
Qed.

(** X16: [resize(sz)] keeps the first [sz] items and pads with [T()] up to
    [sz]; it cannot fail when [sz] is not larger than the size.  [clear()]
    leaves no item, and [smallVector(size)] holds [size] times [T()]. *)
Theorem resize_truncates_or_pads heapOk sz (sv : smallVector (T:=T)) :
  sv_inv N sv → 0 ≤ sz →
  (∀ sv', resize N defaultT unwritten heapOk sz sv = Ok sv' →
          _size sv' = sz ∧
          elems sv' = take (Z.to_nat sz) (elems sv)
                        ++ replicate (Z.to_nat (sz - _size sv)) defaultT) ∧
  (sz ≤ _size sv → ∃ sv', resize N defaultT unwritten heapOk sz sv = Ok sv') ∧
  (∃ sv', clear sv = Ok sv' ∧ _size sv' = 0 ∧ elems sv' = []) ∧
  (0 ≤ N ≤ UINT32_MAX →
   ∀ sv', newVectorSized N defaultT unwritten heapOk sz = Ok sv' →
          elems sv' = replicate (Z.to_nat sz) defaultT).
Proof.
  intros Hinv Hsz. split_and!.
  - intros sv'. by apply resize_elems.
  - intros Hle. unfold resize, shrinkTo.
    rewrite (proj2 (Z.ltb_ge _ _)) by lia. destruct (sz <? _size sv); by eexists.
  - by apply (clear_elems N).
  - intros HN sv' Hnew. unfold newVectorSized in Hnew.
    destruct (resize_elems N defaultT unwritten heapOk sz (newVector N unwritten) sv'
                (newVector_inv N unwritten HN) Hsz Hnew) as [_ ->].
    unfold elems, newVector. cbn [_size]. by rewrite take_0, take_nil, Z.sub_0_r.
Qed.

(** X17: [setCapacity(cap)] and [reserve(cap)] keep the items and their
    number; after [setCapacity(cap)] the items are in a heap block exactly
    when [cap] exceeds [N], so that a capacity of at most [N] brings them
    back inline; after [reserve(cap)] the capacity is at least [cap]. *)
Theorem setCapacity_keeps_items heapOk cap (sv : smallVector (T:=T)) :
  sv_inv N sv → 0 ≤ cap →
  (∀ sv', setCapacity N unwritten heapOk cap sv = Ok sv' →
          elems sv' = elems sv ∧ _size sv' = _size sv ∧
          (onHeap sv' = true ↔ N < cap)) ∧
  (∀ sv', reserve N unwritten heapOk cap sv = Ok sv' →
          elems sv' = elems sv ∧ _size sv' = _size sv ∧ cap ≤ _capacity sv').
Proof.
  intros Hinv Hcap.
  assert (∀ sv', setCapacity N unwritten heapOk cap sv = Ok sv' →
                 elems sv' = elems sv ∧ _size sv' = _size sv ∧
                 _capacity sv' = cap ∧ (onHeap sv' = true ↔ N < cap)) as Hset.
  { intros sv' Hrun.
    destruct (setCapacity_elems N unwritten heapOk cap sv sv' Hinv Hcap Hrun)
      as [Hel Hsz].
    pose proof (setCapacity_cases N unwritten heapOk cap sv Hinv Hcap) as Hcases.
    rewrite Hrun in Hcases.
    destruct Hcases as (_ & _ & (_ & _ & _ & Hbig) & Hcap' & _).
    split_and!; [done|done|done|]. unfold onHeap.
    destruct (_big sv'); [destruct Hbig|]; split; (done || lia). }
  split.
  - intros sv' Hrun. by destruct (Hset sv' Hrun) as (? & ? & _ & ?).
  - intros sv' Hrun. unfold reserve in Hrun.
    destruct (Z.ltb_spec (_capacity sv) cap).
    + destruct (Hset sv' Hrun) as (? & ? & ? & _). split_and!; [done|done|lia].
    + injection Hrun as <-. split_and!; [done|done|lia].
Qed.

(** X18: [get(i)] and [operator[]] return the item at index [i] and assert
    [i < size()]; [back()] returns the last item and asserts that there is
    one. *)
Theorem get_is_bounds_checked (sv : smallVector (T:=T)) i :
  sv_inv N sv → 0 ≤ i →
  (i < _size sv →
   ∃ x, sv_get sv i = Ok x ∧ sv_index sv i = Ok x ∧
        elems sv !! Z.to_nat i = Some x) ∧
  (_size sv ≤ i → sv_get sv i = Fail AssertionFailed) ∧
  (_size sv = 0 → sv_back sv = Fail AssertionFailed) ∧
  (0 < _size sv → ∃ x, sv_back sv = Ok x ∧ last (elems sv) = Some x).
Proof.
  intros Hinv Hi. pose proof (sv_get_spec N sv i Hinv Hi) as Hget.
  pose proof Hinv as (Hsize & Hcap & _).
  split_and!.
  - intros Hlt. unfold sv_index. destruct (sv_get sv i) as [x|f].
    + exists x. by destruct Hget.
    + destruct Hget as [_ ?]. lia.
  - intros Hge. destruct (sv_get sv i) as [x|f].
    + destruct Hget as [? _]. lia.
    + by destruct Hget as [-> _].
  - intros Hz. unfold sv_back, sv_get. rewrite Hz. done.
  - intros Hpos. unfold sv_back. rewrite to_uint32_small by lia.
    pose proof (sv_get_spec N sv (_size sv - 1) Hinv ltac:(lia)) as Hback.
    destruct (sv_get sv (_size sv - 1)) as [x|f].
    + exists x. split; [done|]. destruct Hback as [_ Hx].
      rewrite last_lookup, (elems_length N) by done.
      replace (Init.Nat.pred (Z.to_nat (_size sv))) with (Z.to_nat (_size sv - 1))
        by lia.
      done.
    + destruct Hback as [_ ?]. lia.
Qed.


(** X20: a move from a vector that has a heap block leaves the source with
    the capacity of the block it gave away and only its inline buffer of [N]
    slots: the source no longer satisfies the invariant, [N] pushes onto it
    succeed, and the next one writes past the inline buffer instead of
    growing. *)
Theorem moved_from_source_overflows (sv : smallVector (T:=T)) :
  sv_inv N sv → onHeap sv = true → 0 ≤ N →
  ∃ new old,
    moveConstruct N unwritten sv = Ok (new, old) ∧
    _size old = 0 ∧ _capacity old = _capacity sv ∧ onHeap old = false ∧
    N < _capacity old ∧
    ∀ heapOk ts t,
      length ts = Z.to_nat N →
      ∃ old', push_all N unwritten heapOk ts old = Ok old' ∧
              elems old' = ts ∧
              push_back N unwritten heapOk t old' = Fail UndefinedBehavior.
Proof.
  intros Hinv Hheap HN. pose proof Hinv as (Hsize & Hcap & Hsmall & Hbig).
  unfold onHeap in Hheap. destruct (_big sv) as [big|] eqn:Hfrom; [|done].
  destruct Hbig as [Hbig _].
  unfold moveConstruct. rewrite Hfrom. cbn [rbind fst _size _capacity].
  rewrite (proj2 (Z.leb_le _ _)) by lia. cbn [negb].
  eexists _, _. split; [done|]. cbn [_size _capacity onHeap _big].
  split_and!; [done|done|done|done|].
  intros heapOk ts t Hlen.
  destruct (push_all_stranded N unwritten heapOk ts
              (mkVector 0 (_capacity sv) (_small sv) None (setCapacityCalls sv)))
    as (old' & Hrun & Hel & Hover); cbn [_size _capacity _small _big]; try done; try lia.
  exists old'. split_and!; [done| |done].
  rewrite Hel. unfold elems. cbn [_size]. done.
Qed.

End SmallVectorMore.

(** ** The further properties on concrete tries and vectors *)

Lemma exStale_reachable : reachable exHash None (exAfter exStaleOps).
Proof. exists exStaleOps. vm_compute. reflexivity. Qed.


Lemma get_after_run_witness :
  run exHash None exStaleOps (emptyTree, emptyHeap)
  = Ok ((exAfter exStaleOps).1, (exAfter exStaleOps).2) ∧
  MHashTree_get exHash 0 (exAfter exStaleOps).1 (2 ^ 20)
  = Ok (default 0 (mapAfter exStaleOps ∅ !! (2 ^ 20))).
Proof.
  assert (run exHash None exStaleOps (emptyTree, emptyHeap)
          = Ok ((exAfter exStaleOps).1, (exAfter exStaleOps).2))
    as Hrun by (vm_compute; reflexivity).
  split; [exact Hrun|].
  exact (get_after_run exHash 0 None exStaleOps _ _ (2 ^ 20) Hrun).
Defined.


Lemma remove_effect_witness :
  reachable exHash None (exTrie, exHeap) ∧
  ∃ t' h',
    MHashTree_remove exHash exTrie 33 exHeap
    = Ok (bool_decide (is_Some (contents exTrie !! 33)), t', h') ∧
    allocated h' = allocated exHeap ∧
    if bool_decide (is_Some (contents exTrie !! 33))
    then (length (freed exHeap) < length (freed h'))%nat
    else t' = exTrie ∧ h' = exHeap.
Proof.
  split; [exact exTrie_reachable|].
  exact (remove_effect exHash 0 None exTrie exHeap 33 exTrie_reachable).
Defined.

Lemma other_keys_unchanged_witness :
  reachable exHash None (exTrie, exHeap) ∧
  1 ≠ 33 ∧
  MHashTree_insert exHash None exTrie 33 12 exHeap = Ok (exTrie2, exHeap2) ∧
  MHashTree_get exHash 0 exTrie2 1 = MHashTree_get exHash 0 exTrie 1.
Proof.
  assert (1 ≠ 33) as Hkey by lia.
  assert (MHashTree_insert exHash None exTrie 33 12 exHeap = Ok (exTrie2, exHeap2))
    as Hinsert by (vm_compute; reflexivity).
  split; [exact exTrie_reachable|]. split; [exact Hkey|]. split; [exact Hinsert|].
  exact (other_keys_unchanged exHash 0 None exTrie exTrie2 exHeap exHeap2 33 1
           exTrie_reachable Hkey (or_introl (ex_intro _ 12 Hinsert))).
Defined.

Lemma nodes_live_or_deleted_once_witness :
  reachable exHash None (exAfter exStaleOps) ∧
  liveAddrs (exAfter exStaleOps).1 ++ freed (exAfter exStaleOps).2
    ≡ₚ seq 0 (allocated (exAfter exStaleOps).2) ∧
  NoDup (liveAddrs (exAfter exStaleOps).1 ++ freed (exAfter exStaleOps).2) ∧
  ∀ a, a ∈ liveAddrs (exAfter exStaleOps).1 →
       (a ∉ freed (exAfter exStaleOps).2) ∧
       (a < allocated (exAfter exStaleOps).2)%nat.
Proof.
  split; [exact exStale_reachable|].
  exact (nodes_live_or_deleted_once exHash 0 None _ exStale_reachable).
Defined.

Lemma destructor_deletes_all_but_root_witness :
  reachable exHash None (exTrie, exHeap) ∧
  ∃ h',
    MHashTree_destroy exTrie exHeap = Ok (tt, h') ∧
    allocated h' = allocated exHeap ∧
    match _root exTrie with
    | Some root => addrOf root :: freed h'
    | None => freed h'
    end ≡ₚ seq 0 (allocated exHeap).
Proof.
  split; [exact exTrie_reachable|].
  exact (destructor_deletes_all_but_root exHash 0 None exTrie exHeap
           exTrie_reachable).
Defined.

Lemma exFullChildren_wf : interior_wf exHash 5 4 15 exFullChildren.
Proof.
  assert (reachable exHash None
            (exAfter [Insert 1 10; Insert 33 11; Insert 65 12; Insert 97 13]))
    as Hreach
    by (exists [Insert 1 10; Insert 33 11; Insert 65 12; Insert 97 13];
        vm_compute; reflexivity).
  apply (reachable_wf exHash 0 None) in Hreach.
  assert (_root (exAfter [Insert 1 10; Insert 33 11; Insert 65 12; Insert 97 13]).1
          = Some (InteriorNode 0 32 2
                    (<[0%nat := Some (InteriorNode 2 4 15 exFullChildren)]>
                       exRootChildren)))
    as Hroot by (vm_compute; reflexivity).
  destruct (tree_wf_root exHash _ _ Hroot Hreach)
    as (a & bitmap & children & Heq & Hwf).
  injection Heq as <- <- <-.
  destruct Hwf as (_ & _ & _ & _ & _ & _ & Hslots).
  assert (bitsOf 2 = [1]) as Hbits by (vm_compute; reflexivity).
  match type of Hslots with
  | Forall2 _ _ ?l =>
      assert (l = [Some (InteriorNode 2 4 15 exFullChildren)]) as Howned
        by (vm_compute; reflexivity)
  end.
  rewrite Hbits, Howned in Hslots.
  apply Forall2_cons_1 in Hslots as [[Hnode _] _].
  by apply node_wf_interior in Hnode.
Qed.

Lemma addChild_grows_by_one_witness :
  interior_wf exHash 5 4 15 exFullChildren ∧
  0 ≤ 4 < 32 ∧ Z.testbit 15 4 = false ∧
  slotOk exHash 5 4 (Some (LeafNode 6 129 129 14)) ∧
  ∃ a' cap' children' h',
    addChild None (InteriorNode 2 4 15 exFullChildren) 4 (LeafNode 6 129 129 14)
      (mkHeap 7 [])
    = Ok (InteriorNode a' cap' (Bitmap.addBit 15 4) children', h') ∧
    owned (Bitmap.addBit 15 4) children'
    = take (Z.to_nat (childIndexForBitNumber 15 4)) (owned 15 exFullChildren)
        ++ Some (LeafNode 6 129 129 14)
        :: drop (Z.to_nat (childIndexForBitNumber 15 4)) (owned 15 exFullChildren) ∧
    length children' = Z.to_nat cap' ∧
    if childCount 15 <? 4
    then a' = 2%nat ∧ cap' = 4 ∧ h' = mkHeap 7 []
    else a' = allocated (mkHeap 7 []) ∧ cap' = 4 + 1 ∧ cap' ≤ kMaxChildren ∧
         h' = mkHeap (S (allocated (mkHeap 7 []))) (2%nat :: freed (mkHeap 7 [])).
Proof.
  assert (0 ≤ 4 < 32) as Hb by lia.
  assert (Z.testbit 15 4 = false) as Hbit by reflexivity.
  assert (slotOk exHash 5 4 (Some (LeafNode 6 129 129 14))) as Hslot.
  { split; [reflexivity|]. intros k v Hin. unfold leaves in Hin.
    apply list_elem_of_singleton in Hin. injection Hin as -> ->.
    vm_compute. reflexivity. }
  split; [exact exFullChildren_wf|]. split; [exact Hb|]. split; [exact Hbit|].
  split; [exact Hslot|].
  exact (addChild_grows_by_one exHash None 5 2%nat 4 15 exFullChildren 4
           (LeafNode 6 129 129 14) (mkHeap 7 []) exFullChildren_wf Hb Hbit Hslot).
Defined.

Lemma no_empty_interior_node_witness :
  reachable exHash None (exAfter exStaleOps) ∧
  prunedTree (exAfter exStaleOps).1 = true.
Proof.
  split; [exact exStale_reachable|].
  exact (no_empty_interior_node exHash 0 None _ exStale_reachable).
Defined.

Lemma exEmptiedOps_map : mapAfter exEmptiedOps (∅ : gmap Z Z) = ∅.
Proof.
  unfold exEmptiedOps. cbn [mapAfter]. apply map_eq. intros i.
  rewrite lookup_empty. destruct (decide (i = 33)) as [->|Hne33].
  - by rewrite lookup_delete_eq.
  - rewrite lookup_delete_ne by done. destruct (decide (i = 1)) as [->|Hne1].
    + by rewrite lookup_delete_eq.
    + rewrite lookup_delete_ne by done.
      by rewrite !lookup_insert_ne by done.
Qed.

Lemma emptied_trie_keeps_only_root_witness :
  run exHash None exEmptiedOps (emptyTree, emptyHeap)
  = Ok ((exAfter exEmptiedOps).1, (exAfter exEmptiedOps).2) ∧
  mapAfter exEmptiedOps (∅ : gmap Z Z) = ∅ ∧
  MHashTree_count (exAfter exEmptiedOps).1 = Ok 0 ∧
  (length (liveAddrs (exAfter exEmptiedOps).1) ≤ 1)%nat ∧
  (length (freed (exAfter exEmptiedOps).2)
   + length (liveAddrs (exAfter exEmptiedOps).1)
   = allocated (exAfter exEmptiedOps).2)%nat.
Proof.
  assert (run exHash None exEmptiedOps (emptyTree, emptyHeap)
          = Ok ((exAfter exEmptiedOps).1, (exAfter exEmptiedOps).2))
    as Hrun by (vm_compute; reflexivity).
  split; [exact Hrun|]. split; [exact exEmptiedOps_map|].
  exact (emptied_trie_keeps_only_root exHash 0 None exEmptiedOps _ _ Hrun
           exEmptiedOps_map).
Defined.

Lemma depth_at_most_twelve_witness :
  reachable exHash None (exAfter exStaleOps) ∧
  (treeHeight (exAfter exStaleOps).1 ≤ 12)%nat.
Proof.
  split; [exact exStale_reachable|].
  exact (depth_at_most_twelve exHash 0 None _ exStale_reachable).
Defined.

Lemma root_stays_witness :
  reachable exHash None (exTrie, exHeap) ∧
  step exHash None (exTrie, exHeap) (Insert 33 12) = Ok (exTrie2, exHeap2) ∧
  match _root (exTrie, exHeap).1 with
  | Some root =>
      ∃ root', _root (exTrie2, exHeap2).1 = Some root' ∧
               addrOf root' = addrOf root ∧
               capacityOf root' = kMaxChildren ∧ capacityOf root = kMaxChildren
  | None =>
      ∃ root', _root (exTrie2, exHeap2).1 = Some root' ∧
               addrOf root' = allocated (exTrie, exHeap).2 ∧
               capacityOf root' = kMaxChildren
  end.
Proof.
  assert (step exHash None (exTrie, exHeap) (Insert 33 12) = Ok (exTrie2, exHeap2))
    as Hstep by (vm_compute; reflexivity).
  split; [exact exTrie_reachable|]. split; [exact Hstep|].
  exact (root_stays exHash 0 None (exTrie, exHeap) (exTrie2, exHeap2) (Insert 33 12)
           exTrie_reachable Hstep).
Defined.

Lemma exSixVector_inv : sv_inv 4 exSixVector.
Proof. unfold sv_inv, exSixVector, UINT32_MAX. cbn. lia. Qed.




Lemma pop_back_drops_last_witness :
  sv_inv 4 exFourVector ∧
  (_size exFourVector = 0 → pop_back exFourVector = Fail AssertionFailed) ∧
  (0 < _size exFourVector →
   ∃ sv', pop_back exFourVector = Ok sv' ∧ _size sv' = _size exFourVector - 1 ∧
          elems sv' = take (Z.to_nat (_size exFourVector - 1)) (elems exFourVector)) ∧
  (∀ heapOk t sv1,
     push_back 4 0 heapOk t exFourVector = Ok sv1 →
     ∃ sv2, pop_back sv1 = Ok sv2 ∧ _size sv2 = _size exFourVector ∧
            elems sv2 = elems exFourVector).
Proof.
  split; [exact exFourVector_inv|].
  exact (pop_back_drops_last 4 0 exFourVector exFourVector_inv).
Defined.

Lemma erase_removes_range_witness :
  sv_inv 4 exFourVector ∧
  (0 ≤ 1 ∧ 1 ≤ 3 ∧ 3 ≤ _size exFourVector →
   ∃ sv', erase 1 3 exFourVector = Ok sv' ∧
          _size sv' = _size exFourVector - (3 - 1) ∧
          elems sv' = take (Z.to_nat 1) (elems exFourVector)
                        ++ drop (Z.to_nat 3) (elems exFourVector)) ∧
  (¬ (0 ≤ 1 ∧ 1 ≤ 3 ∧ 3 ≤ _size exFourVector) →
   erase 1 3 exFourVector = Fail AssertionFailed).
Proof.
  split; [exact exFourVector_inv|].
  exact (erase_removes_range 4 1 3 exFourVector exFourVector_inv).
Defined.

Lemma resize_truncates_or_pads_witness :
  sv_inv 4 exFourVector ∧ 0 ≤ 6 ∧
  (∀ sv', resize 4 0 0 true 6 exFourVector = Ok sv' →
          _size sv' = 6 ∧
          elems sv' = take (Z.to_nat 6) (elems exFourVector)
                        ++ replicate (Z.to_nat (6 - _size exFourVector)) 0) ∧
  (6 ≤ _size exFourVector → ∃ sv', resize 4 0 0 true 6 exFourVector = Ok sv') ∧
  (∃ sv', clear exFourVector = Ok sv' ∧ _size sv' = 0 ∧ elems sv' = []) ∧
  (0 ≤ 4 ≤ UINT32_MAX →
   ∀ sv', newVectorSized 4 0 0 true 6 = Ok sv' →
          elems sv' = replicate (Z.to_nat 6) 0).
Proof.
  assert (0 ≤ 6) as Hsz by lia.
  split; [exact exFourVector_inv|]. split; [exact Hsz|].
  exact (resize_truncates_or_pads 4 0 0 true 6 exFourVector exFourVector_inv Hsz).
Defined.

Lemma setCapacity_keeps_items_witness :
  sv_inv 4 exSixVector ∧ 0 ≤ 4 ∧
  (∀ sv', setCapacity 4 0 true 4 exSixVector = Ok sv' →
          elems sv' = elems exSixVector ∧ _size sv' = _size exSixVector ∧
          (onHeap sv' = true ↔ 4 < 4)) ∧
  (∀ sv', reserve 4 0 true 4 exSixVector = Ok sv' →
          elems sv' = elems exSixVector ∧ _size sv' = _size exSixVector ∧
          4 ≤ _capacity sv').
Proof.
  assert (0 ≤ 4) as Hcap by lia.
  split; [exact exSixVector_inv|]. split; [exact Hcap|].
  exact (setCapacity_keeps_items 4 0 true 4 exSixVector exSixVector_inv Hcap).
Defined.

Lemma get_is_bounds_checked_witness :
  sv_inv 4 exFourVector ∧ 0 ≤ 2 ∧
  (2 < _size exFourVector →
   ∃ x, sv_get exFourVector 2 = Ok x ∧ sv_index exFourVector 2 = Ok x ∧
        elems exFourVector !! Z.to_nat 2 = Some x) ∧
  (_size exFourVector ≤ 2 → sv_get exFourVector 2 = Fail AssertionFailed) ∧
  (_size exFourVector = 0 → sv_back exFourVector = Fail AssertionFailed) ∧
  (0 < _size exFourVector →
   ∃ x, sv_back exFourVector = Ok x ∧ last (elems exFourVector) = Some x).
Proof.
  assert (0 ≤ 2) as Hi by lia.
  split; [exact exFourVector_inv|]. split; [exact Hi|].
  exact (get_is_bounds_checked 4 exFourVector 2 exFourVector_inv Hi).
Defined.


Lemma moved_from_source_overflows_witness :
  sv_inv 4 exSixVector ∧ onHeap exSixVector = true ∧ 0 ≤ 4 ∧
  ∃ new old,
    moveConstruct 4 0 exSixVector = Ok (new, old) ∧
    _size old = 0 ∧ _capacity old = _capacity exSixVector ∧ onHeap old = false ∧
    4 < _capacity old ∧
    ∀ heapOk ts t,
      length ts = Z.to_nat 4 →
      ∃ old', push_all 4 0 heapOk ts old = Ok old' ∧
              elems old' = ts ∧
              push_back 4 0 heapOk t old' = Fail UndefinedBehavior.
Proof.
  assert (onHeap exSixVector = true) as Hheap by reflexivity.
  assert (0 ≤ 4) as HN by lia.
  split; [exact exSixVector_inv|]. split; [exact Hheap|]. split; [exact HN|].
  exact (moved_from_source_overflows 4 0 exSixVector exSixVector_inv Hheap HN).
Defined.
